(** * bumps.webview.server.fit_thread: the fit thread, its monitors and the
      event bridge

    A shallow embedding of [src/bumps/webview/server/fit_thread.py]; the
    context managers and helpers of [src/bumps/util.py] follow in the module
    [Util].

    - Python objects that are shared by reference (the problem, numpy point
      buffers, the sampler's uncertainty state) live in a store indexed by
      locations; [deepcopy] and [array + 0] allocate a fresh location.
    - The two global asyncio queues and the wake-ups written to the consumer's
      loop are one ordered log of actions.
    - Code that runs on the worker thread is written in a small state and
      exception monad over that world.
    - [float] data that is only compared or copied (objective values, the
      delays handed to the inherited monitor) is an exact rational. Where
      rounding decides what the code does it is computed in binary64 with the
      Standard Library's [SpecFloat]: [int(0.2*n)] and [int(0.5*n)], which
      decide an index, and the trajectory time, the rates and the sum
      [self.time + self.rate], which decide whether a monitor publishes. *)

From Stdlib Require Import ZArith QArith String List Lia Lqa Permutation Sorted.
From Stdlib Require Import Floats.SpecFloat.
From stdpp Require Import base option list gmap strings.

Close Scope Q_scope.
Local Open Scope string_scope.
Local Open Scope list_scope.

(** ** binary64 arithmetic used for the quantile indices and the cadence *)

Module Float64.

Definition prec : Z := 53.
Definition emax : Z := 1024.

(** [float(n)] for a Python int: the nearest double, ties to even. *)
Definition of_int (n : Z) : spec_float := binary_normalize prec emax n 0 false.

Definition mul : spec_float -> spec_float -> spec_float := SFmul prec emax.

Definition add : spec_float -> spec_float -> spec_float := SFadd prec emax.

Definition zero : spec_float := S754_zero false.

(** The literals [0.2] and [0.5] as doubles:
    0.2 is 0x1.999999999999ap-3, 0.5 is 0x1p-1. *)
Definition lit_0_2 : spec_float := S754_finite false 7205759403792794 (-55).
Definition lit_0_5 : spec_float := S754_finite false 4503599627370496 (-53).

(** Python's [int(x)] on a float truncates toward zero; it raises on
    infinities and NaN ([None] here). *)
Definition to_int (x : spec_float) : option Z :=
  match x with
  | S754_zero _ => Some 0%Z
  | S754_finite s m e =>
      let a := match e with
               | Zneg k => Z.shiftr (Zpos m) (Zpos k)
               | _ => Z.shiftl (Zpos m) e
               end in
      Some (if s then (- a)%Z else a)
  | S754_infinity _ | S754_nan => None
  end.

(** A double on the extended line, exactly: not a number, an infinity, or
    [m * 2^e]. *)
Inductive extended :=
| ENan
| EInf (negative : bool)
| EFin (m e : Z).

Definition extended_of (x : spec_float) : extended :=
  match x with
  | S754_nan => ENan
  | S754_infinity s => EInf s
  | S754_zero _ => EFin 0 0
  | S754_finite s m e => EFin (if s then Z.neg m else Z.pos m) e
  end.

(** Doubles are compared by their exact values; every comparison with a
    NaN is false ([None] here). *)
Definition compare (x y : spec_float) : option comparison :=
  match extended_of x, extended_of y with
  | ENan, _ | _, ENan => None
  | EInf s1, EInf s2 =>
      Some match s1, s2 with
           | true, true | false, false => Eq
           | true, false => Lt
           | false, true => Gt
           end
  | EInf s, EFin _ _ => Some (if s then Lt else Gt)
  | EFin _ _, EInf s => Some (if s then Gt else Lt)
  | EFin m1 e1, EFin m2 e2 =>
      let e := Z.min e1 e2 in
      Some (Z.compare (m1 * 2 ^ (e1 - e)) (m2 * 2 ^ (e2 - e)))
  end.

(** [x > y] and [x >= y] *)
Definition gtb (x y : spec_float) : bool :=
  match compare x y with
  | Some Gt => true
  | _ => false
  end.

Definition geb (x y : spec_float) : bool :=
  match compare x y with
  | Some Gt | Some Eq => true
  | _ => false
  end.

(** The exact value of a finite double, [m * 2^e], as a rational. *)
Definition to_Q (x : spec_float) : option Q :=
  match x with
  | S754_zero _ => Some 0%Q
  | S754_finite s m e =>
      Some (inject_Z (if s then Z.neg m else Z.pos m) * Qpower 2 e)%Q
  | S754_infinity _ | S754_nan => None
  end.

End Float64.

(** ** Values, events and the world *)

(** A reference to a heap object (what [id(obj)] identifies). *)
Definition loc := positive.

(** A numpy array of doubles with at most two axes: its shape and its rows.
    A one-axis array of [k] tuples (what legacy numpy builds from ragged
    rows) has shape [[k]]. *)
Record ndarray := { shape : list nat; data : list (list Q) }.

(** [np.empty((0,1),'d')] *)
Definition np_empty_0_1 : ndarray := {| shape := [0; 1]%nat; data := [] |}.

(** [np.array(rows)] for a list of tuples of floats. *)
Definition np_array (rows : list (list Q)) : ndarray :=
  match rows with
  | [] => {| shape := [0%nat]; data := [] |}
  | r :: rs =>
      if forallb (fun r' => Nat.eqb (length r') (length r)) rs
      then {| shape := [length rows; length r]; data := rows |}
      else {| shape := [length rows]; data := rows |}
  end.

(** What an event field can hold. *)
Inductive pyval :=
| VStr (s : string)
| VInt (z : Z)
| VFloat (x : Q)
| VProblem (l : loc)        (* reference to a problem object *)
| VPoint (l : loc)          (* reference to a numpy vector *)
| VState (l : loc)          (* reference to an uncertainty state *)
| VNdarray (a : ndarray).   (* a freshly built array, owned by the event *)

(** An event is a Python dict with string keys. *)
Abbreviation event := (gmap string pyval).

Inductive channel := Progress | Complete.

(** Monitors in the chain of [FitThread.run], by position. *)
Inductive monitor_id := GuiId | ConvId | DreamId.

(** What the worker thread does that another party can observe, in order.
    [Put c e] is [queue.put_nowait(e)] on the queue of channel [c];
    [Wake c] is [queue._loop._write_to_self()] on that queue's loop;
    [Final i] marks the call [M.final()] on the [i]-th monitor. *)
Inductive action :=
| Put (c : channel) (e : event)
| Wake (c : channel)
| Final (i : monitor_id).

Inductive exn :=
| AttributeError
| IndexError
| OverflowError
| FitError (msg : string).

(** The comparison [x > y] on objective values. *)
Definition Qgtb (x y : Q) : bool := negb (Qle_bool x y).

(** [x or default] on an optional number: [None] and [0] are falsy. *)
Definition py_or (x : option Q) (default : Q) : Q :=
  match x with
  | Some v => if Qeq_bool v 0 then default else v
  | None => default
  end.

(** The current entry of every trace of [bumps.history.History] that the
    monitors read: [history.step[0]], [history.value[0]], ...
    [population_values] is [None] when reading the attribute raises
    [AttributeError]; [uncertainty_state] is what
    [getattr(history, 'uncertainty_state', None)] returns; [time] is the
    trajectory time, a double. *)
Module History.
Record t := {
  step : Z;
  value : Q;
  point : loc;
  population_values : option (list Q);
  time : spec_float;
  uncertainty_state : option loc;
}.
End History.

(** ** The world the worker thread acts on *)

Section World.

(** The contents of a problem object and of a sampler's uncertainty
    state are opaque to this module. *)
Context (P U : Type).

Record World := {
  problems : gmap loc P;
  arrays : gmap loc (list Q);
  states : gmap loc U;
  log : list action;
}.

(** State and exception monad of the worker thread. A raised exception
    keeps the world as it was when it was raised. *)
Inductive outcome (A : Type) :=
| Returns (a : A) (w : World)
| Raises (e : exn) (w : World).

Definition M (A : Type) : Type := World -> outcome A.

End World.

Arguments problems {P U} w.
Arguments arrays {P U} w.
Arguments states {P U} w.
Arguments log {P U} w.
Arguments Returns {P U A} a w.
Arguments Raises {P U A} e w.

Section Monad.
Context {P U : Type}.
Local Abbreviation M := (M P U).

Definition ret {A} (a : A) : M A := fun w => Returns a w.
Definition raise {A} (e : exn) : M A := fun w => Raises e w.
Definition bind {A B} (m : M A) (k : A -> M B) : M B :=
  fun w => match m w with
           | Returns a w' => k a w'
           | Raises e w' => Raises e w'
           end.
Definition get_world : M (World P U) := fun w => Returns w w.

Definition world_of {A} (o : outcome P U A) : World P U :=
  match o with Returns _ w | Raises _ w => w end.

(** [for x in xs: body(x)] *)
Fixpoint for_each {A} (xs : list A) (body : A -> M unit) : M unit :=
  match xs with
  | [] => ret tt
  | x :: xs' => bind (body x) (fun _ => for_each xs' body)
  end.

Definition emit (a : action) : M unit :=
  fun w => Returns tt {| problems := problems w; arrays := arrays w;
                         states := states w; log := log w ++ [a] |}.
End Monad.

Notation "x <- m ;; k" := (bind m (fun x => k))
  (at level 100, m at next level, right associativity).
Notation "m ;; k" := (bind m (fun _ => k))
  (at level 100, right associativity).

Definition same_channel (c c' : channel) : bool :=
  match c, c' with
  | Progress, Progress | Complete, Complete => true
  | _, _ => false
  end.

(** Events put on channel [c], oldest first. *)
Definition published (c : channel) (acts : list action) : list event :=
  omap (fun a => match a with
                 | Put c' e => if same_channel c c' then Some e else None
                 | _ => None
                 end) acts.

(** Monitors whose [final] was called, in call order. *)
Definition finalized (acts : list action) : list monitor_id :=
  omap (fun a => match a with Final i => Some i | _ => None end) acts.

(** ** Copies *)

Section Copies.
Context {P U : Type} `{!Inhabited P, !Inhabited U}.
Local Abbreviation M := (M P U).

(** [deepcopy(problem)]: a new problem object with the same contents. *)
Definition deepcopy_problem (l : loc) : M loc :=
  fun w =>
    let l' := fresh (dom (problems w)) in
    Returns l' {| problems := <[l' := problems w !!! l]> (problems w);
                  arrays := arrays w; states := states w; log := log w |}.

(** [a + 0] on a numpy vector: a new array with the same entries. *)
Definition copy_point (l : loc) : M loc :=
  fun w =>
    let l' := fresh (dom (arrays w)) in
    Returns l' {| problems := problems w;
                  arrays := <[l' := arrays w !!! l]> (arrays w);
                  states := states w; log := log w |}.

(** [deepcopy(uncertainty_state)] *)
Definition deepcopy_state (l : loc) : M loc :=
  fun w =>
    let l' := fresh (dom (states w)) in
    Returns l' {| problems := problems w; arrays := arrays w;
                  states := <[l' := states w !!! l]> (states w); log := log w |}.
End Copies.

(** ** The event bridge *)

Section Bridge.
Context {P U : Type}.
Local Abbreviation M := (M P U).

(** The two module-level queues are the two channels of the log. *)
Definition FIT_COMPLETE_QUEUE : channel := Complete.
Definition FIT_PROGRESS_QUEUE : channel := Progress.

(** [asyncio.Queue()] has no size limit, so [put_nowait] always
    succeeds; the loop bound to the queue is taken to exist. *)
Definition put_nowait (q : channel) (e : event) : M unit := emit (Put q e).
Definition write_to_self (q : channel) : M unit := emit (Wake q).

Definition send_progress (e : event) : M unit :=
  put_nowait FIT_PROGRESS_QUEUE e ;;
  write_to_self FIT_PROGRESS_QUEUE.

Definition send_complete (e : event) : M unit :=
  put_nowait FIT_COMPLETE_QUEUE e ;;
  write_to_self FIT_COMPLETE_QUEUE.
End Bridge.

(** [dict(k1=v1, ..., kn=vn)] *)
Definition dict (kvs : list (string * pyval)) : event := list_to_map kvs.

(** ** numpy and sequence helpers *)

(** [np.sort(a)]: the entries of [a] in ascending order. *)
Fixpoint insert_sorted (x : Q) (l : list Q) : list Q :=
  match l with
  | [] => [x]
  | y :: l' => if Qle_bool x y then x :: l else y :: insert_sorted x l'
  end.

Fixpoint np_sort (a : list Q) : list Q :=
  match a with
  | [] => []
  | x :: a' => insert_sorted x (np_sort a')
  end.

(** Pure code that can raise: the first exception wins. *)
#[global] Instance exn_bind : MBind (sum exn) :=
  fun A B k x => match x with inl e => inl e | inr a => k a end.

(** [p[i]] with Python's rule for negative indices; out of range raises
    [IndexError]. *)
Definition getitem (p : list Q) (i : Z) : exn + Q :=
  let n := Z.of_nat (length p) in
  let j := if (i <? 0)%Z then (n + i)%Z else i in
  if ((0 <=? j) && (j <? n))%Z
  then match p !! Z.to_nat j with
       | Some x => inr x
       | None => inl IndexError
       end
  else inl IndexError.

(** [int(c * n)] for a float literal [c] and an int [n]. *)
Definition int_of_scaled (c : spec_float) (n : Z) : exn + Z :=
  match Float64.to_int (Float64.mul c (Float64.of_int n)) with
  | Some k => inr k
  | None => inl OverflowError
  end.

(** ** Collaborators that are not part of this module

    [monitor.TimedUpdate] (its state and which of [show_progress] and
    [show_improvement] a call triggers, and whether it inherits a [final]),
    and the helpers of [bumps.fitters] and [bumps.mapper] that [run] and
    [show_progress] call on the contents of a problem. *)
Class Externals (P : Type) := {
  TimedUpdate : Type;
  TimedUpdate_init : Q -> Q -> TimedUpdate;
  TimedUpdate_call : TimedUpdate -> History.t -> TimedUpdate * bool * bool;
  TimedUpdate_has_final : bool;
  nllf_scale : P -> Q * Q;
  format_uncertainty : Q -> Q -> string;
  can_pickle : P -> bool;
}.

Definition PROGRESS_DELAY : Q := 5.
Definition IMPROVEMENT_DELAY : Q := 5.

(** ** GUIProgressMonitor *)

Module GUIProgressMonitor.
Section Methods.
Context {P U : Type} `{!Inhabited P, !Inhabited U, !Externals P}.
Local Abbreviation M := (M P U).

Record t := { base : TimedUpdate; problem : loc }.

Definition init (problem : loc) (progress improvement : option Q) : t :=
  {| base := TimedUpdate_init (py_or progress PROGRESS_DELAY)
                              (py_or improvement IMPROVEMENT_DELAY);
     problem := problem |}.

Definition show_progress (self : t) (history : History.t) : M unit :=
  w <- get_world ;;
  let '(scale, err) := nllf_scale (problems w !!! problem self) in
  let chisq := format_uncertainty (scale * History.value history)%Q err in
  pt <- copy_point (History.point history) ;;
  let evt := dict [("message", VStr "progress");
                   ("step", VInt (History.step history));
                   ("value", VFloat (History.value history));
                   ("chisq", VStr chisq);
                   ("point", VPoint pt)] in
  send_progress evt.

Definition show_improvement (self : t) (history : History.t) : M unit :=
  pt <- copy_point (History.point history) ;;
  let evt := dict [("problem", VProblem (problem self));
                   ("message", VStr "improvement");
                   ("step", VInt (History.step history));
                   ("value", VFloat (History.value history));
                   ("point", VPoint pt)] in
  send_progress evt.

(** Modelled from the spec: [monitor.TimedUpdate.__call__], which this
    class inherits and which is not under src/. The spec has the
    progress reporter and the improvement reporter each decide on their
    own whether to report; the decision itself is [TimedUpdate_call]. *)
Definition call (self : t) (history : History.t) : M t :=
  let '(base', progress_due, improvement_due) :=
    TimedUpdate_call (base self) history in
  (if progress_due then show_progress self history else ret tt) ;;
  (if improvement_due then show_improvement self history else ret tt) ;;
  ret {| base := base'; problem := problem self |}.
End Methods.
Arguments t P {_}.
End GUIProgressMonitor.

(** ** ConvergenceMonitor *)

Module ConvergenceMonitor.

(** [time] and [rate] are doubles: the clock starts at [0], which is the
    double zero in every sum and comparison it enters, and a rate given as
    an int (the default is [5]) is the double of the same value. *)
Record t := {
    time : spec_float;
    rate : spec_float;
    problem : loc;
    message : string;
    pop : list (list Q);
  }.

Definition init (problem : loc) (message : string) (rate : spec_float) : t :=
  {| time := Float64.zero; rate := rate; problem := problem;
     message := message; pop := [] |}.

(** The body of the [try]: the tuple built from a population. *)
Definition quantiles (best : Q) (pop : list Q) : exn + list Q :=
  let n := Z.of_nat (length pop) in
  let p := np_sort pop in
  QI ← int_of_scaled Float64.lit_0_2 n;
  Qmid ← int_of_scaled Float64.lit_0_5 n;
  p0 ← getitem p 0;
  pQI ← getitem p QI;
  pQmid ← getitem p Qmid;
  pQhi ← getitem p (-1 - QI);
  plast ← getitem p (-1);
  inr [best; p0; pQI; pQmid; pQhi; plast].

(** The tuple that [__call__] appends: the [try] when the history has
    population values, the [except AttributeError] when it has none. *)
Definition sample (history : History.t) : exn + list Q :=
  let best := History.value history in
  match History.population_values history with
  | Some pop => quantiles best pop
  | None => inr [best]
  end.

Definition progress (self : t) : ndarray :=
  match pop self with
  | [] => np_empty_0_1
  | _ :: _ => np_array (pop self)
  end.

Section Methods.
Context {P U : Type}.
Local Abbreviation M := (M P U).

(** [self.pop.append(...)], the first half of [__call__]. *)
Definition record_sample (self : t) (history : History.t) : M t :=
  match sample history with
  | inr row => ret {| time := time self; rate := rate self;
                      problem := problem self; message := message self;
                      pop := pop self ++ [row] |}
  | inl e => raise e
  end.

Definition call (self : t) (history : History.t) : M t :=
  self <- record_sample self history ;;
  if Float64.gtb (rate self) Float64.zero
     && Float64.geb (History.time history)
                    (Float64.add (time self) (rate self))
  then
    let evt := dict [("problem", VProblem (problem self));
                     ("message", VStr (message self));
                     ("pop", VNdarray (progress self))] in
    send_progress evt ;;
    ret {| time := History.time history; rate := rate self;
           problem := problem self; message := message self;
           pop := pop self |}
  else ret self.

Definition final (self : t) : M unit :=
  let evt := dict [("problem", VProblem (problem self));
                   ("message", VStr (message self));
                   ("pop", VNdarray (progress self))] in
  send_progress evt.
End Methods.
End ConvergenceMonitor.

(** ** The fitter handed to the thread

    [fitclass] and the optimiser behind [FitDriver] are not part of this
    module. A fitter is given by what it does: its iterations, each of which
    updates the driver's own problem object, writes point buffers and
    sampler state, and produces the history that the monitors are shown;
    a step that raises; the best point and value it reports after [k]
    iterations; and the text that [driver.show()] prints. *)
Module Fitter.
Section Types.
Context (P U : Type).

Record Iteration := {
  on_problem : P -> P;
  on_arrays : gmap loc (list Q);
  on_states : gmap loc U;
  history : History.t;
}.

Inductive Step :=
| Iterate (it : Iteration)
| Throw (e : exn).

Record t := {
  steps : list Step;
  result : nat -> loc * Q;
  report : nat -> string;
}.
End Types.
Arguments on_problem {P U} _.
Arguments on_arrays {P U} _.
Arguments on_states {P U} _.
Arguments history {P U} _.
Arguments Iterate {P U} it.
Arguments Throw {P U} e.
Arguments steps {P U} _.
Arguments result {P U} _.
Arguments report {P U} _.
End Fitter.

(** ** DreamMonitor *)

Module DreamMonitor.
Section Methods.
Context {P U : Type} `{!Inhabited U}.
Local Abbreviation M := (M P U).

Record t := {
  time : spec_float;
  rate : spec_float;
  problem : loc;
  fitter : Fitter.t P U;
  message : string;
  uncertainty_state : option loc;
}.

Definition init (problem : loc) (message : string) (fitter : Fitter.t P U)
    (rate : spec_float) : t :=
  {| time := Float64.zero; rate := rate; problem := problem;
     fitter := fitter; message := message; uncertainty_state := None |}.

Definition call (self : t) (history : History.t) : M t :=
  let self := {| time := time self; rate := rate self;
                 problem := problem self; fitter := fitter self;
                 message := message self;
                 uncertainty_state := History.uncertainty_state history |} in
  match uncertainty_state self with
  | Some st =>
      if Float64.gtb (rate self) Float64.zero
         && Float64.geb (History.time history)
                        (Float64.add (time self) (rate self))
      then
        let self := {| time := History.time history; rate := rate self;
                       problem := problem self; fitter := fitter self;
                       message := message self;
                       uncertainty_state := uncertainty_state self |} in
        st' <- deepcopy_state st ;;
        let evt := dict [("problem", VProblem (problem self));
                         ("message", VStr "uncertainty_update");
                         ("uncertainty_state", VState st')] in
        send_progress evt ;;
        ret self
      else ret self
  | None => ret self
  end.

Definition final (self : t) : M unit :=
  match uncertainty_state self with
  | Some st =>
      st' <- deepcopy_state st ;;
      let evt := dict [("problem", VProblem (problem self));
                       ("message", VStr "uncertainty_final");
                       ("uncertainty_state", VState st')] in
      send_progress evt
  | None => ret tt
  end.
End Methods.
Arguments t P U : clear implicits.
End DreamMonitor.

(** ** The monitor chain *)

Section Chain.
Context {P U : Type} `{!Inhabited P, !Inhabited U, !Externals P}.
Local Abbreviation M := (M P U).

Inductive Monitor :=
| MGui (m : GUIProgressMonitor.t P)
| MConv (m : ConvergenceMonitor.t)
| MDream (m : DreamMonitor.t P U).

Definition monitor_id_of (m : Monitor) : monitor_id :=
  match m with MGui _ => GuiId | MConv _ => ConvId | MDream _ => DreamId end.

(** [M(history)] *)
Definition Monitor_call (m : Monitor) (history : History.t) : M Monitor :=
  match m with
  | MGui g => g' <- GUIProgressMonitor.call g history ;; ret (MGui g')
  | MConv c => c' <- ConvergenceMonitor.call c history ;; ret (MConv c')
  | MDream d => d' <- DreamMonitor.call d history ;; ret (MDream d')
  end.

(** [hasattr(M, 'final')]: [GUIProgressMonitor] defines no [final] of its
    own, it has one only if [monitor.TimedUpdate] does. *)
Definition has_final (m : Monitor) : bool :=
  match m with
  | MGui _ => TimedUpdate_has_final
  | MConv _ | MDream _ => true
  end.

(** [M.final()]; a [final] inherited by [GUIProgressMonitor] publishes
    nothing. *)
Definition Monitor_final (m : Monitor) : M unit :=
  emit (Final (monitor_id_of m)) ;;
  match m with
  | MGui _ => ret tt
  | MConv c => ConvergenceMonitor.final c
  | MDream d => DreamMonitor.final d
  end.

(** One pass over the chain, in order; the monitors are objects, so what a
    call changes in one is seen by whoever holds the list. *)
Fixpoint call_all (monitors : list Monitor) (history : History.t)
    : M (list Monitor) :=
  match monitors with
  | [] => ret []
  | m :: rest =>
      m' <- Monitor_call m history ;;
      rest' <- call_all rest history ;;
      ret (m' :: rest')
  end.
End Chain.
Arguments Monitor P U {_}.

(** ** FitDriver *)

Inductive Mapper := MPMapper | SerialMapper.

Module FitDriver.
Section Methods.
Context {P U : Type} `{!Inhabited P, !Inhabited U, !Externals P}.
Local Abbreviation M := (M P U).

Record t := {
  fitclass : Fitter.t P U;
  problem : loc;
  monitors : list (Monitor P U);
  abort_test : nat -> bool;
  mapper : Mapper * loc;
  options : event;
}.

(** What one iteration of the optimiser does to the objects it owns. *)
Definition iterate (self : t) (it : Fitter.Iteration P U) : M unit :=
  fun w => Returns tt
    {| problems := alter (Fitter.on_problem it) (problem self) (problems w);
       arrays := Fitter.on_arrays it ∪ arrays w;
       states := Fitter.on_states it ∪ states w;
       log := log w |}.

(** Modelled from the spec: the loop of [FitDriver.fit] ([bumps.fitters]
    is not under src/). The driver calls the monitor chain once per
    iteration and polls the abort test between iterations; [k] counts
    the iterations done. *)
Fixpoint fit_loop (self : t) (steps : list (Fitter.Step P U)) (k : nat)
    (monitors : list (Monitor P U)) : M (list (Monitor P U) * nat) :=
  match steps with
  | [] => ret (monitors, k)
  | Fitter.Throw e :: _ => raise e
  | Fitter.Iterate it :: rest =>
      iterate self it ;;
      monitors <- call_all monitors (Fitter.history it) ;;
      if abort_test self k then ret (monitors, S k)
      else fit_loop self rest (S k) monitors
  end.

(** [driver.fit()]: the monitors as the loop left them, the number of
    iterations done, and [(x, fx)]. *)
Definition fit (self : t) : M (list (Monitor P U) * nat * (loc * Q)) :=
  r <- fit_loop self (Fitter.steps (fitclass self)) 0 (monitors self) ;;
  ret (r, Fitter.result (fitclass self) r.2).

(** [driver.show()] inside [redirect_console()]: the text it prints. *)
Definition show (self : t) (k : nat) : string :=
  Fitter.report (fitclass self) k.
End Methods.
Arguments t P U {_}.
End FitDriver.

(** ** FitThread *)

Module FitThread.
Section Methods.
Context {P U : Type} `{!Inhabited P, !Inhabited U, !Externals P}.
Local Abbreviation M := (M P U).

(** [abort_queue k] is the number of items in the abort queue when the
    worker polls it for the [k]-th time; the caller's thread fills it. *)
Record t := {
  abort_queue : nat -> nat;
  problem : loc;
  fitclass : Fitter.t P U;
  options : event;
  mapper : option Mapper;
  convergence_update : spec_float;
  uncertainty_update : spec_float;
  terminate_on_finish : bool;
}.

Definition init (abort_queue : nat -> nat) (problem : loc)
    (fitclass : Fitter.t P U) (options : option event)
    (mapper : option Mapper)
    (convergence_update uncertainty_update : spec_float)
    (terminate_on_finish : bool) : t :=
  {| abort_queue := abort_queue; problem := problem; fitclass := fitclass;
     options := default ∅ options; mapper := mapper;
     convergence_update := convergence_update;
     uncertainty_update := uncertainty_update;
     terminate_on_finish := terminate_on_finish |}.

Definition abort_test (self : t) (k : nat) : bool :=
  negb (Nat.eqb (abort_queue self k) 0).

Definition run (self : t) : M event :=
  let self_problem := problem self in
  let monitors :=
    [MGui (GUIProgressMonitor.init (problem self) None None);
     MConv (ConvergenceMonitor.init (problem self) "convergence_update"
              (convergence_update self));
     MDream (DreamMonitor.init (problem self) "uncertainty_update"
               (fitclass self) (uncertainty_update self))] in
  w <- get_world ;;
  let mapper :=
    if can_pickle (problems w !!! problem self) then MPMapper
    else SerialMapper in
  problem <- deepcopy_problem (problem self) ;;
  let driver :=
    {| FitDriver.fitclass := fitclass self;
       FitDriver.problem := problem;
       FitDriver.monitors := monitors;
       FitDriver.abort_test := abort_test self;
       FitDriver.mapper := (mapper, problem);
       FitDriver.options := options self |} in
  r <- FitDriver.fit driver ;;
  let '(monitors, k, (x, fx)) := r in
  for_each monitors
    (fun M => if has_final M then Monitor_final M else ret tt) ;;
  let captured_output := FitDriver.show driver k in
  let evt := dict [("message", VStr "complete");
                   ("problem", VProblem self_problem);
                   ("point", VPoint x);
                   ("value", VFloat fx);
                   ("info", VStr captured_output)] in
  send_complete evt ;;
  ret evt.
End Methods.
Arguments t P U : clear implicits.
End FitThread.

(** ** A concrete job

    Problem contents and sampler state are integers; the inherited monitor
    reports progress on every call and an improvement whenever the value
    drops below the best seen so far. The fitter works on one point buffer;
    its steps and the histories shown to a monitor on its own vary. *)
Module Toy.

#[global] Instance externals : Externals Z := {|
  TimedUpdate := option Q;
  TimedUpdate_init := fun _ _ => None;
  TimedUpdate_call := fun best h =>
    let v := History.value h in
    match best with
    | Some b => if Qgtb b v then (Some v, true, true) else (Some b, true, false)
    | None => (Some v, true, true)
    end;
  TimedUpdate_has_final := false;
  nllf_scale := fun _ => (1, 0)%Q;
  format_uncertainty := fun _ _ => "chisq";
  can_pickle := fun _ => true;
|}.

Definition buffer : loc := 1%positive.
Definition sampler : loc := 3%positive.
Definition caller_problem : loc := 100%positive.

Definition history (k : Z) (pop : option (list Q)) (st : option loc)
    : History.t :=
  {| History.step := k;
     History.value := inject_Z (10 - k);
     History.point := buffer;
     History.population_values := pop;
     History.time := Float64.of_int k;
     History.uncertainty_state := st |}.

Definition iteration (k : Z) (pop : option (list Q)) (st : option loc)
    : Fitter.Step Z Z :=
  Fitter.Iterate
    {| Fitter.on_problem := Z.succ;
       Fitter.on_arrays := {[ buffer := [inject_Z k] ]};
       Fitter.on_states := ∅;
       Fitter.history := history k pop st |}.

Definition population : list Q := [5; 3; 9; 1; 7]%Q.

(** The doubles nearest to 5.7 and to 10.7: 0x1.6cccccccccccdp+2 and
    0x1.5666666666666p+3. *)
Definition t_5_7 : spec_float := S754_finite false 6417629469002957 (-50).
Definition t_10_7 : spec_float := S754_finite false 6023564501608038 (-49).

(** A history of a sampler at trajectory time [t]. *)
Definition history_at (t : spec_float) : History.t :=
  {| History.step := 1;
     History.value := 0;
     History.point := 1%positive;
     History.population_values := None;
     History.time := t;
     History.uncertainty_state := Some 3%positive |}.

Definition five_steps : list (Fitter.Step Z Z) :=
  map (fun k => iteration k (Some population) None) [1; 2; 3; 4; 5]%Z.

(** One iteration, then the optimiser raises. *)
Definition failing_steps : list (Fitter.Step Z Z) :=
  [iteration 1 (Some population) None; Fitter.Throw (FitError "diverged")].

Definition fitter (steps : list (Fitter.Step Z Z)) : Fitter.t Z Z :=
  {| Fitter.steps := steps;
     Fitter.result := fun k => (buffer, inject_Z (10 - Z.of_nat k));
     Fitter.report := fun _ => "report" |}.

Definition world0 : World Z Z :=
  {| problems := {[ caller_problem := 42%Z ]};
     arrays := {[ buffer := [0%Q] ]};
     states := {[ sampler := 0%Z ]};
     log := [] |}.

(** An iteration of a population method whose population is empty. *)
Definition empty_iteration : Fitter.Iteration Z Z :=
  {| Fitter.on_problem := Z.succ;
     Fitter.on_arrays := {[ buffer := [1%Q] ]};
     Fitter.on_states := ∅;
     Fitter.history := history 1 (Some []) None |}.

Definition never_aborted : nat -> nat := fun _ => 0%nat.

(** The caller puts an item on the abort queue while iteration [n] runs. *)
Definition abort_during (n : nat) : nat -> nat :=
  fun k => if Nat.leb n (S k) then 1%nat else 0%nat.

Definition thread (steps : list (Fitter.Step Z Z)) (abort_queue : nat -> nat)
    (convergence_update : Z) : FitThread.t Z Z :=
  FitThread.init abort_queue caller_problem (fitter steps) None None
    (Float64.of_int convergence_update) (Float64.of_int 300) false.

(** Histories of a population method and of a single-point method. *)
Definition population_histories : list History.t :=
  map (fun k => history k (Some population) None) [1; 2; 3; 4; 5]%Z.

Definition point_histories : list History.t :=
  [history 1 None None; history 2 None None; history 3 None None].

(** Histories of a sampler, and histories in which the sampler's state is
    missing from the last one. *)
Definition sampler_histories : list History.t :=
  [history 1 None (Some sampler); history 2 None (Some sampler)].

Definition interrupted_histories : list History.t :=
  [history 1 None (Some sampler); history 2 None None].

End Toy.

(** ** Vocabulary of the properties *)

(** A trace in which every [Put] is directly followed by the wake-up of the
    same channel. *)
Inductive woken : list action -> Prop :=
| woken_nil : woken []
| woken_put c e d : woken d -> woken (Put c e :: Wake c :: d)
| woken_final i d : woken d -> woken (Final i :: d).

(** What the chain may add to the log while the fit is running. *)
Definition loop_trace (d : list action) : Prop :=
  woken d /\ published Complete d = [] /\ finalized d = [].

(** Events of kind [convergence_update] put on the progress channel. *)
Definition is_convergence_update (e : event) : bool :=
  match e !! "message" with
  | Some (VStr s) => String.eqb s "convergence_update"
  | _ => false
  end.

Definition convergence_updates (d : list action) : list event :=
  List.filter is_convergence_update (published Progress d).

(** The condition of both monitors, [rate > 0 and now >= time + rate]. *)
Definition cadence_due (rate time now : spec_float) : bool :=
  Float64.gtb rate Float64.zero && Float64.geb now (Float64.add time rate).

(** The time [t] passes the condition of a monitor of rate [r] whose clock
    is at [t0]: the rate is positive, and [t] is at least the sum [t0 + r]
    as the code computes it, which is the rounded sum. *)
Definition after_cadence (r t0 t : spec_float) : Prop :=
  Float64.gtb r Float64.zero = true
  /\ Float64.geb t (Float64.add t0 r) = true.

(** Each entry of [ts] passes the condition at the entry before it. *)
Fixpoint separated (r : spec_float) (ts : list spec_float) : Prop :=
  match ts with
  | t1 :: ((t2 :: _) as rest) => after_cadence r t1 t2 /\ separated r rest
  | _ => True
  end.

(** Successive entries of [ts] are finite and, as exact numbers, at least
    [r] apart. *)
Fixpoint separated_exactly (r : Q) (ts : list spec_float) : Prop :=
  match ts with
  | t1 :: ((t2 :: _) as rest) =>
      (exists q1 q2, Float64.to_Q t1 = Some q1 /\ Float64.to_Q t2 = Some q2
                     /\ (q1 + r <= q2)%Q)
      /\ separated_exactly r rest
  | _ => True
  end.

Definition appended (self : ConvergenceMonitor.t) (row : list Q)
    : ConvergenceMonitor.t :=
  {| ConvergenceMonitor.time := ConvergenceMonitor.time self;
     ConvergenceMonitor.rate := ConvergenceMonitor.rate self;
     ConvergenceMonitor.problem := ConvergenceMonitor.problem self;
     ConvergenceMonitor.message := ConvergenceMonitor.message self;
     ConvergenceMonitor.pop := ConvergenceMonitor.pop self ++ [row] |}.

Definition convergence_event (self : ConvergenceMonitor.t) : event :=
  dict [("problem", VProblem (ConvergenceMonitor.problem self));
        ("message", VStr (ConvergenceMonitor.message self));
        ("pop", VNdarray (ConvergenceMonitor.progress self))].

Definition convergence_due (self : ConvergenceMonitor.t) (history : History.t)
    : bool :=
  cadence_due (ConvergenceMonitor.rate self) (ConvergenceMonitor.time self)
              (History.time history).

(** [ts] starts with a time that passes the condition at the clock [t0],
    and each later entry passes it at the entry before. *)
Fixpoint paced (r t0 : spec_float) (ts : list spec_float) : Prop :=
  match ts with
  | [] => True
  | t :: ts' => after_cadence r t0 t /\ paced r t ts'
  end.

(** The uncertainty state that the last of the histories [hs] had. *)
Definition last_state (hs : list History.t) : option loc :=
  last hs ≫= History.uncertainty_state.

Definition uncertainty_event (kind : string) (problem st : loc) : event :=
  dict [("problem", VProblem problem);
        ("message", VStr kind);
        ("uncertainty_state", VState st)].

Section DreamVocabulary.
Context {P U : Type}.

Definition observed (self : DreamMonitor.t P U) (st : option loc)
    : DreamMonitor.t P U :=
  {| DreamMonitor.time := DreamMonitor.time self;
     DreamMonitor.rate := DreamMonitor.rate self;
     DreamMonitor.problem := DreamMonitor.problem self;
     DreamMonitor.fitter := DreamMonitor.fitter self;
     DreamMonitor.message := DreamMonitor.message self;
     DreamMonitor.uncertainty_state := st |}.

Definition dream_due (self : DreamMonitor.t P U) (history : History.t)
    : bool :=
  cadence_due (DreamMonitor.rate self) (DreamMonitor.time self)
              (History.time history).
End DreamVocabulary.

Section RunVocabulary.
Context {P U : Type} `{!Inhabited P, !Inhabited U, !Externals P}.

(** The world in which [run] starts the driver: the caller's world plus
    the private copy of the problem. *)
Definition run_start (self : FitThread.t P U) (w : World P U) : World P U :=
  {| problems := <[fresh (dom (problems w)) :=
                     problems w !!! FitThread.problem self]> (problems w);
     arrays := arrays w; states := states w; log := log w |}.

(** The driver that [run] constructs. *)
Definition run_driver (self : FitThread.t P U) (w : World P U)
    : FitDriver.t P U :=
  let problem := fresh (dom (problems w)) in
  {| FitDriver.fitclass := FitThread.fitclass self;
     FitDriver.problem := problem;
     FitDriver.monitors :=
       [MGui (GUIProgressMonitor.init (FitThread.problem self) None None);
        MConv (ConvergenceMonitor.init (FitThread.problem self)
                 "convergence_update" (FitThread.convergence_update self));
        MDream (DreamMonitor.init (FitThread.problem self)
                  "uncertainty_update" (FitThread.fitclass self)
                  (FitThread.uncertainty_update self))];
     FitDriver.abort_test := FitThread.abort_test self;
     FitDriver.mapper :=
       (if can_pickle (problems w !!! FitThread.problem self)
        then MPMapper else SerialMapper, problem);
     FitDriver.options := FitThread.options self |}.

(** The completion event of a fit that did [k] iterations. *)
Definition complete_event (self : FitThread.t P U) (k : nat) : event :=
  dict [("message", VStr "complete");
        ("problem", VProblem (FitThread.problem self));
        ("point", VPoint (Fitter.result (FitThread.fitclass self) k).1);
        ("value", VFloat (Fitter.result (FitThread.fitclass self) k).2);
        ("info", VStr (Fitter.report (FitThread.fitclass self) k))].

(** What the loop over [monitors] after the fit adds to the log, for the
    chain of [run] in the state the fit left it in. *)
Definition finals_log (c : ConvergenceMonitor.t) (d : DreamMonitor.t P U)
    (w : World P U) : list action :=
  (if TimedUpdate_has_final then [Final GuiId] else [])
  ++ [Final ConvId; Put Progress (convergence_event c); Wake Progress;
      Final DreamId]
  ++ match DreamMonitor.uncertainty_state d with
     | Some st =>
         [Put Progress (uncertainty_event "uncertainty_final"
                          (DreamMonitor.problem d) (fresh (dom (states w))));
          Wake Progress]
     | None => []
     end.

(** The monitors of [run] that have a [final], in chain order. *)
Definition final_ids : list monitor_id :=
  (if TimedUpdate_has_final then [GuiId] else []) ++ [ConvId; DreamId].
End RunVocabulary.

Section LoopVocabulary.
Context {P U : Type}.

(** A step of the fitter that neither raises nor makes the convergence
    monitor raise. *)
Definition step_ok (st : Fitter.Step P U) : Prop :=
  match st with
  | Fitter.Iterate it =>
      exists row, ConvergenceMonitor.sample (Fitter.history it) = inr row
  | Fitter.Throw _ => False
  end.

(** The log grows, and by no [convergence_update] event. *)
Definition quiet_step : relation (World P U) :=
  fun w w' => exists d, log w' = log w ++ d /\ convergence_updates d = [].

(** The iterations among [steps], in order. *)
Definition iterations (steps : list (Fitter.Step P U))
    : list (Fitter.Iteration P U) :=
  omap (fun st => match st with
                  | Fitter.Iterate it => Some it
                  | Fitter.Throw _ => None
                  end) steps.

(** What the iterations [its], one after the other, make of the contents
    [v] of the problem object that the driver works on. *)
Definition worked (its : list (Fitter.Iteration P U)) (v : P) : P :=
  foldl (fun v it => Fitter.on_problem it v) v its.
End LoopVocabulary.

Section ChainVocabulary.
Context {P U : Type} `{!Inhabited P, !Inhabited U, !Externals P}.

(** The chain keeps its shape: three monitors of the three kinds, with the
    rate, message and problem they were constructed with. *)
Definition same_chain (ms ms' : list (Monitor P U)) : Prop :=
  Forall2 (fun m m' =>
             match m, m' with
             | MGui _, MGui _ => True
             | MConv c, MConv c' =>
                 ConvergenceMonitor.rate c' = ConvergenceMonitor.rate c
                 /\ ConvergenceMonitor.message c' = ConvergenceMonitor.message c
             | MDream d, MDream d' =>
                 DreamMonitor.problem d' = DreamMonitor.problem d
             | _, _ => False
             end) ms ms'.

(** A monitor that never publishes [convergence_update] from a call. *)
Definition quiet (m : Monitor P U) : Prop :=
  match m with
  | MConv c => Float64.gtb (ConvergenceMonitor.rate c) Float64.zero = false
  | _ => True
  end.
End ChainVocabulary.

Section Observation.
Context {P U : Type}.
Local Abbreviation M := (M P U).

(** A monitor shown the histories [hs] one after the other. *)
Fixpoint calls {A} (call : A -> History.t -> M A) (self : A)
    (hs : list History.t) : M A :=
  match hs with
  | [] => ret self
  | h :: hs' => self' <- call self h ;; calls call self' hs'
  end.

(** A monitor is called once per iteration, each time in the world that the
    optimiser and the other monitors have left: [obs] lists, in order, the
    world and the history of each call. The result is the trajectory times
    [history.time[0]] of those calls that published something. *)
Fixpoint emission_times {A} (call : A -> History.t -> M A) (self : A)
    (obs : list (World P U * History.t)) : list spec_float :=
  match obs with
  | [] => []
  | (w, h) :: obs' =>
      match call self h w with
      | Returns self' w' =>
          (if Nat.ltb (length (log w)) (length (log w'))
           then [History.time h] else [])
          ++ emission_times call self' obs'
      | Raises _ _ => []
      end
  end.

(** Whatever the outcome of [m], the world it leaves is related by [R] to
    the world it started in. *)
Definition preserves {A} (R : relation (World P U)) (m : M A) : Prop :=
  forall w, R w (world_of (m w)).

(** The step relation of everything that runs between the start of the
    fit and the completion event: the log grows by a [loop_trace], and the
    only problem object that may change is the one at [l]. *)
Definition chain_step (l : loc) : relation (World P U) :=
  fun w w' =>
    (exists d, log w' = log w ++ d /\ loop_trace d) /\
    (exists f, problems w' = alter f l (problems w)).
End Observation.

(** ** Vocabulary of the further properties of the monitors *)

(** An action that, when it publishes an event with a [problem] entry,
    refers to the problem object [p]. *)
Definition names_problem (p : loc) (a : action) : Prop :=
  match a with
  | Put _ e =>
      match e !! "problem" with
      | Some v => v = VProblem p
      | None => True
      end
  | _ => True
  end.

Section HeapVocabulary.
Context {P U : Type}.

(** Nothing that was in the world is written to or removed: the problem
    objects are as they were, and every array and every sampler state that
    existed is still there with the contents it had. *)
Definition heap_kept : relation (World P U) :=
  fun w w' =>
    problems w' = problems w
    /\ arrays w ⊆ arrays w'
    /\ states w ⊆ states w'.

(** The log grows, and only by actions that name the problem [p]. *)
Definition about_problem (p : loc) : relation (World P U) :=
  fun w w' => exists d, log w' = log w ++ d /\ Forall (names_problem p) d.

(** The histories of the iterations among [steps], in order. *)
Definition shown (steps : list (Fitter.Step P U)) : list History.t :=
  omap (fun st => match st with
                  | Fitter.Iterate it => Some (Fitter.history it)
                  | Fitter.Throw _ => None
                  end) steps.
End HeapVocabulary.

Section ProblemVocabulary.
Context {P U : Type} `{!Inhabited P, !Inhabited U, !Externals P}.

(** [M.problem] *)
Definition Monitor_problem (m : Monitor P U) : loc :=
  match m with
  | MGui g => GUIProgressMonitor.problem g
  | MConv c => ConvergenceMonitor.problem c
  | MDream d => DreamMonitor.problem d
  end.
End ProblemVocabulary.

(** ** The traces a monitor asks the history to keep

    [config_history] of a monitor, as the calls
    [history.requires(name=length, ...)] it makes, in order. *)
Module config_history.
Definition ConvergenceMonitor : list (list (string * nat)) :=
  [[("population_values", 1%nat); ("value", 1%nat)]; [("time", 1%nat)]].
Definition DreamMonitor : list (list (string * nat)) :=
  [[("time", 1%nat)]].
End config_history.

(** The names of the traces that a list of [requires] calls asks for. *)
Definition required (calls : list (list (string * nat))) : list string :=
  concat (map (map fst) calls).

(** The current entry [history.<name>[0]] of a trace, by name. *)
Inductive trace_entry :=
| EStep (k : Z)
| EValue (v : Q)
| EPoint (l : loc)
| EPopulation (p : option (list Q))
| ETime (t : spec_float).

Definition trace (name : string) (h : History.t) : option trace_entry :=
  if String.eqb name "step" then Some (EStep (History.step h))
  else if String.eqb name "value" then Some (EValue (History.value h))
  else if String.eqb name "point" then Some (EPoint (History.point h))
  else if String.eqb name "population_values"
       then Some (EPopulation (History.population_values h))
  else if String.eqb name "time" then Some (ETime (History.time h))
  else None.

(** Two histories whose traces [names] have the same current entry. *)
Definition agree_on (names : list string) (h h' : History.t) : Prop :=
  Forall (fun name => trace name h = trace name h') names.

(** * bumps.util: the context managers and the import helper

    A shallow embedding of the classes [redirect_console],
    [push_python_path], [pushdir] and [push_seed], of [relative_import] and
    of the field selection of [schema] in [src/bumps/util.py]. Each of them
    acts on one part of the state of the Python process; code that runs in
    that part is written in a state and exception monad over it. *)

Module Util.

Inductive pyexc :=
| PyIndexError
| PyAttributeError
| PyOSError
| PyImportError (msg : string)
| PyValueError (msg : string)
| PyKeyError (key : string)
| PyException (msg : string).

Section IO.
Context {S : Type}.

(** A raised exception keeps the state as it was when it was raised. *)
Inductive result (A : Type) :=
| Done (a : A) (s : S)
| Failed (e : pyexc) (s : S).

Definition IO (A : Type) : Type := S -> result A.

End IO.

Arguments result S A : clear implicits.
Arguments IO S A : clear implicits.
Arguments Done {S A} a s.
Arguments Failed {S A} e s.

Section Monad.
Context {S : Type}.

Definition io_ret {A} (a : A) : IO S A := fun s => Done a s.
Definition io_raise {A} (e : pyexc) : IO S A := fun s => Failed e s.
Definition io_bind {A B} (m : IO S A) (k : A -> IO S B) : IO S B :=
  fun s => match m s with
           | Done a s' => k a s'
           | Failed e s' => Failed e s'
           end.

Definition state_of {A} (r : result S A) : S :=
  match r with Done _ s | Failed _ s => s end.

(** Python's [with manager as v: body]. [enter] is [manager.__enter__()];
    [exit] is [manager.__exit__(...)], called whether the body returns or
    raises, and its value here is the truth value of what it returns: a
    true value swallows the exception of the body. The statement has no
    value of its own; the value of the body is kept to state what the body
    did, [None] when its exception was swallowed. *)
Definition with_ {V A} (enter : IO S V) (exit : IO S bool)
    (body : V -> IO S A) : IO S (option A) :=
  fun s =>
    match enter s with
    | Failed e s1 => Failed e s1
    | Done v s1 =>
        match body v s1 with
        | Done a s2 =>
            match exit s2 with
            | Done _ s3 => Done (Some a) s3
            | Failed e s3 => Failed e s3
            end
        | Failed e s2 =>
            match exit s2 with
            | Done suppress s3 => if suppress then Done None s3 else Failed e s3
            | Failed e' s3 => Failed e' s3
            end
        end
    end.

(** Code that acts on the process state, run next to an object [X] that it
    has no reference to. *)
Definition beside {X A} (m : IO S A) : IO (S * X) A :=
  fun sx => match m sx.1 with
            | Done a s' => Done a (s', sx.2)
            | Failed e s' => Failed e (s', sx.2)
            end.
End Monad.

(** ** push_python_path: acts on [sys.path] *)

Module push_python_path.

Record t := { path : string }.

Definition init (path : string) : t := {| path := path |}.

(** [sys.path.append(self.path)]; the method returns [None]. *)
Definition enter (self : t) : IO (list string) unit :=
  fun sys_path => Done tt (sys_path ++ [path self]).

(** [del sys.path[-1]]; the method returns [None], which is false. *)
Definition exit (self : t) : IO (list string) bool :=
  fun sys_path =>
    match sys_path with
    | [] => Failed PyIndexError sys_path
    | _ :: _ => Done false (removelast sys_path)
    end.

End push_python_path.

(** ** pushdir: acts on the working directory *)

Module pushdir.

(** The working directory and the directories that exist. *)
Record Dirs := { cwd : string; directories : gset string }.

(** [os.chdir(d)] raises [OSError] unless [d] is a directory. *)
Definition chdir (d : string) : IO Dirs unit :=
  fun os =>
    if decide (d ∈ directories os)
    then Done tt {| cwd := d; directories := directories os |}
    else Failed PyOSError os.

(** The manager object; [_cwd] is unset until [__enter__] runs. *)
Record t := { path : string; _cwd : option string }.

Section Methods.
(** [os.path.abspath(path)], which depends on the working directory. *)
Variable abspath : string -> string -> string.

Definition init (path : string) : IO Dirs t :=
  fun os => Done {| path := abspath (cwd os) path; _cwd := None |} os.
End Methods.

(** [self._cwd = os.getcwd(); os.chdir(self.path)], on the process state
    and the manager object. *)
Definition enter : IO (Dirs * t) unit :=
  fun '(os, self) =>
    let self := {| path := path self; _cwd := Some (cwd os) |} in
    match chdir (path self) os with
    | Done _ os' => Done tt (os', self)
    | Failed e os' => Failed e (os', self)
    end.

(** [os.chdir(self._cwd)]; the method returns [None]. *)
Definition exit : IO (Dirs * t) bool :=
  fun '(os, self) =>
    match _cwd self with
    | None => Failed PyAttributeError (os, self)
    | Some d =>
        match chdir d os with
        | Done _ os' => Done false (os', self)
        | Failed e os' => Failed e (os', self)
        end
    end.

End pushdir.

(** ** push_seed: acts on the state of numpy's global generator *)

Module push_seed.
Section Methods.
Context {G : Type}.
(** The state that [np.random.seed(seed)] sets for an int [seed]. A seed
    of [None], which draws from the operating system, is not modelled. *)
Variable seeded : Z -> G.

Record t := { _state : G }.

(** [self._state = np.random.get_state(); np.random.seed(seed)] *)
Definition init (seed : Z) : IO G t :=
  fun g => Done {| _state := g |} (seeded seed).

Definition enter (self : t) : IO G unit := fun g => Done tt g.

(** [np.random.set_state(self._state)]; the method returns [None]. *)
Definition exit (self : t) : IO G bool := fun g => Done false (_state self).
End Methods.
Arguments t G : clear implicits.
End push_seed.

(** ** redirect_console: acts on [sys.stdout] and [sys.stderr] *)

(** File objects are references; [written] holds, for every file object
    that was created, the text written to it so far. *)
Module Sys.
Record console := {
  stdout : positive;
  stderr : positive;
  written : gmap positive string;
}.
End Sys.

Module redirect_console.

Definition fileobj := positive.

(** What the caller passes for [stdout] and [stderr]: [None], an object
    with a [write] attribute, or a file name. *)
Inductive arg :=
| ANone
| AFile (f : fileobj)
| AName (name : string).

Record t := {
  open_files : list fileobj;
  sys_stdout : list fileobj;
  sys_stderr : list fileobj;
  stdout : fileobj;
  stderr : fileobj;
}.

(** A new, empty file object. *)
Definition new_file : IO Sys.console fileobj :=
  fun c =>
    let f := fresh (dom (Sys.written c)) in
    Done f {| Sys.stdout := Sys.stdout c; Sys.stderr := Sys.stderr c;
              Sys.written := <[f := ""]> (Sys.written c) |}.

Definition StringIO : IO Sys.console fileobj := new_file.

Section Methods.
(** Whether [open(name, 'w')] succeeds. *)
Variable writable : string -> bool.

Definition open_w (name : string) : IO Sys.console fileobj :=
  fun c => if writable name then new_file c else Failed PyOSError c.

Definition init (stdout stderr : arg) : IO Sys.console t :=
  io_bind
    match stdout with
    | ANone => io_bind StringIO (fun f => io_ret ([f], f))
    | AFile f => io_ret ([], f)
    | AName name => io_bind (open_w name) (fun f => io_ret ([f], f))
    end
    (fun '(open_files, self_stdout) =>
  io_bind
    match stderr with
    | ANone => io_ret (open_files, self_stdout)
    | AFile f => io_ret (open_files, f)
    | AName name =>
        io_bind (open_w name) (fun f => io_ret (open_files ++ [f], f))
    end
    (fun '(open_files, self_stderr) =>
  io_ret {| open_files := open_files; sys_stdout := []; sys_stderr := [];
            stdout := self_stdout; stderr := self_stderr |})).
End Methods.

(** The streams are redirected before [self.open_files[-1]] is read, so an
    [IndexError] there leaves them redirected. *)
Definition enter : IO (Sys.console * t) fileobj :=
  fun '(c, self) =>
    let self := {| open_files := open_files self;
                   sys_stdout := sys_stdout self ++ [Sys.stdout c];
                   sys_stderr := sys_stderr self ++ [Sys.stderr c];
                   stdout := stdout self; stderr := stderr self |} in
    let c := {| Sys.stdout := stdout self; Sys.stderr := stderr self;
                Sys.written := Sys.written c |} in
    match last (open_files self) with
    | Some f => Done f (c, self)
    | None => Failed PyIndexError (c, self)
    end.

(** The method returns [False]. *)
Definition exit : IO (Sys.console * t) bool :=
  fun '(c, self) =>
    match last (sys_stdout self) with
    | None => Failed PyIndexError (c, self)
    | Some out =>
        let c := {| Sys.stdout := out; Sys.stderr := Sys.stderr c;
                    Sys.written := Sys.written c |} in
        match last (sys_stderr self) with
        | None => Failed PyIndexError (c, self)
        | Some err =>
            Done false
              ({| Sys.stdout := out; Sys.stderr := err;
                  Sys.written := Sys.written c |},
               {| open_files := open_files self;
                  sys_stdout := removelast (sys_stdout self);
                  sys_stderr := removelast (sys_stderr self);
                  stdout := stdout self; stderr := stderr self |})
        end
    end.

(** [sys.stdout.write(text)], what [print] does. *)
Definition write_stdout (text : string) : IO Sys.console unit :=
  fun c =>
    match Sys.written c !! Sys.stdout c with
    | Some old =>
        Done tt {| Sys.stdout := Sys.stdout c; Sys.stderr := Sys.stderr c;
                   Sys.written :=
                     <[Sys.stdout c := String.append old text]> (Sys.written c) |}
    | None => Failed (PyValueError "I/O operation on closed file") c
    end.


End redirect_console.

(** ** relative_import: acts on [sys.modules] *)

Inductive module_obj :=
| DynamicPackage (path : string)
| OtherModule.

Section RelativeImport.
(** [os.path.dirname(os.path.abspath(filename))] *)
Variable dirname_abspath : string -> string.

Definition relative_import (filename package : string)
    : IO (gmap string module_obj) string :=
  fun sys_modules =>
    let path := dirname_abspath filename in
    match sys_modules !! package with
    | Some OtherModule =>
        Failed (PyImportError
                  (String.append
                     "relative import would override the existing package "
                     (String.append package ". Use another name")))
               sys_modules
    | _ => Done package (<[package := DynamicPackage path]> sys_modules)
    end.
End RelativeImport.

(** ** schema: the fields of the dataclass it builds *)

Module schema.
Section Fields.
(** The annotations; [Literal name] is [Literal[name]]. *)
Context {T : Type}.
Variable Literal : string -> T.

(** A dict with string keys, as the list of its items in insertion
    order. *)
Definition pydict := list (string * T).

(** [d[k]] *)
Fixpoint getitem (d : pydict) (k : string) : option T :=
  match d with
  | [] => None
  | (k', v) :: d' => if String.eqb k' k then Some v else getitem d' k
  end.

(** [d[k] = v]: a key that is there keeps its place. *)
Fixpoint setitem (d : pydict) (k : string) (v : T) : pydict :=
  match d with
  | [] => [(k, v)]
  | (k', v') :: d' =>
      if String.eqb k' k then (k', v) :: d' else (k', v') :: setitem d' k v
  end.

(** [dict(pairs)] *)
Definition dict_of (pairs : list (string * T)) : pydict :=
  foldl (fun d kv => setitem d kv.1 kv.2) [] pairs.

(** [d.pop(k, None)] *)
Definition pop (d : pydict) (k : string) : pydict :=
  List.filter (fun kv => negb (String.eqb kv.1 k)) d.

(** [k.startswith('_')] *)
Definition startswith_underscore (k : string) : bool := String.prefix "_" k.

(** [[(k, all_annotations[k]) for k in include]]: the first key that is
    missing raises [KeyError]. *)
Fixpoint included (all_annotations : pydict) (include : list string)
    : pyexc + list (string * T) :=
  match include with
  | [] => inr []
  | k :: rest =>
      match getitem all_annotations k with
      | None => inl (PyKeyError k)
      | Some v =>
          match included all_annotations rest with
          | inl e => inl e
          | inr pairs => inr ((k, v) :: pairs)
          end
      end
  end.

(** The annotations that [set_dataclass] hands to [dataclass] for a class
    called [name]: [field_annotations] at the time [dataclass] is applied. *)
Definition field_annotations (name : string) (all_annotations : pydict)
    (include exclude : option (list string)) : pyexc + pydict :=
  let selected :=
    match include, exclude with
    | Some _, Some _ =>
        inl (PyValueError
               "include array and exclude array are mutually exclusive - only define one")
    | Some include, None =>
        match included all_annotations include with
        | inl e => inl e
        | inr pairs => inr (dict_of pairs)
        end
    | None, Some exclude =>
        inr (dict_of
               (List.filter
                  (fun kv => negb (bool_decide (kv.1 ∈ exclude)))
                  all_annotations))
    | None, None =>
        inr (dict_of
               (List.filter (fun kv => negb (startswith_underscore kv.1))
                            all_annotations))
    end in
  match selected with
  | inl e => inl e
  | inr d => inr (setitem (pop d "type") "type" (Literal name))
  end.
End Fields.
End schema.

End Util.

(** * Properties *)

(** ** binary64: the quantile indices are the integer quotients *)

Section Binary64.
Local Open Scope Z_scope.

Lemma digits2_pos_bounds (p : positive) :
  2 ^ (Zpos (digits2_pos p) - 1) <= Zpos p < 2 ^ Zpos (digits2_pos p).
Proof.
  induction p as [p IH|p IH|]; simpl digits2_pos.
  - rewrite Pos2Z.inj_succ.
    replace (Z.succ (Zpos (digits2_pos p)) - 1)
      with (Z.succ (Zpos (digits2_pos p) - 1)) by lia.
    rewrite !Z.pow_succ_r by lia. lia.
  - rewrite Pos2Z.inj_succ.
    replace (Z.succ (Zpos (digits2_pos p)) - 1)
      with (Z.succ (Zpos (digits2_pos p) - 1)) by lia.
    rewrite !Z.pow_succ_r by lia. lia.
  - simpl. lia.
Qed.

Lemma digits2_pos_unique (p : positive) (k : Z) :
  2 ^ (k - 1) <= Zpos p < 2 ^ k -> Zpos (digits2_pos p) = k.
Proof.
  intros [Hlo Hhi]. pose proof (digits2_pos_bounds p) as [Dlo Dhi].
  set (d := Zpos (digits2_pos p)) in *.
  assert (0 < d) by (subst d; lia).
  destruct (Z.lt_trichotomy d k) as [Hlt|[Heq|Hgt]]; [|done|].
  - assert (2 ^ d <= 2 ^ (k - 1)) by (apply Z.pow_le_mono_r; lia). lia.
  - assert (0 <= k).
    { destruct (Z.le_gt_cases 0 k); [done|].
      rewrite Z.pow_neg_r in Hhi by lia. lia. }
    assert (2 ^ k <= 2 ^ (d - 1)) by (apply Z.pow_le_mono_r; lia). lia.
Qed.

Lemma shr_1_m (mrs : shr_record) :
  0 <= shr_m mrs -> shr_m (shr_1 mrs) = shr_m mrs / 2.
Proof.
  destruct mrs as [[|[p|p|]|p] r s]; simpl; intros H; try lia; try done.
  - rewrite Pos2Z.inj_xI. apply Z.div_unique with 1; lia.
  - rewrite Pos2Z.inj_xO. apply Z.div_unique with 0; lia.
Qed.

Lemma iter_shr_1_m (p : positive) :
  forall mrs, 0 <= shr_m mrs ->
    shr_m (SpecFloat.iter_pos shr_1 p mrs) = shr_m mrs / 2 ^ Zpos p.
Proof.
  induction p as [p IH|p IH|]; intros mrs H; simpl SpecFloat.iter_pos.
  - assert (0 <= shr_m (shr_1 mrs))
      by (rewrite shr_1_m by done; apply Z.div_pos; lia).
    assert (0 <= shr_m (SpecFloat.iter_pos shr_1 p (shr_1 mrs)))
      by (rewrite IH by done; apply Z.div_pos; lia).
    rewrite !IH, shr_1_m by done.
    rewrite !Z.div_div by lia. f_equal.
    rewrite Pos2Z.inj_xI, Z.pow_add_r, Z.pow_mul_r by lia.
    change (2 ^ 2) with 4. change (2 ^ 1) with 2.
    replace (4 ^ Zpos p) with (2 ^ Zpos p * 2 ^ Zpos p). lia.
    rewrite <- Z.pow_add_r by lia.
    replace (Zpos p + Zpos p) with (2 * Zpos p) by lia.
    by rewrite Z.pow_mul_r by lia.
  - assert (0 <= shr_m (SpecFloat.iter_pos shr_1 p mrs))
      by (rewrite IH by done; apply Z.div_pos; lia).
    rewrite !IH by done. rewrite Z.div_div by lia. f_equal.
    rewrite Pos2Z.inj_xO. rewrite <- Z.pow_add_r by lia. f_equal. lia.
  - rewrite shr_1_m by done. reflexivity.
Qed.

Lemma iter_xO (p k : positive) : Zpos (Pos.iter xO p k) = Zpos p * 2 ^ Zpos k.
Proof.
  induction k as [|k IH] using Pos.peano_ind.
  - simpl. lia.
  - rewrite Pos.iter_succ, Pos2Z.inj_xO, IH, Pos2Z.inj_succ, Z.pow_succ_r by lia.
    lia.
Qed.

Lemma round_nearest_even_cases (m : Z) (l : location) :
  round_nearest_even m l = m \/ round_nearest_even m l = m + 1.
Proof. destruct l as [|[]]; simpl; auto. destruct (Z.even m); auto. Qed.

(** Rounding a positive mantissa that has more than 53 bits: the result is
    the mantissa shifted down to 53 bits, or one more; when that carries
    into a 54th bit, the result is shifted once more. *)
Lemma binary_round_aux_long (m : positive) (e : Z) :
  let s := Zpos (digits2_pos m) - 53 in
  0 < s -> -1074 <= e + s -> e + s + 1 <= 971 ->
  exists delta u m2,
    0 <= delta <= 1 /\ 0 <= u <= 1
    /\ binary_round_aux 53 1024 false (Zpos m) e loc_Exact
       = S754_finite false m2 (e + s + u)
    /\ Zpos m2 * 2 ^ u = Zpos m / 2 ^ s + delta.
Proof.
  intros s Hs Hlo Hhi. pose proof (digits2_pos_bounds m) as [Dlo Dhi].
  set (d := Zpos (digits2_pos m)) in *.
  assert (s = d - 53) as Hsd by reflexivity.
  assert (d = Zpos (digits2_pos m)) as Hdm by reflexivity.
  clearbody s. clearbody d.
  assert (2 ^ d = 2 ^ 53 * 2 ^ s) as Hd.
  { rewrite <- Z.pow_add_r by lia. f_equal. lia. }
  assert (2 ^ (d - 1) = 2 ^ 52 * 2 ^ s) as Hd1.
  { rewrite <- Z.pow_add_r by lia. f_equal. lia. }
  assert (0 < 2 ^ s) as Hpow by (apply Z.pow_pos_nonneg; lia).
  change (2 ^ 53) with 9007199254740992 in *.
  change (2 ^ 52) with 4503599627370496 in *.
  assert (4503599627370496 <= Zpos m / 2 ^ s < 9007199254740992) as Hq.
  { rewrite Hd in Dhi. rewrite Hd1 in Dlo. clear Hd Hd1.
    set (X := 2 ^ s) in *. clearbody X. split.
    - apply Z.div_le_lower_bound; lia.
    - apply Z.div_lt_upper_bound; lia. }
  set (q := Zpos m / 2 ^ s) in *.
  unfold binary_round_aux, shr_fexp, fexp, emin. simpl Zdigits2. rewrite <- Hdm.
  replace (Z.max (d + e - 53) (3 - 1024 - 53) - e) with s by lia.
  unfold shr at 1. destruct s as [|ps|ps]; [lia| |lia].
  set (mrs := SpecFloat.iter_pos shr_1 ps _).
  assert (shr_m mrs = q) as Hm.
  { unfold mrs. rewrite iter_shr_1_m by (simpl; lia). reflexivity. }
  rewrite Hm.
  set (m1 := round_nearest_even q (loc_of_shr_record mrs)).
  assert (m1 = q \/ m1 = q + 1) as Hm1 by apply round_nearest_even_cases.
  assert (0 < m1) by lia.
  destruct m1 as [|pm1|pm1] eqn:Em1; [lia| |lia].
  simpl Zdigits2. simpl shr_record_of_loc.
  destruct (Z.eq_dec (Zpos pm1) 9007199254740992) as [Hcarry|Hnc].
  - assert (Zpos (digits2_pos pm1) = 54) as ->.
    { apply digits2_pos_unique. rewrite Hcarry. by vm_compute. }
    replace (Z.max (54 + (e + Zpos ps) - 53) (3 - 1024 - 53) - (e + Zpos ps))
      with 1 by lia.
    injection Hcarry as ->. simpl.
    destruct (Z.leb_spec (e + Zpos ps + 1) (1024 - 53)); [|lia].
    exists 1, 1, 4503599627370496%positive. repeat split; try lia.
  - assert (Zpos (digits2_pos pm1) = 53) as ->.
    { apply digits2_pos_unique.
      change (2 ^ (53 - 1)) with 4503599627370496.
      change (2 ^ 53) with 9007199254740992. lia. }
    replace (Z.max (53 + (e + Zpos ps) - 53) (3 - 1024 - 53) - (e + Zpos ps))
      with 0 by lia.
    simpl. destruct (Z.leb_spec (e + Zpos ps) (1024 - 53)); [|lia].
    exists (Zpos pm1 - q), 0, pm1. rewrite Z.add_0_r.
    repeat split; try lia.
Qed.

(** A mantissa of exactly 53 bits is kept as it is. *)
Lemma binary_round_aux_exact (m : positive) (e : Z) :
  Zpos (digits2_pos m) = 53 -> -1074 <= e <= 971 ->
  binary_round_aux 53 1024 false (Zpos m) e loc_Exact = S754_finite false m e.
Proof.
  intros Hd He. unfold binary_round_aux, shr_fexp, fexp, emin. simpl Zdigits2.
  rewrite Hd. replace (Z.max (53 + e - 53) (3 - 1024 - 53) - e) with 0 by lia.
  simpl. rewrite Hd.
  replace (Z.max (53 + e - 53) (3 - 1024 - 53) - e) with 0 by lia.
  simpl. destruct (Z.leb_spec e (1024 - 53)); [done|lia].
Qed.

(** [float(n)] for [0 < n < 2^52]: the mantissa is [n] shifted up to 53
    bits. *)
Lemma of_int_small (n : positive) :
  let j := 53 - Zpos (digits2_pos n) in
  Zpos n < 2 ^ 52 ->
  1 <= j <= 52
  /\ exists mz, Zpos mz = Zpos n * 2 ^ j
       /\ Zpos (digits2_pos mz) = 53
       /\ Float64.of_int (Zpos n) = S754_finite false mz (- j).
Proof.
  intros j Hn. pose proof (digits2_pos_bounds n) as [Dlo Dhi].
  assert (j = 53 - Zpos (digits2_pos n)) as Hj by reflexivity.
  set (d := Zpos (digits2_pos n)) in *.
  assert (d = Zpos (digits2_pos n)) as Hd by reflexivity.
  clearbody j d.
  assert (0 < d) by (rewrite Hd; lia).
  assert (d <= 52) as Hd52.
  { destruct (Z.le_gt_cases d 52); [done|].
    assert (2 ^ 52 <= 2 ^ (d - 1)) by (apply Z.pow_le_mono_r; lia). lia. }
  split; [lia|].
  destruct j as [|pj|pj] eqn:Ej; [lia| |lia].
  exists (Pos.iter xO n pj).
  assert (Zpos (Pos.iter xO n pj) = Zpos n * 2 ^ Zpos pj) as Hmz by apply iter_xO.
  assert (Zpos (digits2_pos (Pos.iter xO n pj)) = 53) as Hdz.
  { apply digits2_pos_unique. rewrite Hmz.
    replace (2 ^ (53 - 1)) with (2 ^ (d - 1) * 2 ^ Zpos pj)
      by (rewrite <- Z.pow_add_r by lia; f_equal; lia).
    replace (2 ^ 53) with (2 ^ d * 2 ^ Zpos pj)
      by (rewrite <- Z.pow_add_r by lia; f_equal; lia).
    assert (0 < 2 ^ Zpos pj) by (apply Z.pow_pos_nonneg; lia). nia. }
  split; [done|]. split; [done|].
  unfold Float64.of_int, binary_normalize, binary_round, shl_align, fexp, emin.
  rewrite <- Hd.
  replace (Z.max (d + 0 - Float64.prec) (3 - Float64.emax - Float64.prec) - 0)
    with (Zneg pj) by (unfold Float64.prec, Float64.emax; lia).
  replace (Z.max (d + 0 - Float64.prec) (3 - Float64.emax - Float64.prec))
    with (Zneg pj) by (unfold Float64.prec, Float64.emax; lia).
  apply binary_round_aux_exact; [done | lia].
Qed.

Lemma scaled_trunc (A K C H X Y T delta : Z) :
  0 < X -> 0 < Y -> 0 < T -> Y * T = C * X -> Y <= H * X ->
  K * C <= A -> A + H < (K + 1) * C -> 0 <= delta <= 1 ->
  (A * X / Y + delta) / T = K.
Proof.
  intros HX HY HT HYT HYH Hlo Hhi Hdelta.
  assert (K * T <= A * X / Y) as Hq1.
  { apply Z.div_le_lower_bound; [done|].
    replace (Y * (K * T)) with (K * C * X)
      by (transitivity (K * (Y * T)); [rewrite HYT|]; ring).
    apply Z.mul_le_mono_nonneg_r; lia. }
  assert (A * X / Y < (K + 1) * T - 1) as Hq2.
  { apply Z.div_lt_upper_bound; [done|].
    replace (Y * ((K + 1) * T - 1)) with ((K + 1) * C * X - Y)
      by (transitivity ((K + 1) * (Y * T) - Y); [rewrite HYT|]; ring).
    assert ((A + H) * X < (K + 1) * C * X)
      by (apply Z.mul_lt_mono_pos_r; lia).
    replace ((A + H) * X) with (A * X + H * X) in * by ring. lia. }
  symmetry. apply Z.div_unique with (A * X / Y + delta - K * T); lia.
Qed.

Lemma to_int_scaled (mc : positive) (ec S K : Z) (n : positive) :
  2 ^ 52 <= Zpos mc <= 2 ^ S -> 52 <= S <= 53 -> ec + S <= -1 -> -1074 <= ec ->
  Zpos n < 2 ^ 52 ->
  K * 2 ^ (- ec) <= Zpos mc * Zpos n ->
  Zpos mc * Zpos n + 2 ^ (S - 1) < (K + 1) * 2 ^ (- ec) ->
  Float64.to_int
    (Float64.mul (S754_finite false mc ec) (Float64.of_int (Zpos n)))
  = Some K.
Proof.
  intros [Hmc1 Hmc2] HS Hec1 Hec2 Hn Hlo Hhi.
  destruct (of_int_small n Hn) as (Hj & mz & Hmz & Hdz & ->).
  set (j := 53 - Zpos (digits2_pos n)) in *. clearbody j.
  pose proof (digits2_pos_bounds mz) as [Zlo Zhi]. rewrite Hdz in Zlo, Zhi.
  unfold Float64.mul, SFmul, Float64.prec, Float64.emax. simpl xorb.
  pose proof (digits2_pos_bounds (mc * mz)) as [Plo Phi].
  set (dP := Zpos (digits2_pos (mc * mz))) in *.
  assert (dP = Zpos (digits2_pos (mc * mz))) as HdP by reflexivity.
  clearbody dP. rewrite Pos2Z.inj_mul in Plo, Phi.
  assert (0 < dP) by (rewrite HdP; lia).
  assert (105 <= dP) as HdP1.
  { destruct (Z.le_gt_cases 105 dP); [done|].
    assert (2 ^ dP <= 2 ^ 104) by (apply Z.pow_le_mono_r; lia).
    assert (2 ^ 104 = 2 ^ 52 * 2 ^ (53 - 1)) by reflexivity. nia. }
  assert (dP <= S + 53) as HdP2.
  { destruct (Z.le_gt_cases dP (S + 53)); [done|].
    assert (2 ^ (S + 53) <= 2 ^ (dP - 1)) by (apply Z.pow_le_mono_r; lia).
    assert (2 ^ (S + 53) = 2 ^ S * 2 ^ 53) by (apply Z.pow_add_r; lia).
    assert (0 < 2 ^ S) by (apply Z.pow_pos_nonneg; lia). nia. }
  destruct (binary_round_aux_long (mc * mz) (ec + - j))
    as (delta & u & m2 & Hdelta & Hu & -> & Hm2);
    rewrite <- ?HdP; try lia.
  rewrite <- HdP in Hm2.
  set (s := dP - 53) in *. assert (s = dP - 53) as Hs by reflexivity.
  clearbody s.
  set (t := j - ec - s).
  assert (ec + - j + s + u = - (t - u)) as -> by (unfold t; lia).
  assert (1 <= t - u) by (unfold t; lia).
  unfold Float64.to_int. destruct (- (t - u)) as [|pk|pk] eqn:Ek; [lia|lia|].
  f_equal. rewrite Z.shiftr_div_pow2 by lia.
  replace (Zpos pk) with (t - u) by lia.
  assert (Zpos m2 / 2 ^ (t - u) = (Zpos m2 * 2 ^ u) / 2 ^ t) as ->.
  { replace (2 ^ t) with (2 ^ (t - u) * 2 ^ u)
      by (rewrite <- Z.pow_add_r by lia; f_equal; lia).
    rewrite Z.div_mul_cancel_r; [done| |];
      apply Z.pow_nonzero; lia. }
  rewrite Hm2, Pos2Z.inj_mul, Hmz.
  replace (Zpos mc * (Zpos n * 2 ^ j)) with (Zpos mc * Zpos n * 2 ^ j) by lia.
  apply scaled_trunc with (C := 2 ^ (- ec)) (H := 2 ^ (S - 1));
    try (apply Z.pow_pos_nonneg; lia); try done.
  - rewrite <- !Z.pow_add_r by (unfold t; lia). f_equal. unfold t. lia.
  - rewrite <- Z.pow_add_r by lia. apply Z.pow_le_mono_r; lia.
Qed.

(** [int(0.2*n)] is [n // 5] and [int(0.5*n)] is [n // 2] for every length
    below [2^52]. *)
Lemma int_of_0_2_times (n : Z) :
  0 <= n < 2 ^ 52 ->
  Float64.to_int (Float64.mul Float64.lit_0_2 (Float64.of_int n)) = Some (n / 5).
Proof.
  intros [Hn0 Hn]. destruct n as [|p|p]; [done| |lia].
  change (2 ^ 52) with 4503599627370496 in Hn.
  pose proof (Z.div_mod (Zpos p) 5 ltac:(lia)) as Hdiv.
  pose proof (Z.mod_pos_bound (Zpos p) 5 ltac:(lia)) as Hmod.
  apply to_int_scaled with (S := 53); try done.
  - change (2 ^ (- -55)) with 36028797018963968. lia.
  - change (2 ^ (- -55)) with 36028797018963968.
    change (2 ^ (53 - 1)) with 4503599627370496. lia.
Qed.

Lemma int_of_0_5_times (n : Z) :
  0 <= n < 2 ^ 52 ->
  Float64.to_int (Float64.mul Float64.lit_0_5 (Float64.of_int n)) = Some (n / 2).
Proof.
  intros [Hn0 Hn]. destruct n as [|p|p]; [done| |lia].
  change (2 ^ 52) with 4503599627370496 in Hn.
  pose proof (Z.div_mod (Zpos p) 2 ltac:(lia)) as Hdiv.
  pose proof (Z.mod_pos_bound (Zpos p) 2 ltac:(lia)) as Hmod.
  apply to_int_scaled with (S := 52); try done.
  - change (2 ^ (- -53)) with 9007199254740992. lia.
  - change (2 ^ (- -53)) with 9007199254740992.
    change (2 ^ (52 - 1)) with 2251799813685248. lia.
Qed.

End Binary64.

(** ** Traces *)

Lemma woken_app d1 d2 : woken d1 -> woken d2 -> woken (d1 ++ d2).
Proof. induction 1; intros; simpl; auto using woken. Qed.

Lemma published_app c d1 d2 :
  published c (d1 ++ d2) = published c d1 ++ published c d2.
Proof. apply omap_app. Qed.

Lemma finalized_app d1 d2 : finalized (d1 ++ d2) = finalized d1 ++ finalized d2.
Proof. apply omap_app. Qed.

Lemma loop_trace_nil : loop_trace [].
Proof. repeat split; constructor. Qed.

Lemma loop_trace_app d1 d2 :
  loop_trace d1 -> loop_trace d2 -> loop_trace (d1 ++ d2).
Proof.
  intros (W1 & C1 & F1) (W2 & C2 & F2). repeat split.
  - by apply woken_app.
  - by rewrite published_app, C1, C2.
  - by rewrite finalized_app, F1, F2.
Qed.

Lemma loop_trace_progress e : loop_trace [Put Progress e; Wake Progress].
Proof. repeat split; repeat constructor. Qed.

(** ** What a computation may do to the world *)

Section Steps.
Context {P U : Type}.
Local Abbreviation M := (M P U).

Lemma preserves_ret {A} (R : relation (World P U)) `{!Reflexive R} (a : A) :
  preserves R (ret a).
Proof. intros w. simpl. reflexivity. Qed.

Lemma preserves_raise {A} (R : relation (World P U)) `{!Reflexive R} e :
  preserves R (raise (A:=A) e).
Proof. intros w. simpl. reflexivity. Qed.

Lemma preserves_bind {A B} (R : relation (World P U)) `{!Transitive R}
    (m : M A) (k : A -> M B) :
  preserves R m -> (forall a, preserves R (k a)) -> preserves R (bind m k).
Proof.
  intros Hm Hk w. unfold bind. specialize (Hm w).
  destruct (m w) as [a w1|e w1]; simpl in *; [|done].
  etransitivity; [exact Hm | apply Hk].
Qed.

#[export] Instance chain_step_refl l : Reflexive (chain_step (P:=P) (U:=U) l).
Proof.
  intros w. split.
  - exists []. rewrite app_nil_r. auto using loop_trace_nil.
  - exists id. by rewrite alter_id.
Qed.

#[export] Instance chain_step_trans l : Transitive (chain_step (P:=P) (U:=U) l).
Proof.
  intros w1 w2 w3 [(d1 & E1 & T1) (f1 & F1)] [(d2 & E2 & T2) (f2 & F2)]. split.
  - exists (d1 ++ d2). rewrite E2, E1, app_assoc. auto using loop_trace_app.
  - exists (f2 ∘ f1). by rewrite F2, F1, alter_alter_eq.
Qed.

(** A computation that leaves problems and log alone. *)
Lemma chain_step_silent {A} l (m : M A) :
  (forall w, log (world_of (m w)) = log w /\
             problems (world_of (m w)) = problems w) ->
  preserves (chain_step (P:=P) (U:=U) l) m.
Proof.
  intros Hm w. destruct (Hm w) as [E1 E2]. split.
  - exists []. rewrite app_nil_r. auto using loop_trace_nil.
  - exists id. by rewrite alter_id.
Qed.

Lemma send_progress_eq (e : event) (w : World P U) :
  send_progress e w =
  Returns tt {| problems := problems w; arrays := arrays w; states := states w;
                log := log w ++ [Put Progress e; Wake Progress] |}.
Proof.
  unfold send_progress, put_nowait, write_to_self, bind, emit; simpl.
  by rewrite <- app_assoc.
Qed.

Lemma send_complete_eq (e : event) (w : World P U) :
  send_complete e w =
  Returns tt {| problems := problems w; arrays := arrays w; states := states w;
                log := log w ++ [Put Complete e; Wake Complete] |}.
Proof.
  unfold send_complete, put_nowait, write_to_self, bind, emit; simpl.
  by rewrite <- app_assoc.
Qed.

Lemma chain_step_send_progress l e :
  preserves (chain_step (P:=P) (U:=U) l) (send_progress e).
Proof.
  intros w. rewrite send_progress_eq. split; simpl.
  - eexists; split; [done | apply loop_trace_progress].
  - exists id. by rewrite alter_id.
Qed.
End Steps.

(** ** The chain only ever publishes on the progress channel, and leaves
       the problem objects alone *)

Section ChainSteps.
Context {P U : Type} `{!Inhabited P, !Inhabited U, !Externals P}.
Variable l : loc.

Ltac chain_steps :=
  repeat first
    [ apply chain_step_send_progress
    | apply preserves_ret; apply _
    | apply preserves_raise; apply _
    | by apply chain_step_silent
    | apply preserves_bind; [apply _ | | intros ?] ].

Lemma chain_step_show_progress (g : GUIProgressMonitor.t P) h :
  preserves (chain_step (P:=P) (U:=U) l) (GUIProgressMonitor.show_progress g h).
Proof.
  unfold GUIProgressMonitor.show_progress.
  apply preserves_bind; [apply _ | by apply chain_step_silent | intros w].
  destruct (nllf_scale _) as [scale err]. chain_steps.
Qed.

Lemma chain_step_show_improvement (g : GUIProgressMonitor.t P) h :
  preserves (chain_step (P:=P) (U:=U) l)
    (GUIProgressMonitor.show_improvement g h).
Proof. unfold GUIProgressMonitor.show_improvement. chain_steps. Qed.

Lemma chain_step_gui_call (g : GUIProgressMonitor.t P) h :
  preserves (chain_step (P:=P) (U:=U) l) (GUIProgressMonitor.call g h).
Proof.
  unfold GUIProgressMonitor.call.
  destruct (TimedUpdate_call _ _) as [[base' progress_due] improvement_due].
  apply preserves_bind; [apply _ | | intros _].
  { destruct progress_due; [apply chain_step_show_progress | chain_steps]. }
  apply preserves_bind; [apply _ | | intros _].
  { destruct improvement_due; [apply chain_step_show_improvement | chain_steps]. }
  chain_steps.
Qed.

Lemma chain_step_record_sample (c : ConvergenceMonitor.t) h :
  preserves (chain_step (P:=P) (U:=U) l) (ConvergenceMonitor.record_sample c h).
Proof.
  unfold ConvergenceMonitor.record_sample.
  destruct (ConvergenceMonitor.sample h); chain_steps.
Qed.

Lemma chain_step_conv_call (c : ConvergenceMonitor.t) h :
  preserves (chain_step (P:=P) (U:=U) l) (ConvergenceMonitor.call c h).
Proof.
  unfold ConvergenceMonitor.call.
  apply preserves_bind; [apply _ | apply chain_step_record_sample | intros c'].
  destruct (_ && _); chain_steps.
Qed.

Lemma chain_step_conv_final (c : ConvergenceMonitor.t) :
  preserves (chain_step (P:=P) (U:=U) l) (ConvergenceMonitor.final c).
Proof. apply chain_step_send_progress. Qed.

Lemma chain_step_dream_call (d : DreamMonitor.t P U) h :
  preserves (chain_step (P:=P) (U:=U) l) (DreamMonitor.call d h).
Proof.
  unfold DreamMonitor.call; simpl.
  destruct (History.uncertainty_state h) as [st|]; [|chain_steps].
  destruct (_ && _); chain_steps.
Qed.

Lemma chain_step_dream_final (d : DreamMonitor.t P U) :
  preserves (chain_step (P:=P) (U:=U) l) (DreamMonitor.final d).
Proof.
  unfold DreamMonitor.final.
  destruct (DreamMonitor.uncertainty_state d) as [st|]; chain_steps.
Qed.

Lemma chain_step_Monitor_call (m : Monitor P U) h :
  preserves (chain_step (P:=P) (U:=U) l) (Monitor_call m h).
Proof.
  destruct m; simpl;
    (apply preserves_bind; [apply _ | | intros ?; chain_steps]).
  - apply chain_step_gui_call.
  - apply chain_step_conv_call.
  - apply chain_step_dream_call.
Qed.

Lemma chain_step_call_all (ms : list (Monitor P U)) h :
  preserves (chain_step (P:=P) (U:=U) l) (call_all ms h).
Proof.
  induction ms as [|m ms IH]; simpl; [chain_steps|].
  apply preserves_bind; [apply _ | apply chain_step_Monitor_call | intros m'].
  apply preserves_bind; [apply _ | apply IH | intros ms'].
  chain_steps.
Qed.
End ChainSteps.

Section DriverSteps.
Context {P U : Type} `{!Inhabited P, !Inhabited U, !Externals P}.

Lemma chain_step_iterate (drv : FitDriver.t P U) it :
  preserves (chain_step (P:=P) (U:=U) (FitDriver.problem drv))
    (FitDriver.iterate drv it).
Proof.
  intros w. split; simpl.
  - exists []. rewrite app_nil_r. auto using loop_trace_nil.
  - by eexists.
Qed.

Lemma chain_step_fit_loop (drv : FitDriver.t P U) steps :
  forall k ms,
    preserves (chain_step (P:=P) (U:=U) (FitDriver.problem drv))
      (FitDriver.fit_loop drv steps k ms).
Proof.
  induction steps as [|[it|e] steps IH]; intros k ms; simpl.
  - apply preserves_ret, _.
  - apply preserves_bind; [apply _ | apply chain_step_iterate | intros _].
    apply preserves_bind; [apply _ | apply chain_step_call_all | intros ms'].
    destruct (FitDriver.abort_test drv k); [apply preserves_ret, _ | apply IH].
  - apply preserves_raise, _.
Qed.

Lemma chain_step_fit (drv : FitDriver.t P U) :
  preserves (chain_step (P:=P) (U:=U) (FitDriver.problem drv))
    (FitDriver.fit drv).
Proof.
  unfold FitDriver.fit.
  apply preserves_bind; [apply _ | apply chain_step_fit_loop | intros r].
  apply preserves_ret, _.
Qed.
End DriverSteps.

(** ** Events of the monitors *)

Section MonitorEvents.
Context {P U : Type} `{!Inhabited P, !Inhabited U, !Externals P}.

(** C9, as the code has it: [show_improvement] publishes one event whose
    keys are [problem], [message], [step], [value] and [point]. The point is
    a reference to an array allocated by this call, so it is none of the
    arrays that were live before (the history's buffer among them), and it
    holds what the history's buffer held at the time of the call. *)
Theorem show_improvement_event (self : GUIProgressMonitor.t P)
    (history : History.t) (w : World P U) :
  let pt := fresh (dom (arrays w)) in
  let evt := dict [("problem", VProblem (GUIProgressMonitor.problem self));
                   ("message", VStr "improvement");
                   ("step", VInt (History.step history));
                   ("value", VFloat (History.value history));
                   ("point", VPoint pt)] in
  GUIProgressMonitor.show_improvement self history w =
    Returns tt {| problems := problems w;
                  arrays := <[pt := arrays w !!! History.point history]> (arrays w);
                  states := states w;
                  log := log w ++ [Put Progress evt; Wake Progress] |}
  /\ (pt ∉ dom (arrays w))
  /\ dom evt = list_to_set ["problem"; "message"; "step"; "value"; "point"].
Proof.
  intros pt evt. split; [|split].
  - unfold GUIProgressMonitor.show_improvement, bind, copy_point.
    by rewrite send_progress_eq.
  - apply is_fresh.
  - unfold evt, dict. simpl. rewrite !dom_insert_L, dom_empty_L. set_solver.
Qed.

(** C10: [progress()] is the 0-by-1 array as long as nothing was recorded
    and the array of the recorded tuples otherwise, and [final()] always
    returns, publishing exactly one event that carries [self.message] and
    that array. *)
Theorem progress_and_final_well_formed :
  (forall problem message rate,
      ConvergenceMonitor.progress (ConvergenceMonitor.init problem message rate)
      = np_empty_0_1)
  /\ shape np_empty_0_1 = [0; 1]%nat
  /\ data np_empty_0_1 = []
  /\ (forall time rate problem message row rows,
        ConvergenceMonitor.progress
          {| ConvergenceMonitor.time := time; ConvergenceMonitor.rate := rate;
             ConvergenceMonitor.problem := problem;
             ConvergenceMonitor.message := message;
             ConvergenceMonitor.pop := row :: rows |}
        = np_array (row :: rows))
  /\ (forall self, data (ConvergenceMonitor.progress self)
                   = ConvergenceMonitor.pop self)
  /\ (forall (self : ConvergenceMonitor.t) (w : World P U),
        exists evt,
          ConvergenceMonitor.final self w =
            Returns tt {| problems := problems w; arrays := arrays w;
                          states := states w;
                          log := log w ++ [Put Progress evt; Wake Progress] |}
          /\ evt !! "message" = Some (VStr (ConvergenceMonitor.message self))
          /\ evt !! "pop" = Some (VNdarray (ConvergenceMonitor.progress self))).
Proof.
  repeat split.
  - intros [t r p m [|row rows]]; unfold ConvergenceMonitor.progress; simpl; [done|].
    by destruct (forallb _ _).
  - intros self w. eexists. unfold ConvergenceMonitor.final.
    rewrite send_progress_eq. split; [reflexivity|]. split; reflexivity.
Qed.

(** *** ConvergenceMonitor, one call at a time *)

Lemma conv_call_cases (self : ConvergenceMonitor.t) (h : History.t)
    (w : World P U) :
  match ConvergenceMonitor.sample h with
  | inl e => ConvergenceMonitor.call self h w = Raises e w
  | inr row =>
      let self1 := appended self row in
      if convergence_due self h then
        ConvergenceMonitor.call self h w =
        Returns {| ConvergenceMonitor.time := History.time h;
                   ConvergenceMonitor.rate := ConvergenceMonitor.rate self;
                   ConvergenceMonitor.problem := ConvergenceMonitor.problem self;
                   ConvergenceMonitor.message := ConvergenceMonitor.message self;
                   ConvergenceMonitor.pop := ConvergenceMonitor.pop self ++ [row] |}
                {| problems := problems w; arrays := arrays w; states := states w;
                   log := log w ++ [Put Progress (convergence_event self1);
                                    Wake Progress] |}
      else ConvergenceMonitor.call self h w = Returns self1 w
  end.
Proof.
  unfold ConvergenceMonitor.call, ConvergenceMonitor.record_sample, bind.
  destruct (ConvergenceMonitor.sample h) as [e|row]; [done|]. simpl.
  unfold convergence_due, cadence_due. simpl.
  destruct (_ && _); [|done].
  unfold ret. by rewrite <- app_assoc.
Qed.

Lemma progress_nonempty (self : ConvergenceMonitor.t) (row : list Q) :
  ConvergenceMonitor.progress (appended self row)
  = np_array (ConvergenceMonitor.pop self ++ [row]).
Proof.
  unfold ConvergenceMonitor.progress, appended; simpl.
  by destruct (ConvergenceMonitor.pop self).
Qed.

Lemma conv_calls_pop (hs : list History.t) :
  forall (c self : ConvergenceMonitor.t) (w0 w : World P U),
    calls ConvergenceMonitor.call c hs w0 = Returns self w ->
    exists rows,
      Forall2 (fun h row => ConvergenceMonitor.sample h = inr row) hs rows
      /\ ConvergenceMonitor.pop self = ConvergenceMonitor.pop c ++ rows
      /\ ConvergenceMonitor.message self = ConvergenceMonitor.message c
      /\ ConvergenceMonitor.rate self = ConvergenceMonitor.rate c
      /\ ConvergenceMonitor.problem self = ConvergenceMonitor.problem c.
Proof.
  induction hs as [|h hs IH]; intros c self w0 w Hrun; simpl in Hrun.
  - injection Hrun as <- <-. exists []. by rewrite app_nil_r.
  - unfold bind in Hrun. pose proof (conv_call_cases c h w0) as Hc.
    destruct (ConvergenceMonitor.sample h) as [e|row] eqn:Hs.
    { by rewrite Hc in Hrun. }
    simpl in Hc. destruct (convergence_due c h); rewrite Hc in Hrun;
      apply IH in Hrun as (rows & HF & Hp & Hm & Hr & Hl); simpl in *;
      exists (row :: rows); rewrite Hp, <- app_assoc; auto.
Qed.

(** C4: from its construction on, the monitor's sequence holds one tuple per
    history it was shown, in order; an event published by a further call
    carries the whole sequence including the tuple of that call, and the
    event of [final()] carries the whole sequence; a history without
    population values contributes the one-element tuple of its best value. *)
Theorem convergence_payload_accumulates (problem : loc) (message : string)
    (rate : spec_float) (hs : list History.t) (self : ConvergenceMonitor.t)
    (w0 w : World P U) :
  calls ConvergenceMonitor.call (ConvergenceMonitor.init problem message rate)
        hs w0 = Returns self w ->
  exists rows,
    Forall2 (fun h row => ConvergenceMonitor.sample h = inr row) hs rows
    /\ ConvergenceMonitor.pop self = rows
    /\ (forall h self' w',
          ConvergenceMonitor.call self h w = Returns self' w' ->
          exists row,
            ConvergenceMonitor.sample h = inr row
            /\ ConvergenceMonitor.pop self' = rows ++ [row]
            /\ (w' = w \/
                exists evt,
                  log w' = log w ++ [Put Progress evt; Wake Progress]
                  /\ evt !! "message" = Some (VStr message)
                  /\ evt !! "pop" = Some (VNdarray (np_array (rows ++ [row])))))
    /\ (exists evt,
          ConvergenceMonitor.final self w =
            Returns tt {| problems := problems w; arrays := arrays w;
                          states := states w;
                          log := log w ++ [Put Progress evt; Wake Progress] |}
          /\ evt !! "message" = Some (VStr message)
          /\ evt !! "pop" = Some (VNdarray (ConvergenceMonitor.progress self))
          /\ data (ConvergenceMonitor.progress self) = rows)
    /\ (forall h, History.population_values h = None ->
                  ConvergenceMonitor.sample h = inr [History.value h]).
Proof.
  intros Hrun. apply conv_calls_pop in Hrun as (rows & HF & Hp & Hm & _).
  simpl in Hp, Hm. exists rows. split; [done|]. split; [done|]. split; [|split].
  - intros h self' w' Hcall. pose proof (conv_call_cases self h w) as Hc.
    destruct (ConvergenceMonitor.sample h) as [e|row]; [by rewrite Hc in Hcall|].
    exists row. split; [done|]. simpl in Hc.
    destruct (convergence_due self h); rewrite Hc in Hcall;
      injection Hcall as <- <-; simpl; rewrite Hp; (split; [done|]).
    + right. eexists. split; [done|]. unfold convergence_event.
      rewrite progress_nonempty, Hp.
      cbn [appended ConvergenceMonitor.message ConvergenceMonitor.problem].
      rewrite Hm. split; reflexivity.
    + by left.
  - eexists. unfold ConvergenceMonitor.final. rewrite send_progress_eq.
    split; [done|]. rewrite <- Hm, <- Hp. repeat split.
    destruct self as [t r p m [|row rows']]; unfold ConvergenceMonitor.progress;
      simpl; [done|]. by destruct (forallb _ _).
  - intros h Hnone. unfold ConvergenceMonitor.sample. by rewrite Hnone.
Qed.

(** *** DreamMonitor, one call at a time *)

Lemma dream_call_cases (self : DreamMonitor.t P U) (h : History.t)
    (w : World P U) :
  match History.uncertainty_state h with
  | Some st =>
      if dream_due self h then
        let st' := fresh (dom (states w)) in
        DreamMonitor.call self h w =
        Returns {| DreamMonitor.time := History.time h;
                   DreamMonitor.rate := DreamMonitor.rate self;
                   DreamMonitor.problem := DreamMonitor.problem self;
                   DreamMonitor.fitter := DreamMonitor.fitter self;
                   DreamMonitor.message := DreamMonitor.message self;
                   DreamMonitor.uncertainty_state := Some st |}
                {| problems := problems w; arrays := arrays w;
                   states := <[st' := states w !!! st]> (states w);
                   log := log w ++
                     [Put Progress (uncertainty_event "uncertainty_update"
                                      (DreamMonitor.problem self) st');
                      Wake Progress] |}
      else DreamMonitor.call self h w = Returns (observed self (Some st)) w
  | None => DreamMonitor.call self h w = Returns (observed self None) w
  end.
Proof.
  unfold DreamMonitor.call, dream_due, cadence_due; simpl.
  destruct (History.uncertainty_state h) as [st|]; [|done].
  destruct (_ && _); [|done].
  unfold bind, deepcopy_state. by rewrite send_progress_eq.
Qed.

Lemma dream_final_cases (self : DreamMonitor.t P U) (w : World P U) :
  match DreamMonitor.uncertainty_state self with
  | Some st =>
      let st' := fresh (dom (states w)) in
      DreamMonitor.final self w =
      Returns tt {| problems := problems w; arrays := arrays w;
                    states := <[st' := states w !!! st]> (states w);
                    log := log w ++
                      [Put Progress (uncertainty_event "uncertainty_final"
                                       (DreamMonitor.problem self) st');
                       Wake Progress] |}
  | None => DreamMonitor.final self w = Returns tt w
  end.
Proof.
  unfold DreamMonitor.final.
  destruct (DreamMonitor.uncertainty_state self) as [st|]; [|done].
  unfold bind, deepcopy_state. by rewrite send_progress_eq.
Qed.

Lemma dream_calls_state (hs : list History.t) :
  forall (d self : DreamMonitor.t P U) (w0 w : World P U),
    calls DreamMonitor.call d hs w0 = Returns self w ->
    DreamMonitor.uncertainty_state self
    = match hs with [] => DreamMonitor.uncertainty_state d | _ => last_state hs end
    /\ DreamMonitor.problem self = DreamMonitor.problem d
    /\ (Forall (fun h => History.uncertainty_state h = None) hs -> w = w0).
Proof.
  induction hs as [|h hs IH]; intros d self w0 w Hrun; simpl in Hrun.
  - by injection Hrun as <- <-.
  - unfold bind in Hrun. pose proof (dream_call_cases d h w0) as Hc.
    assert (exists d1 w1, DreamMonitor.call d h w0 = Returns d1 w1
              /\ DreamMonitor.uncertainty_state d1 = History.uncertainty_state h
              /\ DreamMonitor.problem d1 = DreamMonitor.problem d
              /\ (History.uncertainty_state h = None -> w1 = w0))
      as (d1 & w1 & E & Hst & Hpb & Hw).
    { destruct (History.uncertainty_state h) as [st|];
        [destruct (dream_due d h)|]; simpl in Hc;
        eexists _, _; (split; [exact Hc|]); simpl; repeat split; done. }
    rewrite E in Hrun. apply IH in Hrun as (Hs & Hp & Hsilent).
    split; [|split].
    + rewrite Hs. destruct hs as [|h' hs']; [by rewrite Hst|].
      unfold last_state. by rewrite last_cons_cons.
    + by rewrite Hp.
    + intros HF. apply Forall_cons in HF as [Hh HF].
      rewrite Hsilent by done. auto.
Qed.

(** C5, as the code has it: what [final()] does depends on the history the
    monitor was shown last. If that history had an uncertainty state,
    [final()] publishes one [uncertainty_final] event with a fresh deep copy
    of it; if it had none, or the monitor was never called, [final()]
    publishes nothing. A job whose histories never have an uncertainty
    state leaves the world untouched. *)
Theorem dream_final_last_observation (problem : loc) (message : string)
    (fitter : Fitter.t P U) (rate : spec_float) (hs : list History.t)
    (self : DreamMonitor.t P U) (w0 w : World P U) :
  calls DreamMonitor.call (DreamMonitor.init problem message fitter rate)
        hs w0 = Returns self w ->
  DreamMonitor.uncertainty_state self = last_state hs
  /\ match last_state hs with
     | Some st =>
         let st' := fresh (dom (states w)) in
         DreamMonitor.final self w =
           Returns tt {| problems := problems w; arrays := arrays w;
                         states := <[st' := states w !!! st]> (states w);
                         log := log w ++
                           [Put Progress
                              (uncertainty_event "uncertainty_final" problem st');
                            Wake Progress] |}
         /\ (st' ∉ dom (states w))
     | None => DreamMonitor.final self w = Returns tt w
     end
  /\ (Forall (fun h => History.uncertainty_state h = None) hs ->
      w = w0 /\ DreamMonitor.final self w = Returns tt w).
Proof.
  intros Hrun. apply dream_calls_state in Hrun as (Hs & Hp & Hsilent).
  assert (DreamMonitor.uncertainty_state self = last_state hs) as Hlast.
  { rewrite Hs. by destruct hs. }
  pose proof (dream_final_cases self w) as Hf. rewrite Hlast, Hp in Hf.
  split; [done|]. split.
  - destruct (last_state hs) as [st|]; [|done]. split; [done | apply is_fresh].
  - intros HF. split; [auto|].
    assert (last_state hs = None) as Hnone.
    { unfold last_state. destruct (last hs) as [h|] eqn:El; [|done]. simpl.
      apply last_Some_elem_of in El.
      by apply (proj1 (Forall_forall _ _) HF). }
    by rewrite Hnone in Hf.
Qed.

(** *** Pacing of the emissions *)

Lemma paced_separated r t0 ts : paced r t0 ts -> separated r ts.
Proof.
  revert t0. induction ts as [|t1 [|t2 ts] IH]; intros t0 Hp; simpl; [done..|].
  destruct Hp as [_ Hp]. split; [apply Hp | by apply (IH t1)].
Qed.

Lemma ltb_length_app {A} (l d : list A) :
  Nat.ltb (length l) (length (l ++ d)) = negb (Nat.eqb (length d) 0).
Proof.
  rewrite length_app. destruct d; simpl.
  - rewrite Nat.add_0_r. apply Nat.ltb_irrefl.
  - apply Nat.ltb_lt. lia.
Qed.

Lemma due_elapsed (rate t0 t : spec_float) :
  cadence_due rate t0 t = true -> after_cadence rate t0 t.
Proof. intros H. by apply andb_true_iff in H. Qed.

Lemma conv_emissions_paced (obs : list (World P U * History.t)) :
  forall c : ConvergenceMonitor.t,
    paced (ConvergenceMonitor.rate c) (ConvergenceMonitor.time c)
          (emission_times ConvergenceMonitor.call c obs).
Proof.
  induction obs as [|[w h] obs IH]; intros c; simpl; [done|].
  pose proof (conv_call_cases c h w) as Hc.
  destruct (ConvergenceMonitor.sample h) as [e|row]; [by rewrite Hc|].
  simpl in Hc. destruct (convergence_due c h) eqn:Hdue; rewrite Hc.
  - cbn [log]. rewrite ltb_length_app. simpl. split.
    + by apply due_elapsed.
    + apply (IH {| ConvergenceMonitor.time := History.time h |}).
  - rewrite Nat.ltb_irrefl. simpl. apply (IH (appended c row)).
Qed.

Lemma dream_emissions_paced (obs : list (World P U * History.t)) :
  forall d : DreamMonitor.t P U,
    paced (DreamMonitor.rate d) (DreamMonitor.time d)
          (emission_times DreamMonitor.call d obs).
Proof.
  induction obs as [|[w h] obs IH]; intros d; simpl; [done|].
  pose proof (dream_call_cases d h w) as Hc.
  destruct (History.uncertainty_state h) as [st|].
  - destruct (dream_due d h) eqn:Hdue; simpl in Hc; rewrite Hc.
    + cbn [log]. rewrite ltb_length_app. simpl. split.
      * by apply due_elapsed.
      * apply (IH {| DreamMonitor.time := History.time h |}).
    + rewrite Nat.ltb_irrefl. simpl. apply (IH (observed d (Some st))).
  - rewrite Hc, Nat.ltb_irrefl. simpl. apply (IH (observed d None)).
Qed.

(** C6, as the code has it: a call publishes only when the rate is greater
    than zero and the trajectory time [history.time[0]] is at least the sum
    [self.time + self.rate] as the code computes it, in double precision,
    where [self.time] is the time of the last call that published. So the
    times of the calls that published, in order, each pass this condition at
    the one before, and the first passes it at the clock the monitor started
    with. This holds for [ConvergenceMonitor.__call__] and for
    [DreamMonitor.__call__], from any state of the monitor, over any
    sequence of histories and whatever happens to the world between the
    calls. The sum is rounded: the exact distance of two such times can be
    less than the rate. *)
Theorem emissions_respect_cadence (c : ConvergenceMonitor.t)
    (d : DreamMonitor.t P U) (obs : list (World P U * History.t)) :
  separated (ConvergenceMonitor.rate c)
            (emission_times ConvergenceMonitor.call c obs)
  /\ separated (DreamMonitor.rate d)
               (emission_times DreamMonitor.call d obs)
  /\ paced (ConvergenceMonitor.rate c) (ConvergenceMonitor.time c)
           (emission_times ConvergenceMonitor.call c obs)
  /\ paced (DreamMonitor.rate d) (DreamMonitor.time d)
           (emission_times DreamMonitor.call d obs).
Proof.
  split; [|split; [|split]].
  - eapply paced_separated, conv_emissions_paced.
  - eapply paced_separated, dream_emissions_paced.
  - apply conv_emissions_paced.
  - apply dream_emissions_paced.
Qed.

End MonitorEvents.

(** ** The monitors only read and copy *)

Section HeapSteps.
Context {P U : Type} `{!Inhabited P, !Inhabited U, !Externals P}.

#[local] Instance heap_kept_refl : Reflexive (heap_kept (P:=P) (U:=U)).
Proof. intros w. by repeat split. Qed.

#[local] Instance heap_kept_trans : Transitive (heap_kept (P:=P) (U:=U)).
Proof.
  intros w1 w2 w3 (Hp & Ha & Hs) (Hp' & Ha' & Hs').
  split; [congruence|]. split; etrans; eauto.
Qed.

Lemma heap_kept_send (e : event) :
  preserves (heap_kept (P:=P) (U:=U)) (send_progress e).
Proof. intros w. by rewrite send_progress_eq. Qed.

Lemma heap_kept_copy_point (l : loc) :
  preserves (heap_kept (P:=P) (U:=U)) (copy_point l).
Proof.
  intros w. split; [done|]. split; [|done]. simpl.
  apply insert_subseteq, not_elem_of_dom, is_fresh.
Qed.

Lemma heap_kept_deepcopy_state (l : loc) :
  preserves (heap_kept (P:=P) (U:=U)) (deepcopy_state l).
Proof.
  intros w. split; [done|]. split; [done|]. simpl.
  apply insert_subseteq, not_elem_of_dom, is_fresh.
Qed.

Lemma heap_kept_emit (a : action) :
  preserves (heap_kept (P:=P) (U:=U)) (emit a).
Proof. intros w. by repeat split. Qed.

Lemma heap_kept_get_world :
  preserves (heap_kept (P:=P) (U:=U)) get_world.
Proof. intros w. by repeat split. Qed.

Ltac heap_steps :=
  repeat first
    [ apply heap_kept_send
    | apply heap_kept_copy_point
    | apply heap_kept_deepcopy_state
    | apply heap_kept_emit
    | apply heap_kept_get_world
    | apply preserves_ret; apply _
    | apply preserves_raise; apply _
    | apply preserves_bind; [apply _ | | intros ?] ].

Lemma heap_kept_gui_call (g : GUIProgressMonitor.t P) h :
  preserves (heap_kept (P:=P) (U:=U)) (GUIProgressMonitor.call g h).
Proof.
  unfold GUIProgressMonitor.call.
  destruct (TimedUpdate_call _ _) as [[base' progress_due] improvement_due].
  apply preserves_bind; [apply _ | | intros _].
  { destruct progress_due; [|heap_steps].
    unfold GUIProgressMonitor.show_progress.
    apply preserves_bind; [apply _ | apply heap_kept_get_world | intros w].
    destruct (nllf_scale _) as [scale err]. heap_steps. }
  apply preserves_bind; [apply _ | | intros _; heap_steps].
  destruct improvement_due; [|heap_steps].
  unfold GUIProgressMonitor.show_improvement. heap_steps.
Qed.

Lemma heap_kept_conv_call (c : ConvergenceMonitor.t) h :
  preserves (heap_kept (P:=P) (U:=U)) (ConvergenceMonitor.call c h).
Proof.
  unfold ConvergenceMonitor.call, ConvergenceMonitor.record_sample.
  apply preserves_bind; [apply _ | | intros c'].
  { destruct (ConvergenceMonitor.sample h); heap_steps. }
  destruct (_ && _); heap_steps.
Qed.

Lemma heap_kept_dream_call (d : DreamMonitor.t P U) h :
  preserves (heap_kept (P:=P) (U:=U)) (DreamMonitor.call d h).
Proof.
  unfold DreamMonitor.call; simpl.
  destruct (History.uncertainty_state h) as [st|]; [|heap_steps].
  destruct (_ && _); heap_steps.
Qed.

Lemma heap_kept_Monitor_call (m : Monitor P U) h :
  preserves (heap_kept (P:=P) (U:=U)) (Monitor_call m h).
Proof.
  destruct m; simpl;
    (apply preserves_bind; [apply _ | | intros ?; heap_steps]).
  - apply heap_kept_gui_call.
  - apply heap_kept_conv_call.
  - apply heap_kept_dream_call.
Qed.

Lemma heap_kept_call_all (ms : list (Monitor P U)) h :
  preserves (heap_kept (P:=P) (U:=U)) (call_all ms h).
Proof.
  induction ms as [|m ms IH]; simpl; [heap_steps|].
  apply preserves_bind; [apply _ | apply heap_kept_Monitor_call | intros m'].
  apply preserves_bind; [apply _ | apply IH | intros ms'].
  heap_steps.
Qed.

Lemma heap_kept_Monitor_final (m : Monitor P U) :
  preserves (heap_kept (P:=P) (U:=U)) (Monitor_final m).
Proof.
  unfold Monitor_final.
  apply preserves_bind; [apply _ | apply heap_kept_emit | intros _].
  destruct m as [g|c|d]; [heap_steps | apply heap_kept_send |].
  unfold DreamMonitor.final.
  destruct (DreamMonitor.uncertainty_state d); heap_steps.
Qed.

End HeapSteps.

(** ** The thread *)

Section Run.
Context {P U : Type} `{!Inhabited P, !Inhabited U, !Externals P}.
Local Arguments send_progress : simpl never.
Local Arguments DreamMonitor.final : simpl never.

Lemma Monitor_call_kind (m m' : Monitor P U) h w w' :
  Monitor_call m h w = Returns m' w' ->
  match m, m' with
  | MGui _, MGui _ => True
  | MConv c, MConv c' =>
      ConvergenceMonitor.rate c' = ConvergenceMonitor.rate c
      /\ ConvergenceMonitor.message c' = ConvergenceMonitor.message c
  | MDream d, MDream d' => DreamMonitor.problem d' = DreamMonitor.problem d
  | _, _ => False
  end.
Proof.
  destruct m as [g|c|d]; simpl; unfold bind.
  - destruct (GUIProgressMonitor.call g h w); [|done]. by intros [= <- _].
  - pose proof (conv_call_cases c h w) as Hc.
    destruct (ConvergenceMonitor.sample h) as [e|row]; [by rewrite Hc|].
    simpl in Hc. destruct (convergence_due c h); rewrite Hc; by intros [= <- _].
  - pose proof (dream_call_cases d h w) as Hc.
    destruct (History.uncertainty_state h) as [st|];
      [destruct (dream_due d h)|]; simpl in Hc; rewrite Hc; by intros [= <- _].
Qed.

Lemma same_chain_refl (ms : list (Monitor P U)) : same_chain ms ms.
Proof. apply Forall_Forall2_diag, Forall_forall. by intros [g|c|d] _. Qed.

Lemma same_chain_trans (ms1 ms2 ms3 : list (Monitor P U)) :
  same_chain ms1 ms2 -> same_chain ms2 ms3 -> same_chain ms1 ms3.
Proof.
  intros H12. revert ms3. induction H12 as [|m1 m2 ms1 ms2 Hm _ IH];
    intros ms3 H23; inversion H23 as [|? m3 ? ms3' Hm' H23']; subst;
    constructor; [|by apply IH].
  destruct m1, m2, m3; try done; simpl in *; destruct_and?; try split; congruence.
Qed.

Lemma call_all_same_chain (ms : list (Monitor P U)) h :
  forall ms' w w', call_all ms h w = Returns ms' w' -> same_chain ms ms'.
Proof.
  induction ms as [|m ms IH]; intros ms' w w'; simpl.
  - intros [= <- _]. constructor.
  - unfold bind. destruct (Monitor_call m h w) as [m1 w1|] eqn:Hm; [|done].
    destruct (call_all ms h w1) as [ms1 w2|] eqn:Hms; [|done].
    intros [= <- _]. constructor; [|by eapply IH].
    by apply Monitor_call_kind in Hm.
Qed.

Lemma fit_loop_same_chain (drv : FitDriver.t P U) steps :
  forall k ms ms' k' w w',
    FitDriver.fit_loop drv steps k ms w = Returns (ms', k') w' ->
    same_chain ms ms'.
Proof.
  induction steps as [|[it|e] steps IH]; intros k ms ms' k' w w'; simpl.
  - intros [= <- _ _]. apply same_chain_refl.
  - unfold bind at 1. unfold bind at 1. unfold FitDriver.iterate at 1.
    destruct (call_all ms (Fitter.history it) _) as [ms1 w1|] eqn:Hc; [|done].
    apply call_all_same_chain in Hc.
    destruct (FitDriver.abort_test drv k).
    + by intros [= <- _ _].
    + intros Hrest. apply IH in Hrest. by eapply same_chain_trans.
  - done.
Qed.

Lemma fit_returns (drv : FitDriver.t P U) w ms k xfx w' :
  FitDriver.fit drv w = Returns (ms, k, xfx) w' ->
  same_chain (FitDriver.monitors drv) ms
  /\ xfx = Fitter.result (FitDriver.fitclass drv) k.
Proof.
  unfold FitDriver.fit, bind.
  destruct (FitDriver.fit_loop _ _ _ _ _) as [[ms1 k1] w1|] eqn:Hloop; [|done].
  intros [= <- <- <- _]. split; [|done]. by eapply fit_loop_same_chain.
Qed.

(** [run], by the outcome of [driver.fit()]. *)
Lemma run_cases (self : FitThread.t P U) (w : World P U) :
  match FitDriver.fit (run_driver self w) (run_start self w) with
  | Raises e w2 => FitThread.run self w = Raises e w2
  | Returns (ms, k, xfx) w2 =>
      exists g c d w3,
        ms = [MGui g; MConv c; MDream d]
        /\ ConvergenceMonitor.rate c = FitThread.convergence_update self
        /\ ConvergenceMonitor.message c = "convergence_update"
        /\ FitThread.run self w = Returns (complete_event self k) w3
        /\ log w3 = log w2 ++ finals_log c d w2
                    ++ [Put Complete (complete_event self k); Wake Complete]
        /\ problems w3 = problems w2
  end.
Proof.
  destruct (FitDriver.fit _ _) as [[[ms k] xfx] w2|e w2] eqn:Hfit.
  - pose proof (fit_returns _ _ _ _ _ _ Hfit) as [Hchain ->].
    unfold run_driver in Hchain; simpl in Hchain.
    inversion Hchain as [|m1 m1' ? ? H1 Hc2]; subst.
    inversion Hc2 as [|m2 m2' ? ? H2 Hc3]; subst.
    inversion Hc3 as [|m3 m3' ? ? H3 Hc4]; subst. inversion Hc4; subst.
    destruct m1' as [g| |]; [|done..]. destruct m2' as [|c|]; [done| |done].
    destruct m3' as [| |d]; [done..|]. simpl in H2, H3. destruct H2 as [Hr Hm].
    pose proof (dream_final_cases d) as Hd.
    assert (exists w3,
      for_each [MGui g; MConv c; MDream d]
        (fun M => if has_final M then Monitor_final M else ret tt) w2
      = Returns tt w3
      /\ log w3 = log w2 ++ finals_log c d w2
      /\ problems w3 = problems w2) as (w3 & Hfin & Hlog & Hpb).
    { unfold finals_log. simpl. unfold bind, Monitor_final; simpl.
      unfold bind, emit, ret; simpl.
      destruct TimedUpdate_has_final; simpl;
        destruct (DreamMonitor.uncertainty_state d) as [st|]; simpl in Hd;
        rewrite Hd; eexists; (split; [reflexivity|]); simpl;
        rewrite <- ?app_assoc; simpl; auto. }
    exists g, c, d.
    eexists {| problems := problems w3; arrays := arrays w3; states := states w3;
               log := log w3 ++ [Put Complete (complete_event self k);
                                 Wake Complete] |}.
    split; [done|]. split; [done|]. split; [done|]. split; [|split].
    + unfold FitThread.run, bind, get_world, deepcopy_problem.
      change (FitDriver.fit _ _)
        with (FitDriver.fit (run_driver self w) (run_start self w)).
      change (FitDriver.fitclass (run_driver self w))
        with (FitThread.fitclass self) in Hfit.
      unfold complete_event.
      set (r := Fitter.result (FitThread.fitclass self) k) in *.
      clearbody r. destruct r as [x fx].
      rewrite Hfit, Hfin. by rewrite send_complete_eq.
    + simpl. by rewrite Hlog, <- app_assoc.
    + done.
  - unfold FitThread.run, bind, get_world, deepcopy_problem.
    change (FitDriver.fit _ _)
      with (FitDriver.fit (run_driver self w) (run_start self w)).
    by rewrite Hfit.
Qed.

(** *** The fit returns when no step fails *)

Lemma gui_call_returns (g : GUIProgressMonitor.t P) h (w : World P U) :
  exists g' w', GUIProgressMonitor.call g h w = Returns g' w'.
Proof.
  unfold GUIProgressMonitor.call.
  destruct (TimedUpdate_call _ _) as [[base' progress_due] improvement_due].
  unfold bind, GUIProgressMonitor.show_progress,
    GUIProgressMonitor.show_improvement, bind, get_world, copy_point, ret.
  destruct progress_due, improvement_due;
    try destruct (nllf_scale (problems w !!! _)) as [scale err];
    rewrite ?send_progress_eq; eauto.
Qed.

Lemma chain_call_returns g c (d : DreamMonitor.t P U) h w row :
  ConvergenceMonitor.sample h = inr row ->
  exists g' c' d' w',
    call_all [MGui g; MConv c; MDream d] h w
    = Returns [MGui g'; MConv c'; MDream d'] w'.
Proof.
  intros Hs. cbn [call_all Monitor_call]. unfold bind, ret.
  destruct (gui_call_returns g h w) as (g' & w1 & ->). cbv beta iota.
  pose proof (conv_call_cases c h w1) as Hc. rewrite Hs in Hc. simpl in Hc.
  assert (exists c' w2, ConvergenceMonitor.call c h w1 = Returns c' w2)
    as (c' & w2 & ->) by (destruct (convergence_due c h); eauto).
  cbv beta iota.
  pose proof (dream_call_cases d h w2) as Hd.
  assert (exists d' w3, DreamMonitor.call d h w2 = Returns d' w3)
    as (d' & w3 & ->).
  { destruct (History.uncertainty_state h); [destruct (dream_due d h)|];
      simpl in Hd; eauto. }
  cbv beta iota. eauto.
Qed.

(** The loop returns when the steps it gets to do not fail: all of them,
    or those up to the poll at which the abort test is true. *)
Lemma fit_loop_returns (drv : FitDriver.t P U) steps :
  forall n k g c d w,
    Forall step_ok (take n steps) ->
    (length steps <= n)%nat
    \/ (exists m, n = S m /\ FitDriver.abort_test drv (k + m) = true) ->
    exists g' c' d' k' w',
      FitDriver.fit_loop drv steps k [MGui g; MConv c; MDream d] w
      = Returns ([MGui g'; MConv c'; MDream d'], k') w'.
Proof.
  induction steps as [|st steps IH]; intros n k g c d w Hok Hn.
  { simpl. unfold ret. eauto 10. }
  destruct n as [|n].
  { destruct Hn as [Hn|(m & Hm & _)]; [simpl in Hn; lia | done]. }
  simpl in Hok. apply Forall_cons in Hok as [Hst Hok].
  destruct st as [it|e]; [|done]. destruct Hst as [row Hrow].
  cbn [FitDriver.fit_loop]. unfold bind at 1. unfold bind at 1.
  unfold FitDriver.iterate at 1.
  edestruct (chain_call_returns g c d) as (g' & c' & d' & w' & ->); [done|].
  destruct (FitDriver.abort_test drv k) eqn:Hab; [unfold ret; eauto 10|].
  apply (IH n); [done|].
  destruct Hn as [Hn|(m & [= ->] & Hm)]; [left; simpl in Hn; lia|].
  right. destruct m as [|m].
  - rewrite Nat.add_0_r in Hm. congruence.
  - exists m. split; [done|]. by rewrite Nat.add_succ_r in Hm.
Qed.

(** *** No convergence update while the rate is not positive *)

#[local] Instance quiet_step_refl : Reflexive (quiet_step (P:=P) (U:=U)).
Proof. intros w. exists []. by rewrite app_nil_r. Qed.

Lemma convergence_updates_app d1 d2 :
  convergence_updates (d1 ++ d2)
  = convergence_updates d1 ++ convergence_updates d2.
Proof.
  unfold convergence_updates. by rewrite published_app, List.filter_app.
Qed.

#[local] Instance quiet_step_trans : Transitive (quiet_step (P:=P) (U:=U)).
Proof.
  intros w1 w2 w3 (d1 & E1 & Q1) (d2 & E2 & Q2). exists (d1 ++ d2).
  by rewrite E2, E1, app_assoc, convergence_updates_app, Q1, Q2.
Qed.

Lemma quiet_step_same_log {A} (m : M P U A) :
  (forall w, log (world_of (m w)) = log w) -> preserves quiet_step m.
Proof. intros Hm w. exists []. by rewrite app_nil_r. Qed.

Lemma quiet_step_send (e : event) :
  is_convergence_update e = false ->
  preserves (P:=P) (U:=U) quiet_step (send_progress e).
Proof.
  intros He w. rewrite send_progress_eq. eexists; split; [done|].
  unfold convergence_updates; simpl. by rewrite He.
Qed.

Lemma quiet_gui_call (g : GUIProgressMonitor.t P) h :
  preserves (U:=U) quiet_step (GUIProgressMonitor.call g h).
Proof.
  unfold GUIProgressMonitor.call.
  destruct (TimedUpdate_call _ _) as [[base' progress_due] improvement_due].
  apply preserves_bind; [apply _ | | intros _].
  { destruct progress_due; [|apply preserves_ret, _].
    unfold GUIProgressMonitor.show_progress.
    apply preserves_bind; [apply _ | by apply quiet_step_same_log | intros w].
    destruct (nllf_scale _) as [scale err].
    apply preserves_bind; [apply _ | by apply quiet_step_same_log | intros pt].
    by apply quiet_step_send. }
  apply preserves_bind; [apply _ | | intros _; apply preserves_ret, _].
  destruct improvement_due; [|apply preserves_ret, _].
  unfold GUIProgressMonitor.show_improvement.
  apply preserves_bind; [apply _ | by apply quiet_step_same_log | intros pt].
  by apply quiet_step_send.
Qed.

Lemma not_due_when_rate_nonpositive (c : ConvergenceMonitor.t) h :
  Float64.gtb (ConvergenceMonitor.rate c) Float64.zero = false ->
  convergence_due c h = false.
Proof. intros Hr. unfold convergence_due, cadence_due. by rewrite Hr. Qed.

Lemma quiet_conv_call (c : ConvergenceMonitor.t) h :
  Float64.gtb (ConvergenceMonitor.rate c) Float64.zero = false ->
  preserves (P:=P) (U:=U) quiet_step (ConvergenceMonitor.call c h).
Proof.
  intros Hr w. pose proof (conv_call_cases c h w) as Hc.
  destruct (ConvergenceMonitor.sample h) as [e|row]; [rewrite Hc; reflexivity|].
  simpl in Hc. rewrite not_due_when_rate_nonpositive in Hc by done.
  rewrite Hc. reflexivity.
Qed.

Lemma quiet_dream_call (d : DreamMonitor.t P U) h :
  preserves quiet_step (DreamMonitor.call d h).
Proof.
  intros w. pose proof (dream_call_cases d h w) as Hc.
  destruct (History.uncertainty_state h) as [st|];
    [destruct (dream_due d h)|]; simpl in Hc; rewrite Hc; try reflexivity.
  eexists; split; [done|]. reflexivity.
Qed.

Lemma quiet_Monitor_call (m : Monitor P U) h :
  quiet m -> preserves quiet_step (Monitor_call m h).
Proof.
  destruct m as [g|c|d]; intros Hq; simpl;
    (apply preserves_bind; [apply _ | | intros ?; apply preserves_ret, _]).
  - apply quiet_gui_call.
  - by apply quiet_conv_call.
  - apply quiet_dream_call.
Qed.

Lemma quiet_call_all (ms : list (Monitor P U)) h :
  Forall quiet ms -> preserves quiet_step (call_all ms h).
Proof.
  induction 1 as [|m ms Hm _ IH]; simpl; [apply preserves_ret, _|].
  apply preserves_bind; [apply _ | by apply quiet_Monitor_call | intros m'].
  apply preserves_bind; [apply _ | apply IH | intros ms'].
  apply preserves_ret, _.
Qed.

Lemma same_chain_quiet (ms ms' : list (Monitor P U)) :
  same_chain ms ms' -> Forall quiet ms -> Forall quiet ms'.
Proof.
  induction 1 as [|m m' ms ms' Hm _ IH]; intros HF; [done|].
  apply Forall_cons in HF as [Hq HF]. constructor; [|by apply IH].
  destruct m, m'; try done. simpl in *. destruct Hm as [-> _]. done.
Qed.

Lemma quiet_fit_loop (drv : FitDriver.t P U) steps :
  forall k ms, Forall quiet ms ->
    preserves quiet_step (FitDriver.fit_loop drv steps k ms).
Proof.
  induction steps as [|[it|e] steps IH]; intros k ms Hq; simpl.
  - apply preserves_ret, _.
  - apply preserves_bind; [apply _ | by apply quiet_step_same_log | intros _].
    intros w. unfold bind.
    pose proof (quiet_call_all ms (Fitter.history it) Hq w) as Hstep.
    destruct (call_all ms (Fitter.history it) w) as [ms1 w1|e w1] eqn:Hc;
      [|exact Hstep].
    apply call_all_same_chain in Hc.
    destruct (FitDriver.abort_test drv k); [exact Hstep|].
    etransitivity; [exact Hstep|]. apply IH. by eapply same_chain_quiet.
  - apply preserves_raise, _.
Qed.

Lemma quiet_fit (drv : FitDriver.t P U) :
  Forall quiet (FitDriver.monitors drv) ->
  preserves quiet_step (FitDriver.fit drv).
Proof.
  intros Hq. unfold FitDriver.fit.
  apply preserves_bind; [apply _ | by apply quiet_fit_loop | intros r].
  apply preserves_ret, _.
Qed.

(** *** What the loop over the monitors adds after the fit *)

Lemma finals_log_trace (c : ConvergenceMonitor.t) (d : DreamMonitor.t P U)
    (w : World P U) :
  woken (finals_log c d w)
  /\ published Complete (finals_log c d w) = []
  /\ finalized (finals_log c d w) = final_ids.
Proof.
  unfold finals_log, final_ids.
  destruct TimedUpdate_has_final, (DreamMonitor.uncertainty_state d);
    repeat split; repeat constructor.
Qed.

Lemma finals_log_convergence (c : ConvergenceMonitor.t)
    (d : DreamMonitor.t P U) (w : World P U) :
  ConvergenceMonitor.message c = "convergence_update" ->
  convergence_updates (finals_log c d w) = [convergence_event c].
Proof.
  intros Hm.
  assert (is_convergence_update (convergence_event c) = true) as Hc.
  { unfold is_convergence_update, convergence_event.
    replace (dict _ !! "message")
      with (Some (VStr (ConvergenceMonitor.message c))) by reflexivity.
    by rewrite Hm. }
  unfold finals_log, convergence_updates.
  destruct TimedUpdate_has_final, (DreamMonitor.uncertainty_state d);
    simpl; by rewrite Hc.
Qed.

Lemma fit_returns_when (self : FitThread.t P U) (w : World P U) (n : nat) :
  Forall step_ok (take n (Fitter.steps (FitThread.fitclass self))) ->
  (length (Fitter.steps (FitThread.fitclass self)) <= n)%nat
  \/ (exists m, n = S m /\ FitThread.abort_test self m = true) ->
  exists r w2,
    FitDriver.fit (run_driver self w) (run_start self w) = Returns r w2.
Proof.
  intros Hok Hn. unfold FitDriver.fit, bind.
  edestruct (fit_loop_returns (run_driver self w)
               (Fitter.steps (FitThread.fitclass self)) n 0)
    as (g & c & d & k & w2 & E); [exact Hok | exact Hn |].
  change (FitDriver.monitors (run_driver self w))
         with [MGui (GUIProgressMonitor.init (FitThread.problem self) None None);
               MConv (ConvergenceMonitor.init (FitThread.problem self)
                        "convergence_update"
                        (FitThread.convergence_update self));
               MDream (DreamMonitor.init (FitThread.problem self)
                         "uncertainty_update" (FitThread.fitclass self)
                         (FitThread.uncertainty_update self))].
       change (FitDriver.fitclass (run_driver self w))
         with (FitThread.fitclass self).
  rewrite E. unfold ret. eauto.
Qed.

(** C1, as the code has it: [run] does what [driver.fit()] does. If the fit
    returns after [k] iterations, [run] returns: the log then grows by what
    the chain published during the fit, by the [final()] calls, once for
    each monitor that has one and in chain order, and last by exactly one
    completion event and its wake-up. If the fit raises, [run] raises with
    the world the fit left: no monitor is finalised and nothing is put on
    the completion channel. The fit returns, on normal completion and on
    abort alike, when none of the steps it gets to fails: all the steps, or
    the steps up to the poll at which the abort queue is not empty. *)
Theorem run_terminal_event (self : FitThread.t P U) (w : World P U) :
  match FitDriver.fit (run_driver self w) (run_start self w) with
  | Returns (ms, k, xfx) w2 =>
      exists during finals w',
        FitThread.run self w = Returns (complete_event self k) w'
        /\ log w2 = log w ++ during
        /\ log w' = log w ++ during ++ finals
                    ++ [Put Complete (complete_event self k); Wake Complete]
        /\ loop_trace during
        /\ published Complete finals = []
        /\ finalized finals = final_ids
        /\ published Complete
             (during ++ finals
              ++ [Put Complete (complete_event self k); Wake Complete])
           = [complete_event self k]
        /\ finalized
             (during ++ finals
              ++ [Put Complete (complete_event self k); Wake Complete])
           = final_ids
  | Raises e w2 =>
      FitThread.run self w = Raises e w2
      /\ exists during,
           log w2 = log w ++ during
           /\ loop_trace during
           /\ published Complete during = []
           /\ finalized during = []
  end
  /\ (forall n,
        Forall step_ok (take n (Fitter.steps (FitThread.fitclass self))) ->
        (length (Fitter.steps (FitThread.fitclass self)) <= n)%nat
        \/ (exists m, n = S m /\ FitThread.abort_test self m = true) ->
        exists r w2,
          FitDriver.fit (run_driver self w) (run_start self w)
          = Returns r w2).
Proof.
  pose proof (run_cases self w) as Hrun.
  pose proof (chain_step_fit (run_driver self w) (run_start self w))
    as [(during & Hlog & Hduring) _].
  split; [|intros n; apply fit_returns_when].
  destruct (FitDriver.fit _ _) as [[[ms k] xfx] w2|e w2]; simpl in Hlog.
  - destruct Hrun as (g & c & d & w3 & _ & _ & _ & Hret & Hlog3 & _).
    destruct (finals_log_trace c d w2) as (Hw & Hc & Hf).
    destruct Hduring as (Hdw & Hdc & Hdf).
    exists during, (finals_log c d w2), w3.
    rewrite Hlog3, Hlog, <- app_assoc. repeat split; try done.
    + rewrite !published_app, Hdc, Hc. reflexivity.
    + rewrite !finalized_app, Hdf, Hf. simpl. apply app_nil_r.
  - split; [done|]. exists during. pose proof Hduring as (? & ? & ?). auto.
Qed.

(** C8: [send_progress] and [send_complete] each put the event on their
    queue and then wake that queue's loop, and nothing else; in the log of a
    whole [run], whatever its outcome, every [Put] is directly followed by
    the wake-up of the same channel. *)
Theorem publish_enqueues_then_wakes :
  (forall (e : event) (w : World P U),
      send_progress e w =
      Returns tt {| problems := problems w; arrays := arrays w;
                    states := states w;
                    log := log w ++ [Put Progress e; Wake Progress] |})
  /\ (forall (e : event) (w : World P U),
      send_complete e w =
      Returns tt {| problems := problems w; arrays := arrays w;
                    states := states w;
                    log := log w ++ [Put Complete e; Wake Complete] |})
  /\ (forall (self : FitThread.t P U) (w : World P U),
      exists d, log (world_of (FitThread.run self w)) = log w ++ d /\ woken d).
Proof.
  split; [exact send_progress_eq|]. split; [exact send_complete_eq|].
  intros self w. pose proof (run_cases self w) as Hrun.
  pose proof (chain_step_fit (run_driver self w) (run_start self w))
    as [(during & Hlog & (Hdw & _)) _].
  destruct (FitDriver.fit _ _) as [[[ms k] xfx] w2|e w2]; simpl in Hlog.
  - destruct Hrun as (g & c & d & w3 & _ & _ & _ & -> & Hlog3 & _).
    destruct (finals_log_trace c d w2) as (Hw & _).
    eexists. simpl. rewrite Hlog3, Hlog, <- app_assoc. split; [done|].
    apply woken_app; [done|]. apply woken_app; [done|]. repeat constructor.
  - rewrite Hrun. simpl. eauto.
Qed.

Lemma fit_loop_worked (drv : FitDriver.t P U) steps :
  forall k ms w o,
    FitDriver.fit_loop drv steps k ms w = o ->
    exists j,
      (j <= length steps)%nat
      /\ problems (world_of o)
         = alter (worked (iterations (take j steps))) (FitDriver.problem drv)
                 (problems w)
      /\ (forall ms' k' w', o = Returns (ms', k') w' -> k' = (k + j)%nat).
Proof.
  induction steps as [|[it|e] steps IH]; intros k ms w o Ho.
  - simpl in Ho. subst o. exists 0%nat. simpl. split; [lia|]. split.
    + symmetry. by apply alter_id.
    + intros ms' k' w' [= _ <- _]. lia.
  - cbn [FitDriver.fit_loop] in Ho. unfold bind at 1 in Ho.
    unfold bind at 1 in Ho. unfold FitDriver.iterate at 1 in Ho.
    set (w1 := Build_World _ _ _ _ _ _) in Ho.
    pose proof (heap_kept_call_all ms (Fitter.history it) w1) as (Hp & _).
    change (problems w1)
      with (alter (Fitter.on_problem it) (FitDriver.problem drv) (problems w))
      in Hp.
    destruct (call_all ms (Fitter.history it) w1) as [ms1 w2|e w2];
      simpl in Hp.
    + destruct (FitDriver.abort_test drv k).
      * subst o. exists 1%nat. simpl. split; [lia|]. split; [by rewrite Hp|].
        intros ms' k' w' [= _ <- _]. lia.
      * destruct (IH (S k) ms1 w2 o Ho) as (j & Hj & Hpb & Hk).
        exists (S j). simpl. split; [lia|]. split.
        -- rewrite Hpb, Hp. by rewrite alter_alter_eq.
        -- intros ms' k' w' Hret. apply Hk in Hret. lia.
    + subst o. exists 1%nat. simpl. split; [lia|]. split; [by rewrite Hp|].
      done.
  - simpl in Ho. subst o. exists 0%nat. simpl. split; [lia|]. split; [|done].
    symmetry. by apply alter_id.
Qed.

(** The problem objects after the fit of the driver that [run]
    constructs: the copy holds what the iterations done made of the
    caller's contents, everything else is as the caller left it. *)
Lemma fit_worked (self : FitThread.t P U) (w : World P U) :
  let copy := fresh (dom (problems w)) in
  let steps := Fitter.steps (FitThread.fitclass self) in
  let fit := FitDriver.fit (run_driver self w) (run_start self w) in
  exists j,
    (j <= length steps)%nat
    /\ problems (world_of fit)
       = <[copy := worked (iterations (take j steps))
                     (problems w !!! FitThread.problem self)]> (problems w)
    /\ (forall ms k xfx w2, fit = Returns (ms, k, xfx) w2 -> k = j).
Proof.
  intros copy steps fit.
  destruct (fit_loop_worked (run_driver self w) steps 0
              (FitDriver.monitors (run_driver self w)) (run_start self w)
              _ eq_refl)
    as (j & Hj & Hpb & Hk).
  exists j. split; [done|].
  change (FitDriver.problem (run_driver self w)) with copy in Hpb.
  unfold run_start in Hpb at 2. cbn [problems] in Hpb. fold copy in Hpb.
  rewrite alter_insert_eq in Hpb.
  subst fit. unfold FitDriver.fit, bind.
  change (Fitter.steps (FitDriver.fitclass (run_driver self w))) with steps.
  destruct (FitDriver.fit_loop _ _ _ _ _) as [[ms k] w2|e w2] eqn:Hloop;
    simpl in Hpb |- *.
  - split; [done|]. intros ms' k' xfx w2' [= <- <- _ _].
    by apply (Hk _ _ _ eq_refl).
  - split; [done|]. done.
Qed.

(** C3: [run] is the fit of a driver that works on a problem object
    allocated by [run] itself and holding the caller's contents. Whatever
    the fit does, every problem object that existed before is afterwards as
    it was, the caller's among them: the only object that differs is the
    copy, which holds what the iterations done made of the caller's
    contents. When the fit returns, [run] returns and the one event it has
    put on the completion queue refers to the caller's problem object and
    carries the best point, the best value and the text printed by
    [driver.show()]; when the fit raises, [run] raises. *)
Theorem run_isolates_problem (self : FitThread.t P U) (w : World P U) :
  is_Some (problems w !! FitThread.problem self) ->
  let copy := fresh (dom (problems w)) in
  let original := problems w !!! FitThread.problem self in
  let fitter := FitThread.fitclass self in
  let driver := run_driver self w in
  (copy ∉ dom (problems w))
  /\ copy <> FitThread.problem self
  /\ FitDriver.problem driver = copy
  /\ FitDriver.fitclass driver = fitter
  /\ problems (run_start self w) = <[copy := original]> (problems w)
  /\ problems w !! FitThread.problem self = Some original
  /\ (forall l, is_Some (problems w !! l) ->
        problems (world_of (FitThread.run self w)) !! l = problems w !! l)
  /\ match FitDriver.fit driver (run_start self w) with
     | Returns (ms, k, xfx) w2 =>
         exists d w',
           let evt := dict [("message", VStr "complete");
                            ("problem", VProblem (FitThread.problem self));
                            ("point", VPoint (Fitter.result fitter k).1);
                            ("value", VFloat (Fitter.result fitter k).2);
                            ("info", VStr (FitDriver.show driver k))] in
           FitThread.run self w = Returns evt w'
           /\ log w' = log w ++ d
           /\ published Complete d = [evt]
           /\ problems w'
              = <[copy := worked (iterations (take k (Fitter.steps fitter)))
                            original]> (problems w)
     | Raises e w2 =>
         FitThread.run self w = Raises e w2
         /\ exists j,
              problems w2
              = <[copy := worked (iterations (take j (Fitter.steps fitter)))
                            original]> (problems w)
     end.
Proof.
  intros [v0 Hv0] copy original fitter driver.
  pose proof (is_fresh (dom (problems w))) as Hfresh. fold copy in Hfresh.
  assert (copy <> FitThread.problem self) as Hne.
  { intros Heq. apply Hfresh. rewrite Heq. apply elem_of_dom. eauto. }
  pose proof (run_cases self w) as Hrun.
  pose proof (fit_worked self w) as (j & Hj & Hpb & Hk).
  fold copy original fitter driver in Hpb, Hk.
  pose proof (chain_step_fit (run_driver self w) (run_start self w))
    as [(during & Hlog & (_ & Hdc & _)) _].
  fold driver in Hrun, Hlog.
  split; [done|]. split; [done|]. split; [done|]. split; [done|].
  split; [done|].
  split; [unfold original; by rewrite (lookup_total_correct _ _ _ Hv0)|].
  assert (forall m : gmap loc P, forall v l,
            is_Some (problems w !! l) -> m = <[copy := v]> (problems w) ->
            m !! l = problems w !! l) as Hframe.
  { intros m v l Hl ->. apply lookup_insert_ne. intros <-.
    by apply Hfresh, elem_of_dom. }
  destruct (FitDriver.fit driver (run_start self w))
    as [[[ms k] xfx] w2|e w2] eqn:Hfit; simpl in Hpb, Hlog.
  - destruct Hrun as (g & c & d & w3 & _ & _ & _ & Hret & Hlog3 & Hp3).
    pose proof (Hk _ _ _ _ eq_refl) as ->.
    destruct (finals_log_trace c d w2) as (_ & Hc & _).
    split.
    + intros l Hl. rewrite Hret. simpl. rewrite Hp3. by eapply Hframe.
    + eexists _, w3. split; [exact Hret|].
      split; [by rewrite Hlog3, Hlog, <- app_assoc|].
      split; [by rewrite !published_app, Hdc, Hc|].
      by rewrite Hp3.
  - split.
    + intros l Hl. rewrite Hrun. simpl. by eapply Hframe.
    + split; [done|]. by exists j.
Qed.

Lemma finals_log_split (c : ConvergenceMonitor.t) (d : DreamMonitor.t P U)
    (w : World P U) :
  exists before after,
    finals_log c d w
    = before ++ [Final ConvId; Put Progress (convergence_event c);
                 Wake Progress] ++ after
    /\ published Progress before = []
    /\ convergence_updates after = [].
Proof.
  unfold finals_log.
  exists (if TimedUpdate_has_final then [Final GuiId] else []).
  eexists. split; [reflexivity|]. split; [by destruct TimedUpdate_has_final|].
  by destruct (DreamMonitor.uncertainty_state d).
Qed.

(** C7, as the code has it: with a convergence rate that is not greater
    than zero, the fit loop publishes no [convergence_update]: what it adds
    to the log, whether it returns or raises, holds none. When the fit
    returns, the [final()] calls that follow, one per monitor that has one
    and in chain order, publish exactly one, the event of
    [ConvergenceMonitor.final()], and [run] ends with the one completion
    event, whose keys are [message], [problem], [point], [value] and [info]:
    it has no [step]. *)
Theorem cadence_zero_final_only (self : FitThread.t P U) (w : World P U) :
  Float64.gtb (FitThread.convergence_update self) Float64.zero = false ->
  match FitDriver.fit (run_driver self w) (run_start self w) with
  | Returns (ms, k, xfx) w2 =>
      exists during finals before after final_evt w',
        FitThread.run self w = Returns (complete_event self k) w'
        /\ log w2 = log w ++ during
        /\ log w' = log w ++ during ++ finals
                    ++ [Put Complete (complete_event self k); Wake Complete]
        /\ loop_trace during
        /\ convergence_updates during = []
        /\ finalized finals = final_ids
        /\ finals = before ++ [Final ConvId; Put Progress final_evt;
                               Wake Progress] ++ after
        /\ published Progress before = []
        /\ convergence_updates after = []
        /\ convergence_updates finals = [final_evt]
        /\ published Complete
             (during ++ finals
              ++ [Put Complete (complete_event self k); Wake Complete])
           = [complete_event self k]
        /\ complete_event self k !! "step" = None
        /\ dom (complete_event self k)
           = list_to_set ["message"; "problem"; "point"; "value"; "info"]
  | Raises e w2 =>
      FitThread.run self w = Raises e w2
      /\ exists during,
           log w2 = log w ++ during
           /\ loop_trace during
           /\ convergence_updates during = []
  end.
Proof.
  intros Hrate. pose proof (run_cases self w) as Hrun.
  assert (Forall quiet (FitDriver.monitors (run_driver self w))) as Hq.
  { repeat constructor. exact Hrate. }
  pose proof (quiet_fit (run_driver self w) Hq (run_start self w))
    as (during & Hlog & Hquiet).
  pose proof (chain_step_fit (run_driver self w) (run_start self w))
    as [(during' & Hlog' & Htrace) _].
  assert (during' = during) as ->.
  { rewrite Hlog in Hlog'. by apply app_inv_head in Hlog'. }
  destruct (FitDriver.fit _ _) as [[[ms k] xfx] w2|e w2]; simpl in Hlog.
  - destruct Hrun as (g & c & d & w3 & _ & _ & Hm & Hret & Hlog3 & _).
    destruct (finals_log_trace c d w2) as (_ & Hc & Hf).
    destruct (finals_log_split c d w2) as (before & after & Hs & Hb & Ha).
    pose proof Htrace as (_ & Hdc & _).
    exists during, (finals_log c d w2), before, after, (convergence_event c), w3.
    split; [done|]. split; [done|].
    split; [by rewrite Hlog3, Hlog, <- app_assoc|].
    split; [done|]. split; [done|]. split; [done|]. split; [done|].
    split; [done|]. split; [done|].
    split; [by apply finals_log_convergence|].
    split; [by rewrite !published_app, Hdc, Hc|].
    split; [reflexivity|].
    unfold complete_event, dict. simpl.
    rewrite !dom_insert_L, dom_empty_L. set_solver.
  - split; [done|]. eauto.
Qed.

End Run.

(** ** The tuple recorded by the convergence monitor *)

Section Quantiles.

Lemma insert_sorted_perm (x : Q) (l : list Q) :
  Permutation (x :: l) (insert_sorted x l).
Proof.
  induction l as [|y l IH]; simpl; [done|].
  destruct (Qle_bool x y); [done|]. rewrite <- IH. apply perm_swap.
Qed.

Lemma np_sort_perm (a : list Q) : Permutation a (np_sort a).
Proof.
  induction a as [|x a IH]; simpl; [done|].
  rewrite <- insert_sorted_perm. by constructor.
Qed.

Lemma insert_sorted_sorted (x : Q) (l : list Q) :
  StronglySorted Qle l -> StronglySorted Qle (insert_sorted x l).
Proof.
  induction 1 as [|y l Hl IH Hy]; simpl; [repeat constructor|].
  destruct (Qle_bool x y) eqn:Hxy.
  - apply Qle_bool_iff in Hxy. constructor; [by constructor|].
    constructor; [done|].
    eapply Forall_impl; [exact Hy|]. intros z Hz. by eapply Qle_trans.
  - assert (y <= x)%Q as Hyx.
    { apply Qlt_le_weak, Qnot_le_lt. intros Hle.
      apply Qle_bool_iff in Hle. congruence. }
    constructor; [done|]. rewrite <- insert_sorted_perm. by constructor.
Qed.

Lemma np_sort_sorted (a : list Q) : StronglySorted Qle (np_sort a).
Proof.
  induction a as [|x a IH]; simpl; [constructor | by apply insert_sorted_sorted].
Qed.

Lemma getitem_ok (p : list Q) (i : Z) (k : nat) (x : Q) :
  p !! k = Some x ->
  i = Z.of_nat k \/ i = (Z.of_nat k - Z.of_nat (length p))%Z ->
  getitem p i = inr x.
Proof.
  intros Hk Hi. pose proof (lookup_lt_Some _ _ _ Hk) as Hlt. unfold getitem.
  assert ((if (i <? 0)%Z then (Z.of_nat (length p) + i)%Z else i) = Z.of_nat k)
    as ->.
  { destruct Hi as [-> | ->].
    - destruct (Z.ltb_spec0 (Z.of_nat k) 0); lia.
    - destruct (Z.ltb_spec0 (Z.of_nat k - Z.of_nat (length p)) 0); lia. }
  rewrite Nat2Z.id, Hk.
  destruct (Z.leb_spec0 0 (Z.of_nat k)); [|lia].
  by destruct (Z.ltb_spec0 (Z.of_nat k) (Z.of_nat (length p))); [|lia].
Qed.

Context {P U : Type}.

(** C2: for a population of [n] values, [0 < n < 2^52], the tuple that
    [__call__] appends is the best value followed by the entries [0],
    [n // 5], [n // 2], [n - 1 - n // 5] and [n - 1] of the population sorted
    in ascending order; for the population 5, 3, 9, 1, 7 it is
    [(best, 1, 3, 5, 7, 9)]. *)
Theorem quantiles_of_population :
  (forall (best : Q) (pop : list Q),
      let n := length pop in
      let sorted := np_sort pop in
      (0 < n)%nat -> (Z.of_nat n < 2 ^ 52)%Z ->
      StronglySorted Qle sorted /\ Permutation pop sorted
      /\ exists p0 p20 p50 p80 p100,
          sorted !! 0%nat = Some p0
          /\ sorted !! (n / 5)%nat = Some p20
          /\ sorted !! (n / 2)%nat = Some p50
          /\ sorted !! (n - 1 - n / 5)%nat = Some p80
          /\ sorted !! (n - 1)%nat = Some p100
          /\ ConvergenceMonitor.quantiles best pop
             = inr [best; p0; p20; p50; p80; p100]
          /\ forall (self : ConvergenceMonitor.t) (history : History.t)
                    (w : World P U),
               History.value history = best ->
               History.population_values history = Some pop ->
               exists self' w',
                 ConvergenceMonitor.call self history w = Returns self' w'
                 /\ ConvergenceMonitor.pop self'
                    = ConvergenceMonitor.pop self
                      ++ [[best; p0; p20; p50; p80; p100]])
  /\ (forall best : Q,
        ConvergenceMonitor.quantiles best [5; 3; 9; 1; 7]%Q
        = inr [best; 1; 3; 5; 7; 9]%Q).
Proof.
  split; [|intros best; by vm_compute].
  intros best pop n sorted Hpos Hn.
  pose proof (np_sort_perm pop) as Hperm.
  pose proof (Permutation_length Hperm) as Hlen.
  pose proof (np_sort_sorted pop) as Hsorted.
  assert (ConvergenceMonitor.quantiles best pop
          = QI ← int_of_scaled Float64.lit_0_2 (Z.of_nat n);
            Qmid ← int_of_scaled Float64.lit_0_5 (Z.of_nat n);
            p0 ← getitem sorted 0;
            pQI ← getitem sorted QI;
            pQmid ← getitem sorted Qmid;
            pQhi ← getitem sorted (-1 - QI);
            plast ← getitem sorted (-1);
            inr [best; p0; pQI; pQmid; pQhi; plast]) as Hdef by reflexivity.
  fold n sorted in Hperm, Hlen, Hsorted. clearbody n sorted.
  split; [done|]. split; [done|].
  assert (forall k, (k < n)%nat -> is_Some (sorted !! k)) as Hget.
  { intros k Hk. apply lookup_lt_is_Some. lia. }
  assert (Z.of_nat (n / 5) = (Z.of_nat n / 5)%Z) as Hd5
    by apply (Nat2Z.inj_div n 5).
  assert (Z.of_nat (n / 2) = (Z.of_nat n / 2)%Z) as Hd2
    by apply (Nat2Z.inj_div n 2).
  assert (n / 5 < n)%nat as Hlt5 by (apply Nat.div_lt; lia).
  assert (n / 2 < n)%nat as Hlt2 by (apply Nat.div_lt; lia).
  destruct (Hget 0%nat) as [p0 Hp0]; [lia|].
  destruct (Hget (n / 5)%nat) as [p20 H20]; [lia|].
  destruct (Hget (n / 2)%nat) as [p50 H50]; [lia|].
  destruct (Hget (n - 1 - n / 5)%nat) as [p80 H80]; [lia|].
  destruct (Hget (n - 1)%nat) as [p100 H100]; [lia|].
  exists p0, p20, p50, p80, p100. do 5 (split; [done|]).
  assert (ConvergenceMonitor.quantiles best pop
          = inr [best; p0; p20; p50; p80; p100]) as Hq.
  { rewrite Hdef. unfold int_of_scaled.
    rewrite int_of_0_2_times, int_of_0_5_times by lia. simpl.
    assert (getitem sorted 0 = inr p0) as ->
      by (apply (getitem_ok _ _ 0%nat); [done | lia]).
    assert (getitem sorted (Z.of_nat n / 5) = inr p20) as ->
      by (apply (getitem_ok _ _ (n / 5)%nat); [done | by left]).
    assert (getitem sorted (Z.of_nat n / 2) = inr p50) as ->
      by (apply (getitem_ok _ _ (n / 2)%nat); [done | by left]).
    assert (getitem sorted (-1 - Z.of_nat n / 5) = inr p80) as ->
      by (apply (getitem_ok _ _ (n - 1 - n / 5)%nat);
          [done | right; rewrite <- Hlen, <- Hd5; lia]).
    assert (getitem sorted (-1) = inr p100) as ->
      by (apply (getitem_ok _ _ (n - 1)%nat);
          [done | right; rewrite <- Hlen; lia]).
    reflexivity. }
  split; [done|]. intros self history w Hbest Hpop.
  pose proof (conv_call_cases (P:=P) (U:=U) self history w) as Hc.
  unfold ConvergenceMonitor.sample in Hc. rewrite Hpop, Hbest, Hq in Hc.
  simpl in Hc. destruct (convergence_due self history); rewrite Hc; eauto.
Qed.

End Quantiles.

(** ** The properties on a concrete job *)

Section ConcreteJob.
Import Toy.

(** The optimiser would raise in its second step, but the abort queue is
    not empty at the first poll: the fit returns, and so does [run]. *)
Lemma run_terminal_event_witness :
  Forall step_ok (take 1 failing_steps)
  /\ FitThread.abort_test (thread failing_steps (abort_during 1) 5) 0 = true
  /\ exists evt w',
       FitThread.run (thread failing_steps (abort_during 1) 5) world0
       = Returns evt w'
       /\ published Complete (log w') = [evt]
       /\ finalized (log w') = [ConvId; DreamId].
Proof.
  assert (Forall step_ok (take 1 failing_steps)) as Hok.
  { repeat constructor; eexists; vm_compute; reflexivity. }
  assert (FitThread.abort_test (thread failing_steps (abort_during 1) 5) 0
          = true) as Hab by reflexivity.
  split; [exact Hok|]. split; [exact Hab|].
  destruct (run_terminal_event (thread failing_steps (abort_during 1) 5)
              world0) as [Hrun Hret].
  destruct (Hret 1%nat Hok (or_intror (ex_intro _ 0%nat (conj eq_refl Hab))))
    as ([[ms k] xfx] & w2 & Hfit).
  rewrite Hfit in Hrun.
  destruct Hrun as (during & finals & w' & Hrun & _ & Hlog & _ & _ & _
                    & Hpub & Hfin).
  exists (complete_event (thread failing_steps (abort_during 1) 5) k), w'.
  split; [exact Hrun|]. rewrite Hlog. change (log world0) with (@nil action).
  split; [exact Hpub | exact Hfin].
Defined.

(** C1 as stated fails: when the optimiser raises during the fit, [run]
    raises, no monitor is finalised and nothing reaches the completion
    channel. *)
Lemma failing_fit_no_terminal_event :
  let outcome := FitThread.run (thread failing_steps never_aborted 5) world0 in
  outcome = Raises (FitError "diverged") (world_of outcome)
  /\ published Complete (log (world_of outcome)) = []
  /\ finalized (log (world_of outcome)) = [].
Proof. by vm_compute. Qed.

Lemma quantiles_of_population_witness :
  (0 < length population)%nat
  /\ (Z.of_nat (length population) < 2 ^ 52)%Z
  /\ ConvergenceMonitor.quantiles 0 population = inr [0; 1; 3; 5; 7; 9]%Q.
Proof.
  assert (0 < length population)%nat as Hpos by (simpl; lia).
  assert (Z.of_nat (length population) < 2 ^ 52)%Z as Hlt by reflexivity.
  split; [exact Hpos|]. split; [exact Hlt|].
  destruct (proj1 (@quantiles_of_population Z Z) 0%Q population Hpos Hlt)
    as (_ & _ & p0 & p20 & p50 & p80 & p100
        & H0 & H20 & H50 & H80 & H100 & Hq & _).
  vm_compute in H0, H20, H50, H80, H100.
  injection H0 as <-. injection H20 as <-. injection H50 as <-.
  injection H80 as <-. injection H100 as <-. exact Hq.
Defined.

Lemma run_isolates_problem_witness :
  is_Some (problems world0 !! caller_problem)
  /\ problems (world_of (FitThread.run (thread five_steps never_aborted 5)
                           world0)) !! caller_problem
     = Some 42%Z.
Proof.
  assert (is_Some (problems world0 !! caller_problem)) as Hlive
    by (exists 42%Z; reflexivity).
  split; [exact Hlive|].
  destruct (run_isolates_problem (thread five_steps never_aborted 5) world0
              Hlive) as (_ & _ & _ & _ & _ & _ & Hsame & _).
  etransitivity; [exact (Hsame caller_problem Hlive) | reflexivity].
Defined.

(** With rate 2 and histories at times 1 to 5 the convergence monitor
    publishes at times 2 and 4. *)
Example emissions_of_population_histories :
  emission_times ConvergenceMonitor.call
    (ConvergenceMonitor.init caller_problem "convergence_update"
       (Float64.of_int 2))
    (map (fun h => (world0, h)) population_histories)
  = [Float64.of_int 2; Float64.of_int 4].
Proof. by vm_compute. Qed.

(** C6 as stated fails: at the default rate 5, a monitor that published at
    time 5.7 publishes again at time 10.7, since the double sum 5.7 + 5 is
    the double 10.7; as exact numbers the two times are 5 - 2^-50 apart,
    which is less than the rate. This holds for [ConvergenceMonitor] and
    for [DreamMonitor]. *)
Lemma emissions_closer_than_rate :
  let obs := [(world0, history_at t_5_7); (world0, history_at t_10_7)] in
  emission_times ConvergenceMonitor.call
    (ConvergenceMonitor.init caller_problem "convergence_update"
       (Float64.of_int 5)) obs
  = [t_5_7; t_10_7]
  /\ emission_times DreamMonitor.call
       (DreamMonitor.init caller_problem "uncertainty_update"
          (fitter five_steps) (Float64.of_int 5)) obs
     = [t_5_7; t_10_7]
  /\ Float64.add t_5_7 (Float64.of_int 5) = t_10_7
  /\ (exists q1 q2, Float64.to_Q t_5_7 = Some q1
                    /\ Float64.to_Q t_10_7 = Some q2
                    /\ (q2 - q1 == 5 - (1 # 1125899906842624))%Q)
  /\ ~ separated_exactly 5 [t_5_7; t_10_7].
Proof.
  split; [by vm_compute|]. split; [by vm_compute|]. split; [by vm_compute|].
  split.
  - eexists _, _. split; [reflexivity|]. split; [reflexivity|]. by vm_compute.
  - intros [(q1 & q2 & H1 & H2 & Hle) _].
    injection H1 as <-. injection H2 as <-.
    apply Qle_bool_iff in Hle. vm_compute in Hle. discriminate Hle.
Qed.

Lemma convergence_payload_accumulates_witness :
  exists self w,
    calls ConvergenceMonitor.call
          (ConvergenceMonitor.init caller_problem "convergence_update"
             (Float64.of_int 2))
          point_histories world0 = Returns self w
    /\ ConvergenceMonitor.pop self = [[9]; [8]; [7]]%Q
    /\ length (published Progress (log w)) = 1%nat.
Proof.
  assert (exists self w,
    calls ConvergenceMonitor.call
          (ConvergenceMonitor.init caller_problem "convergence_update"
             (Float64.of_int 2))
          point_histories world0 = Returns self w
    /\ length (published Progress (log w)) = 1%nat) as (self & w & Hrun & Hlen).
  { eexists _, _. split; vm_compute; reflexivity. }
  exists self, w. split; [exact Hrun|]. split; [|exact Hlen].
  destruct (convergence_payload_accumulates _ _ _ _ _ _ _ Hrun)
    as (rows & HF & -> & _).
  inversion HF as [|h1 r1 hs1 rs1 E1 HF1]; subst.
  inversion HF1 as [|h2 r2 hs2 rs2 E2 HF2]; subst.
  inversion HF2 as [|h3 r3 hs3 rs3 E3 HF3]; subst. inversion HF3; subst.
  vm_compute in E1, E2, E3. congruence.
Defined.

Lemma dream_final_last_observation_witness :
  exists self w,
    calls DreamMonitor.call
          (DreamMonitor.init caller_problem "uncertainty_update"
             (fitter five_steps) Float64.zero)
          sampler_histories world0 = Returns self w
    /\ DreamMonitor.uncertainty_state self = Some sampler
    /\ length (published Progress (log (world_of (DreamMonitor.final self w))))
       = 1%nat.
Proof.
  assert (exists self w,
    calls DreamMonitor.call
          (DreamMonitor.init caller_problem "uncertainty_update"
             (fitter five_steps) Float64.zero)
          sampler_histories world0 = Returns self w
    /\ log w = []) as (self & w & Hrun & Hlog).
  { eexists _, _. split; vm_compute; reflexivity. }
  exists self, w. split; [exact Hrun|].
  destruct (dream_final_last_observation _ _ _ _ _ _ _ _ Hrun)
    as (Hstate & Hfinal & _).
  split; [exact Hstate|].
  change (last_state sampler_histories) with (Some sampler) in Hfinal.
  destruct Hfinal as [-> _]. simpl. by rewrite Hlog.
Defined.

(** C5 as stated fails: the monitor captured an uncertainty state at the
    first history, the second history had none, and [final()] publishes
    nothing. *)
Lemma dream_final_after_absence :
  exists self w,
    calls DreamMonitor.call
          (DreamMonitor.init caller_problem "uncertainty_update"
             (fitter five_steps) Float64.zero)
          interrupted_histories world0 = Returns self w
    /\ (History.uncertainty_state <$> head interrupted_histories)
       = Some (Some sampler)
    /\ DreamMonitor.final self w = Returns tt w
    /\ published Progress (log w) = [].
Proof. eexists _, _. by vm_compute. Qed.

Lemma cadence_zero_final_only_witness :
  Float64.gtb (FitThread.convergence_update (thread five_steps never_aborted 0))
              Float64.zero = false
  /\ exists evt w' final_evt,
       FitThread.run (thread five_steps never_aborted 0) world0
       = Returns evt w'
       /\ convergence_updates (log w') = [final_evt]
       /\ published Complete (log w') = [evt]
       /\ evt !! "step" = None.
Proof.
  assert (Float64.gtb
            (FitThread.convergence_update (thread five_steps never_aborted 0))
            Float64.zero = false) as Hrate by reflexivity.
  split; [exact Hrate|].
  pose proof (cadence_zero_final_only (thread five_steps never_aborted 0)
                world0 Hrate) as Hrun.
  destruct (FitDriver.fit (run_driver (thread five_steps never_aborted 0) world0)
              (run_start (thread five_steps never_aborted 0) world0))
    as [[[ms k] xfx] w2|e w2] eqn:Eq.
  - destruct Hrun as (during & finals & before & after & final_evt & w'
                      & Hret & _ & Hlog & _ & Hd & _ & _ & _ & _ & Hf
                      & Hpub & Hstep & _).
    exists (complete_event (thread five_steps never_aborted 0) k), w', final_evt.
    split; [exact Hret|]. rewrite Hlog. change (log world0) with (@nil action).
    split; [|split; [exact Hpub | exact Hstep]].
    rewrite app_nil_l, !convergence_updates_app, Hd, Hf. reflexivity.
  - exfalso. vm_compute in Eq. discriminate Eq.
Defined.

(** C7 as stated fails: the completion event of the five-iteration job has
    no [step] entry. *)
Lemma complete_event_has_no_step :
  exists evt w',
    FitThread.run (thread five_steps never_aborted 0) world0 = Returns evt w'
    /\ published Complete (log w') = [evt]
    /\ evt !! "step" = None
    /\ (History.step <$> last (omap (fun st =>
          match st with
          | Fitter.Iterate it => Some (Fitter.history it)
          | Fitter.Throw _ => None
          end) five_steps)) = Some 5%Z.
Proof. eexists _, _. by vm_compute. Qed.

(** C9 as stated fails: the improvement event has a [problem] entry besides
    [message], [step], [value] and [point]. *)
Lemma improvement_event_has_problem :
  exists evt,
    published Progress
      (log (world_of (GUIProgressMonitor.show_improvement
                        (GUIProgressMonitor.init caller_problem None None)
                        (history 1 None None) world0)))
    = [evt]
    /\ evt !! "problem" = Some (VProblem caller_problem)
    /\ map fst (map_to_list evt)
       ≢ₚ ["message"; "step"; "value"; "point"].
Proof.
  eexists. split; [by vm_compute|]. split; [by vm_compute|].
  intros Hperm. apply Permutation_length in Hperm. vm_compute in Hperm.
  discriminate Hperm.
Qed.

End ConcreteJob.

(** * Further properties of the monitors *)

Section MonitorDetails.
Context {P U : Type} `{!Inhabited P, !Inhabited U, !Externals P}.




Lemma dream_not_due_when_rate_nonpositive (d : DreamMonitor.t P U) h :
  Float64.gtb (DreamMonitor.rate d) Float64.zero = false ->
  dream_due d h = false.
Proof. intros Hr. unfold dream_due, cadence_due. by rewrite Hr. Qed.

Lemma conv_silent (obs : list (World P U * History.t)) :
  forall c : ConvergenceMonitor.t,
    Float64.gtb (ConvergenceMonitor.rate c) Float64.zero = false ->
    emission_times ConvergenceMonitor.call c obs = [].
Proof.
  induction obs as [|[w h] obs IH]; intros c Hr; simpl; [done|].
  pose proof (conv_call_cases c h w) as Hc.
  destruct (ConvergenceMonitor.sample h) as [e|row]; [by rewrite Hc|].
  simpl in Hc. rewrite not_due_when_rate_nonpositive in Hc by done.
  rewrite Hc, Nat.ltb_irrefl. simpl. by apply IH.
Qed.

Lemma dream_silent (obs : list (World P U * History.t)) :
  forall d : DreamMonitor.t P U,
    Float64.gtb (DreamMonitor.rate d) Float64.zero = false ->
    emission_times DreamMonitor.call d obs = [].
Proof.
  induction obs as [|[w h] obs IH]; intros d Hr; simpl; [done|].
  pose proof (dream_call_cases d h w) as Hc.
  rewrite dream_not_due_when_rate_nonpositive in Hc by done.
  destruct (History.uncertainty_state h) as [st|]; rewrite Hc, Nat.ltb_irrefl;
    simpl; by apply IH.
Qed.

(** A rate that is not greater than zero (zero, negative or not a number)
    switches the updates off: whatever the histories, no call of
    [ConvergenceMonitor] or of [DreamMonitor] publishes anything (only
    [final()] does). *)
Theorem nonpositive_rate_is_silent (c : ConvergenceMonitor.t)
    (d : DreamMonitor.t P U) (obs : list (World P U * History.t)) :
  Float64.gtb (ConvergenceMonitor.rate c) Float64.zero = false ->
  Float64.gtb (DreamMonitor.rate d) Float64.zero = false ->
  emission_times ConvergenceMonitor.call c obs = []
  /\ emission_times DreamMonitor.call d obs = [].
Proof. intros Hc Hd. split; [by apply conv_silent | by apply dream_silent]. Qed.

End MonitorDetails.

(** * Further properties of the recorded tuple *)

Section QuantileDetails.

Lemma quantiles_at_indices (best : Q) (pop : list Q) :
  (0 < length pop)%nat -> (Z.of_nat (length pop) < 2 ^ 52)%Z ->
  exists p0 p20 p50 p80 p100,
    np_sort pop !! 0%nat = Some p0
    /\ np_sort pop !! (length pop / 5)%nat = Some p20
    /\ np_sort pop !! (length pop / 2)%nat = Some p50
    /\ np_sort pop !! (length pop - 1 - length pop / 5)%nat = Some p80
    /\ np_sort pop !! (length pop - 1)%nat = Some p100
    /\ ConvergenceMonitor.quantiles best pop
       = inr [best; p0; p20; p50; p80; p100].
Proof.
  intros Hpos Hn.
  pose proof (Permutation_length (np_sort_perm pop)) as Hlen.
  assert (ConvergenceMonitor.quantiles best pop
          = QI ← int_of_scaled Float64.lit_0_2 (Z.of_nat (length pop));
            Qmid ← int_of_scaled Float64.lit_0_5 (Z.of_nat (length pop));
            p0 ← getitem (np_sort pop) 0;
            pQI ← getitem (np_sort pop) QI;
            pQmid ← getitem (np_sort pop) Qmid;
            pQhi ← getitem (np_sort pop) (-1 - QI);
            plast ← getitem (np_sort pop) (-1);
            inr [best; p0; pQI; pQmid; pQhi; plast]) as Hdef by reflexivity.
  set (n := length pop) in *. set (sorted := np_sort pop) in *.
  clearbody n sorted.
  assert (forall k, (k < n)%nat -> is_Some (sorted !! k)) as Hget.
  { intros k Hk. apply lookup_lt_is_Some. lia. }
  assert (Z.of_nat (n / 5) = (Z.of_nat n / 5)%Z) as Hd5
    by apply (Nat2Z.inj_div n 5).
  assert (Z.of_nat (n / 2) = (Z.of_nat n / 2)%Z) as Hd2
    by apply (Nat2Z.inj_div n 2).
  assert (n / 5 < n)%nat as Hlt5 by (apply Nat.div_lt; lia).
  assert (n / 2 < n)%nat as Hlt2 by (apply Nat.div_lt; lia).
  destruct (Hget 0%nat) as [p0 Hp0]; [lia|].
  destruct (Hget (n / 5)%nat) as [p20 H20]; [lia|].
  destruct (Hget (n / 2)%nat) as [p50 H50]; [lia|].
  destruct (Hget (n - 1 - n / 5)%nat) as [p80 H80]; [lia|].
  destruct (Hget (n - 1)%nat) as [p100 H100]; [lia|].
  exists p0, p20, p50, p80, p100. do 5 (split; [done|]).
  rewrite Hdef. unfold int_of_scaled.
  rewrite int_of_0_2_times, int_of_0_5_times by lia. simpl.
  assert (getitem sorted 0 = inr p0) as ->
    by (apply (getitem_ok _ _ 0%nat); [done | lia]).
  assert (getitem sorted (Z.of_nat n / 5) = inr p20) as ->
    by (apply (getitem_ok _ _ (n / 5)%nat); [done | by left]).
  assert (getitem sorted (Z.of_nat n / 2) = inr p50) as ->
    by (apply (getitem_ok _ _ (n / 2)%nat); [done | by left]).
  assert (getitem sorted (-1 - Z.of_nat n / 5) = inr p80) as ->
    by (apply (getitem_ok _ _ (n - 1 - n / 5)%nat);
        [done | right; rewrite <- Hlen, <- Hd5; lia]).
  assert (getitem sorted (-1) = inr p100) as ->
    by (apply (getitem_ok _ _ (n - 1)%nat);
        [done | right; rewrite <- Hlen; lia]).
  reflexivity.
Qed.

Lemma sorted_lookup_le (l : list Q) :
  StronglySorted Qle l ->
  forall (i j : nat) (x y : Q),
    l !! i = Some x -> l !! j = Some y -> (i <= j)%nat -> (x <= y)%Q.
Proof.
  induction 1 as [|z l Hl IH Hz]; intros i j x y Hi Hj Hij; [done|].
  destruct i as [|i], j as [|j]; simpl in Hi, Hj; try lia.
  - injection Hi as <-. injection Hj as <-. apply Qle_refl.
  - injection Hi as <-.
    apply (proj1 (Forall_lookup _ _) Hz j y Hj).
  - apply (IH i j); [done..|lia].
Qed.

(** For a population of [n] values, [0 < n < 2^52], the five values that
    follow the best value in the recorded tuple are in ascending order, each
    of them is a value of the population, the first is a lower bound and the
    last an upper bound of the whole population. *)
Theorem quantiles_are_ordered (best : Q) (pop : list Q) :
  (0 < length pop)%nat -> (Z.of_nat (length pop) < 2 ^ 52)%Z ->
  exists lo q20 med q80 hi,
    ConvergenceMonitor.quantiles best pop = inr [best; lo; q20; med; q80; hi]
    /\ (lo <= q20)%Q /\ (q20 <= med)%Q /\ (med <= q80)%Q /\ (q80 <= hi)%Q
    /\ Forall (fun x => x ∈ pop) [lo; q20; med; q80; hi]
    /\ Forall (fun x => (lo <= x)%Q /\ (x <= hi)%Q) pop.
Proof.
  intros Hpos Hn.
  destruct (quantiles_at_indices best pop Hpos Hn)
    as (lo & q20 & med & q80 & hi & H0 & H20 & H50 & H80 & H100 & Hq).
  pose proof (np_sort_sorted pop) as Hsorted.
  pose proof (np_sort_perm pop) as Hperm.
  pose proof (Permutation_length Hperm) as Hlen.
  set (n := length pop) in *.
  pose proof (Nat.div_mod_eq n 5) as E5.
  pose proof (Nat.div_mod_eq n 2) as E2.
  pose proof (Nat.mod_upper_bound n 5 ltac:(lia)) as B5.
  pose proof (Nat.mod_upper_bound n 2 ltac:(lia)) as B2.
  exists lo, q20, med, q80, hi. split; [done|].
  split; [apply (sorted_lookup_le _ Hsorted _ _ _ _ H0 H20); lia|].
  split; [apply (sorted_lookup_le _ Hsorted _ _ _ _ H20 H50); lia|].
  split; [apply (sorted_lookup_le _ Hsorted _ _ _ _ H50 H80); lia|].
  split; [apply (sorted_lookup_le _ Hsorted _ _ _ _ H80 H100); lia|].
  split.
  - repeat constructor; rewrite Hperm; by eapply list_elem_of_lookup_2.
  - rewrite Hperm. apply Forall_lookup. intros k x Hk.
    pose proof (lookup_lt_Some _ _ _ Hk) as Hlt. split.
    + apply (sorted_lookup_le _ Hsorted _ _ _ _ H0 Hk). lia.
    + apply (sorted_lookup_le _ Hsorted _ _ _ _ Hk H100). lia.
Qed.

End QuantileDetails.

(** * Further properties of the chain and of the thread *)

Section HeapDetails.
Context {P U : Type} `{!Inhabited P, !Inhabited U, !Externals P}.

(** The monitors only read and copy: whatever a pass over a chain of
    monitors or a call of [final()] does, whether it returns or raises, the
    problem objects are as they were, and every point array and every
    sampler state that existed before is still there with the contents it
    had. What a monitor publishes are references to the copies it allocated. *)
Theorem monitors_only_copy (ms : list (Monitor P U)) (m : Monitor P U)
    (h : History.t) (w : World P U) :
  let w1 := world_of (call_all ms h w) in
  let w2 := world_of (Monitor_final m w) in
  (problems w1 = problems w
   /\ (forall l a, arrays w !! l = Some a -> arrays w1 !! l = Some a)
   /\ (forall l s, states w !! l = Some s -> states w1 !! l = Some s))
  /\ (problems w2 = problems w
      /\ (forall l a, arrays w !! l = Some a -> arrays w2 !! l = Some a)
      /\ (forall l s, states w !! l = Some s -> states w2 !! l = Some s)).
Proof.
  intros w1 w2.
  destruct (heap_kept_call_all ms h w) as (Hp1 & Ha1 & Hs1).
  destruct (heap_kept_Monitor_final m w) as (Hp2 & Ha2 & Hs2).
  repeat split; try done; intros l x Hx;
    by eapply lookup_weaken.
Qed.

End HeapDetails.

Section ProblemSteps.
Context {P U : Type} `{!Inhabited P, !Inhabited U, !Externals P}.
Variable p : loc.

Lemma convergence_event_problem (c : ConvergenceMonitor.t) :
  convergence_event c !! "problem"
  = Some (VProblem (ConvergenceMonitor.problem c)).
Proof. reflexivity. Qed.

Lemma uncertainty_event_problem (kind : string) (q st : loc) :
  uncertainty_event kind q st !! "problem" = Some (VProblem q).
Proof. reflexivity. Qed.

Lemma complete_event_problem (self : FitThread.t P U) (k : nat) :
  complete_event self k !! "problem"
  = Some (VProblem (FitThread.problem self)).
Proof. reflexivity. Qed.

#[local] Instance about_problem_refl :
  Reflexive (about_problem (P:=P) (U:=U) p).
Proof. intros w. exists []. by rewrite app_nil_r. Qed.

#[local] Instance about_problem_trans :
  Transitive (about_problem (P:=P) (U:=U) p).
Proof.
  intros w1 w2 w3 (d1 & E1 & Q1) (d2 & E2 & Q2). exists (d1 ++ d2).
  split; [by rewrite E2, E1, app_assoc | by apply Forall_app].
Qed.

Lemma about_problem_same_log {A} (m : M P U A) :
  (forall w, log (world_of (m w)) = log w) ->
  preserves (about_problem p) m.
Proof. intros Hm w. exists []. by rewrite app_nil_r. Qed.

Lemma about_problem_send (e : event) :
  names_problem p (Put Progress e) ->
  preserves (about_problem (P:=P) (U:=U) p) (send_progress e).
Proof.
  intros He w. rewrite send_progress_eq. eexists; split; [done|].
  by repeat constructor.
Qed.

Lemma about_problem_gui_call (g : GUIProgressMonitor.t P) h :
  GUIProgressMonitor.problem g = p ->
  preserves (U:=U) (about_problem p) (GUIProgressMonitor.call g h).
Proof.
  intros Hg. unfold GUIProgressMonitor.call.
  destruct (TimedUpdate_call _ _) as [[base' progress_due] improvement_due].
  apply preserves_bind; [apply _ | | intros _].
  { destruct progress_due; [|apply preserves_ret, _].
    unfold GUIProgressMonitor.show_progress.
    apply preserves_bind;
      [apply _ | by apply about_problem_same_log | intros w].
    destruct (nllf_scale _) as [scale err].
    apply preserves_bind;
      [apply _ | by apply about_problem_same_log | intros pt].
    by apply about_problem_send. }
  apply preserves_bind; [apply _ | | intros _; apply preserves_ret, _].
  destruct improvement_due; [|apply preserves_ret, _].
  unfold GUIProgressMonitor.show_improvement.
  apply preserves_bind; [apply _ | by apply about_problem_same_log | intros pt].
  apply about_problem_send. simpl. by rewrite Hg.
Qed.

Lemma about_problem_conv_call (c : ConvergenceMonitor.t) h :
  ConvergenceMonitor.problem c = p ->
  preserves (P:=P) (U:=U) (about_problem p) (ConvergenceMonitor.call c h).
Proof.
  intros Hp w. pose proof (conv_call_cases c h w) as Hc.
  destruct (ConvergenceMonitor.sample h) as [e|row]; [rewrite Hc; reflexivity|].
  simpl in Hc. destruct (convergence_due c h); rewrite Hc; [|reflexivity].
  eexists; split; [done|]. repeat constructor.
  unfold names_problem. rewrite convergence_event_problem. simpl.
  by rewrite Hp.
Qed.

Lemma about_problem_dream_call (d : DreamMonitor.t P U) h :
  DreamMonitor.problem d = p ->
  preserves (about_problem p) (DreamMonitor.call d h).
Proof.
  intros Hp w. pose proof (dream_call_cases d h w) as Hc.
  destruct (History.uncertainty_state h) as [st|];
    [destruct (dream_due d h)|]; simpl in Hc; rewrite Hc; try reflexivity.
  eexists; split; [done|]. repeat constructor.
  unfold names_problem. rewrite uncertainty_event_problem. by rewrite Hp.
Qed.

Lemma about_problem_Monitor_call (m : Monitor P U) h :
  Monitor_problem m = p -> preserves (about_problem p) (Monitor_call m h).
Proof.
  destruct m as [g|c|d]; intros Hq; simpl;
    (apply preserves_bind; [apply _ | | intros ?; apply preserves_ret, _]).
  - by apply about_problem_gui_call.
  - by apply about_problem_conv_call.
  - by apply about_problem_dream_call.
Qed.

Lemma about_problem_call_all (ms : list (Monitor P U)) h :
  Forall (fun m => Monitor_problem m = p) ms ->
  preserves (about_problem p) (call_all ms h).
Proof.
  induction 1 as [|m ms Hm _ IH]; simpl; [apply preserves_ret, _|].
  apply preserves_bind;
    [apply _ | by apply about_problem_Monitor_call | intros m'].
  apply preserves_bind; [apply _ | apply IH | intros ms'].
  apply preserves_ret, _.
Qed.
End ProblemSteps.

Section RunDetails.
Context {P U : Type} `{!Inhabited P, !Inhabited U, !Externals P}.
Local Arguments send_progress : simpl never.

Lemma gui_call_problem (g g' : GUIProgressMonitor.t P) h (w w' : World P U) :
  GUIProgressMonitor.call g h w = Returns g' w' ->
  GUIProgressMonitor.problem g' = GUIProgressMonitor.problem g.
Proof.
  unfold GUIProgressMonitor.call.
  destruct (TimedUpdate_call _ _) as [[base' progress_due] improvement_due].
  unfold bind, GUIProgressMonitor.show_progress,
    GUIProgressMonitor.show_improvement, bind, get_world, copy_point, ret.
  destruct progress_due, improvement_due;
    try destruct (nllf_scale (problems w !!! _)) as [scale err];
    rewrite ?send_progress_eq; by intros [= <- _].
Qed.

(** A call leaves a monitor with the problem it was constructed with. *)
Lemma Monitor_call_problem (m m' : Monitor P U) h w w' :
  Monitor_call m h w = Returns m' w' ->
  Monitor_problem m' = Monitor_problem m.
Proof.
  destruct m as [g|c|d]; simpl; unfold bind.
  - destruct (GUIProgressMonitor.call g h w) as [g1 w1|] eqn:Hg; [|done].
    intros [= <- _]. simpl. by eapply gui_call_problem.
  - pose proof (conv_call_cases c h w) as Hc.
    destruct (ConvergenceMonitor.sample h) as [e|row]; [by rewrite Hc|].
    simpl in Hc. destruct (convergence_due c h); rewrite Hc; by intros [= <- _].
  - pose proof (dream_call_cases d h w) as Hc.
    destruct (History.uncertainty_state h) as [st|];
      [destruct (dream_due d h)|]; simpl in Hc; rewrite Hc; by intros [= <- _].
Qed.

Lemma call_all_problems (ms : list (Monitor P U)) h :
  forall ms' w w',
    call_all ms h w = Returns ms' w' ->
    map Monitor_problem ms' = map Monitor_problem ms.
Proof.
  induction ms as [|m ms IH]; intros ms' w w'; simpl.
  - by intros [= <- _].
  - unfold bind. destruct (Monitor_call m h w) as [m1 w1|] eqn:Hm; [|done].
    destruct (call_all ms h w1) as [ms1 w2|] eqn:Hms; [|done].
    intros [= <- _]. simpl. f_equal; [by eapply Monitor_call_problem|].
    by eapply IH.
Qed.

Lemma watching_map (p : loc) (ms : list (Monitor P U)) :
  Forall (fun m => Monitor_problem m = p) ms
  <-> Forall (fun q => q = p) (map Monitor_problem ms).
Proof. by rewrite Forall_fmap. Qed.

Lemma about_problem_fit_loop (p : loc) (drv : FitDriver.t P U) steps :
  forall k ms,
    Forall (fun m => Monitor_problem m = p) ms ->
    preserves (about_problem p) (FitDriver.fit_loop drv steps k ms).
Proof.
  induction steps as [|[it|e] steps IH]; intros k ms Hq; simpl.
  - apply preserves_ret, about_problem_refl.
  - apply preserves_bind;
      [apply about_problem_trans | by apply about_problem_same_log
      | intros _].
    intros w. unfold bind.
    pose proof (about_problem_call_all p ms (Fitter.history it) Hq w) as Hstep.
    destruct (call_all ms (Fitter.history it) w) as [ms1 w1|e w1] eqn:Hc;
      [|exact Hstep].
    apply call_all_problems in Hc.
    destruct (FitDriver.abort_test drv k); [exact Hstep|].
    eapply about_problem_trans; [exact Hstep|]. apply IH.
    apply watching_map. rewrite Hc. by apply watching_map.
  - apply preserves_raise, about_problem_refl.
Qed.

Lemma fit_loop_problems (drv : FitDriver.t P U) steps :
  forall k ms ms' k' w w',
    FitDriver.fit_loop drv steps k ms w = Returns (ms', k') w' ->
    map Monitor_problem ms' = map Monitor_problem ms.
Proof.
  induction steps as [|[it|e] steps IH]; intros k ms ms' k' w w'; simpl.
  - by intros [= <- _ _].
  - unfold bind at 1. unfold bind at 1. unfold FitDriver.iterate at 1.
    destruct (call_all ms (Fitter.history it) _) as [ms1 w1|] eqn:Hc; [|done].
    apply call_all_problems in Hc.
    destruct (FitDriver.abort_test drv k).
    + by intros [= <- _ _].
    + intros Hrest. apply IH in Hrest. congruence.
  - done.
Qed.

(** Every event that [run] publishes with a [problem] entry, on either
    queue and from any monitor, refers to the problem object the caller
    handed to the thread, never to the copy that the fit works on. This
    holds whether [run] returns or raises. *)
Theorem run_events_name_callers_problem (self : FitThread.t P U)
    (w : World P U) :
  exists d,
    log (world_of (FitThread.run self w)) = log w ++ d
    /\ Forall (names_problem (FitThread.problem self)) d
    /\ (is_Some (problems w !! FitThread.problem self) ->
        forall e c, Put c e ∈ d ->
          e !! "problem" <> Some (VProblem (fresh (dom (problems w))))).
Proof.
  set (p := FitThread.problem self).
  assert (exists d, log (world_of (FitThread.run self w)) = log w ++ d
                    /\ Forall (names_problem p) d) as (d & Hlog & Hd).
  { pose proof (run_cases self w) as Hrun.
    assert (Forall (fun m : Monitor P U => Monitor_problem m = p)
              (FitDriver.monitors (run_driver self w))) as Hwatch
      by (by repeat constructor).
    pose proof (about_problem_fit_loop p (run_driver self w)
                  (Fitter.steps (FitThread.fitclass self)) 0 _ Hwatch
                  (run_start self w)) as (d1 & Hd1 & Hn1).
    unfold FitDriver.fit, bind in Hrun.
    change (Fitter.steps (FitDriver.fitclass (run_driver self w)))
      with (Fitter.steps (FitThread.fitclass self)) in Hrun.
    destruct (FitDriver.fit_loop _ _ _ _ _) as [[ms k] w2|e w2] eqn:Hloop.
    - unfold ret in Hrun.
      destruct Hrun as (g & c & d & w3 & -> & _ & _ & -> & Hlog & _).
      apply fit_loop_problems in Hloop. simpl in Hloop.
      injection Hloop as Hg Hc Hdp. simpl in Hd1 |- *.
      exists (d1 ++ finals_log c d w2
              ++ [Put Complete (complete_event self k); Wake Complete]).
      split; [by rewrite Hlog, Hd1, <- app_assoc|].
      apply Forall_app; split; [done|]. apply Forall_app; split.
      + unfold finals_log.
        destruct TimedUpdate_has_final;
          destruct (DreamMonitor.uncertainty_state d); simpl;
          repeat (apply List.Forall_cons); try apply List.Forall_nil;
          unfold names_problem;
          rewrite ?convergence_event_problem, ?uncertainty_event_problem,
            ?Hc, ?Hdp; done.
      + repeat (apply List.Forall_cons); try apply List.Forall_nil;
          unfold names_problem; by rewrite ?complete_event_problem.
    - rewrite Hrun. exists d1. by split. }
  exists d. split; [done|]. split; [done|].
  intros Hlive e c Hin He.
  pose proof (proj1 (Forall_forall _ _) Hd _ Hin) as Hn. simpl in Hn.
  rewrite He in Hn. injection Hn as Heq.
  apply (is_fresh (dom (problems w))). rewrite Heq. by apply elem_of_dom.
Qed.

(** What the chain of [run] looks like when the loop of the fit returns:
    the convergence monitor has recorded one tuple per iteration done. *)
Lemma fit_loop_samples (drv : FitDriver.t P U) steps :
  forall k g c d ms' k' w w',
    FitDriver.fit_loop drv steps k [MGui g; MConv c; MDream d] w
    = Returns (ms', k') w' ->
    exists g' c' d' rows,
      ms' = [MGui g'; MConv c'; MDream d']
      /\ k' = (k + length rows)%nat
      /\ Forall2 (fun h row => ConvergenceMonitor.sample h = inr row)
           (shown (take (length rows) steps)) rows
      /\ (length rows <= length steps)%nat
      /\ ConvergenceMonitor.pop c' = ConvergenceMonitor.pop c ++ rows.
Proof.
  induction steps as [|[it|e] steps IH]; intros k g c d ms' k' w w'.
  - simpl. intros [= <- <- _]. exists g, c, d, [].
    rewrite app_nil_r, Nat.add_0_r. repeat split; try done; constructor.
  - cbn [FitDriver.fit_loop]. unfold bind at 1. unfold bind at 1.
    unfold FitDriver.iterate at 1.
    set (w1 := Build_World _ _ _ _ _ _).
    cbn [call_all Monitor_call]. unfold bind at 1. unfold bind at 1.
    destruct (gui_call_returns g (Fitter.history it) w1) as (g1 & w2 & ->).
    unfold ret at 1. cbv beta iota.
    unfold bind at 1. unfold bind at 1. unfold bind at 1.
    pose proof (conv_call_cases c (Fitter.history it) w2) as Hc.
    destruct (ConvergenceMonitor.sample (Fitter.history it)) as [e|row] eqn:Hs;
      [by rewrite Hc|].
    simpl in Hc.
    assert (exists c1 w3,
      ConvergenceMonitor.call c (Fitter.history it) w2 = Returns c1 w3
      /\ ConvergenceMonitor.pop c1 = ConvergenceMonitor.pop c ++ [row])
      as (c1 & w3 & -> & Hpop)
      by (destruct (convergence_due c (Fitter.history it)); eauto).
    unfold ret at 1. cbv beta iota.
    unfold bind at 1. unfold bind at 1. unfold bind at 1.
    pose proof (dream_call_cases d (Fitter.history it) w3) as Hd.
    assert (exists d1 w4,
      DreamMonitor.call d (Fitter.history it) w3 = Returns d1 w4)
      as (d1 & w4 & ->).
    { destruct (History.uncertainty_state (Fitter.history it));
        [destruct (dream_due d (Fitter.history it))|]; simpl in Hd; eauto. }
    unfold ret at 1. cbv beta iota. unfold ret at 1. cbv beta iota.
    unfold ret at 1. cbv beta iota. unfold ret at 1. cbv beta iota.
    destruct (FitDriver.abort_test drv k).
    + intros [= <- <- _]. exists g1, c1, d1, [row]. simpl.
      split; [done|]. split; [lia|]. split; [by repeat constructor|].
      split; [lia|done].
    + intros Hrest.
      destruct (IH _ _ _ _ _ _ _ _ Hrest)
        as (g' & c' & d' & rows & -> & -> & Hrows & Hlen & Hpop').
      exists g', c', d', (row :: rows). simpl.
      split; [done|]. split; [lia|]. split; [by constructor|].
      split; [lia|]. by rewrite Hpop', Hpop, <- app_assoc.
  - done.
Qed.

Lemma last_convergence_update (c : ConvergenceMonitor.t)
    (d : DreamMonitor.t P U) (w : World P U) during tail :
  ConvergenceMonitor.message c = "convergence_update" ->
  convergence_updates tail = [] ->
  last (convergence_updates (during ++ finals_log c d w ++ tail))
  = Some (convergence_event c).
Proof.
  intros Hm Ht.
  rewrite !convergence_updates_app, Ht, app_nil_r.
  rewrite (finals_log_convergence c d w Hm). apply last_snoc.
Qed.

(** When [run] returns after [k] iterations, the last [convergence_update]
    event it has published carries one tuple per iteration done, oldest
    first: the tuple of the [i]-th row is the sample of the [i]-th history
    the fitter produced. A fit that did no iteration publishes the empty
    [(0, 1)] array. The completion event reports the same [k]. *)
Theorem final_payload_covers_the_fit (self : FitThread.t P U)
    (w w' : World P U) (evt : event) :
  FitThread.run self w = Returns evt w' ->
  exists rows d final_evt,
    evt = complete_event self (length rows)
    /\ (length rows <= length (Fitter.steps (FitThread.fitclass self)))%nat
    /\ Forall2 (fun h row => ConvergenceMonitor.sample h = inr row)
         (shown (take (length rows)
                   (Fitter.steps (FitThread.fitclass self)))) rows
    /\ log w' = log w ++ d
    /\ last (convergence_updates d) = Some final_evt
    /\ final_evt !! "pop"
       = Some (VNdarray match rows with
                        | [] => np_empty_0_1
                        | _ :: _ => np_array rows
                        end).
Proof.
  intros Hret. pose proof (run_cases self w) as Hrun.
  pose proof (chain_step_fit (run_driver self w) (run_start self w))
    as [(d1 & Hd1 & _) _].
  unfold FitDriver.fit, bind in Hrun, Hd1.
  change (Fitter.steps (FitDriver.fitclass (run_driver self w)))
    with (Fitter.steps (FitThread.fitclass self)) in Hrun, Hd1.
  destruct (FitDriver.fit_loop _ _ _ _ _) as [[ms k] w2|e w2] eqn:Hloop;
    [|by rewrite Hrun in Hret].
  unfold ret in Hrun, Hd1. simpl in Hd1.
  destruct Hrun as (g & c & d & w3 & -> & _ & Hmsg & Hrun & Hlog & _).
  rewrite Hrun in Hret. injection Hret as <- <-.
  apply fit_loop_samples in Hloop
    as (g' & c' & d' & rows & [= <- <- <-] & -> & Hrows & Hlen & Hpop).
  simpl in Hpop.
  exists rows,
    (d1 ++ finals_log c d w2
     ++ [Put Complete (complete_event self (length rows)); Wake Complete]),
    (convergence_event c).
  split; [done|]. split; [done|]. split; [done|].
  split; [by rewrite Hlog, Hd1, <- app_assoc|].
  split; [by apply last_convergence_update|].
  unfold convergence_event, ConvergenceMonitor.progress. rewrite Hpop.
  by destruct rows.
Qed.

(** An empty population is not covered by the fallback for fitters without
    a population: indexing the sorted values raises [IndexError], which only
    an [except AttributeError] guards. So the monitor raises without
    recording or publishing anything, and a fit whose first iteration shows
    an empty population makes [run] raise [IndexError]: no completion event
    is put on the queue and no [final()] is called. *)
Theorem empty_population_fails_the_fit (self : FitThread.t P U)
    (w : World P U) (it : Fitter.Iteration P U)
    (rest : list (Fitter.Step P U)) :
  Fitter.steps (FitThread.fitclass self) = Fitter.Iterate it :: rest ->
  History.population_values (Fitter.history it) = Some [] ->
  (forall (c : ConvergenceMonitor.t) (w0 : World P U),
      ConvergenceMonitor.call c (Fitter.history it) w0 = Raises IndexError w0)
  /\ exists w' d,
       FitThread.run self w = Raises IndexError w'
       /\ log w' = log w ++ d
       /\ published Complete d = []
       /\ finalized d = [].
Proof.
  intros Hsteps Hpop.
  assert (ConvergenceMonitor.sample (Fitter.history it) = inl IndexError)
    as Hs by (unfold ConvergenceMonitor.sample; by rewrite Hpop).
  assert (forall (c : ConvergenceMonitor.t) (w0 : World P U),
    ConvergenceMonitor.call c (Fitter.history it) w0 = Raises IndexError w0)
    as Hcall.
  { intros c w0. pose proof (conv_call_cases c (Fitter.history it) w0) as Hc.
    by rewrite Hs in Hc. }
  split; [done|].
  pose proof (run_cases self w) as Hrun.
  pose proof (chain_step_fit (run_driver self w) (run_start self w))
    as [(d1 & Hd1 & _ & Hpub & Hfin) _].
  unfold FitDriver.fit, bind in Hrun, Hd1.
  change (Fitter.steps (FitDriver.fitclass (run_driver self w)))
    with (Fitter.steps (FitThread.fitclass self)) in Hrun, Hd1.
  rewrite Hsteps in Hrun, Hd1.
  cbn [FitDriver.fit_loop] in Hrun, Hd1.
  unfold bind at 1 in Hrun. unfold bind at 1 in Hrun.
  unfold bind at 1 in Hd1. unfold bind at 1 in Hd1.
  unfold FitDriver.iterate at 1 in Hrun. unfold FitDriver.iterate at 1 in Hd1.
  change (FitDriver.monitors (run_driver self w))
    with [MGui (GUIProgressMonitor.init (FitThread.problem self) None None);
          MConv (ConvergenceMonitor.init (FitThread.problem self)
                   "convergence_update" (FitThread.convergence_update self));
          MDream (DreamMonitor.init (FitThread.problem self)
                    "uncertainty_update" (FitThread.fitclass self)
                    (FitThread.uncertainty_update self))] in Hrun, Hd1.
  cbn [call_all Monitor_call] in Hrun, Hd1.
  unfold bind at 1 in Hrun. unfold bind at 1 in Hrun.
  unfold bind at 1 in Hd1. unfold bind at 1 in Hd1.
  match type of Hrun with
  | context [GUIProgressMonitor.call ?g ?h ?w1] =>
      destruct (gui_call_returns g h w1) as (g1 & w2 & Hg)
  end.
  rewrite Hg in Hrun, Hd1. unfold ret at 1 in Hrun. unfold ret at 1 in Hd1.
  cbv beta iota in Hrun, Hd1.
  unfold bind at 1 in Hrun. unfold bind at 1 in Hrun. unfold bind at 1 in Hrun.
  unfold bind at 1 in Hd1. unfold bind at 1 in Hd1. unfold bind at 1 in Hd1.
  rewrite Hcall in Hrun, Hd1. simpl in Hd1.
  exists w2, d1. by rewrite Hrun.
Qed.


(** The monitors read from the history what [config_history] asks it to
    keep: a call of [ConvergenceMonitor] depends on the history only through
    the traces [population_values], [value] and [time] that it requires, and
    a call of [DreamMonitor] only through [time] and the optional attribute
    [uncertainty_state], which it reads without requiring it. *)
Theorem calls_read_required_traces (h h' : History.t)
    (c : ConvergenceMonitor.t) (d : DreamMonitor.t P U) (w : World P U) :
  (agree_on (required config_history.ConvergenceMonitor) h h' ->
   ConvergenceMonitor.call c h w = ConvergenceMonitor.call c h' w)
  /\ (agree_on (required config_history.DreamMonitor) h h' ->
      History.uncertainty_state h = History.uncertainty_state h' ->
      DreamMonitor.call d h w = DreamMonitor.call d h' w).
Proof.
  split.
  - intros Hagree. unfold agree_on, required in Hagree. simpl in Hagree.
    inversion Hagree as [|? ? Hpop H1]; subst.
    inversion H1 as [|? ? Hval H2]; subst.
    inversion H2 as [|? ? Htime _]; subst.
    injection Hpop as Hpop. injection Hval as Hval. injection Htime as Htime.
    unfold ConvergenceMonitor.call, ConvergenceMonitor.record_sample,
      ConvergenceMonitor.sample.
    by rewrite Hpop, Hval, Htime.
  - intros Hagree Hst. unfold agree_on, required in Hagree. simpl in Hagree.
    inversion Hagree as [|? ? Htime _]; subst. injection Htime as Htime.
    unfold DreamMonitor.call. simpl. by rewrite Hst, Htime.
Qed.

End RunDetails.

(** * The further properties on a concrete job *)

Section ConcreteDetails.
Import Toy.

Lemma nonpositive_rate_is_silent_witness :
  let c := ConvergenceMonitor.init caller_problem "convergence_update"
             Float64.zero in
  let d := DreamMonitor.init caller_problem "uncertainty_update"
             (fitter five_steps) (Float64.of_int (-1)) in
  let obs := map (fun h => (world0, h)) (population_histories
                                          ++ sampler_histories) in
  Float64.gtb (ConvergenceMonitor.rate c) Float64.zero = false
  /\ Float64.gtb (DreamMonitor.rate d) Float64.zero = false
  /\ emission_times ConvergenceMonitor.call c obs = []
  /\ emission_times DreamMonitor.call d obs = [].
Proof.
  intros c d obs. split; [reflexivity|]. split; [reflexivity|].
  apply (nonpositive_rate_is_silent c d obs); reflexivity.
Defined.

Lemma quantiles_are_ordered_witness :
  (0 < length population)%nat
  /\ (Z.of_nat (length population) < 2 ^ 52)%Z
  /\ exists lo q20 med q80 hi,
       ConvergenceMonitor.quantiles 0 population
       = inr [0%Q; lo; q20; med; q80; hi]
       /\ (lo <= q20)%Q /\ (q20 <= med)%Q /\ (med <= q80)%Q /\ (q80 <= hi)%Q
       /\ Forall (fun x => x ∈ population) [lo; q20; med; q80; hi]
       /\ Forall (fun x => (lo <= x)%Q /\ (x <= hi)%Q) population.
Proof.
  assert (0 < length population)%nat as Hpos by (simpl; lia).
  assert (Z.of_nat (length population) < 2 ^ 52)%Z as Hlt by reflexivity.
  split; [exact Hpos|]. split; [exact Hlt|].
  exact (quantiles_are_ordered 0%Q population Hpos Hlt).
Defined.

Lemma five_steps_run_returns :
  exists evt w',
    FitThread.run (thread five_steps (abort_during 3) 2) world0
    = Returns evt w'.
Proof. eexists _, _. vm_compute. reflexivity. Qed.

(** The caller asks for an abort during the third iteration: the last
    update carries three rows. *)
Lemma final_payload_covers_the_fit_witness :
  exists evt w' rows d final_evt,
    FitThread.run (thread five_steps (abort_during 3) 2) world0
    = Returns evt w'
    /\ evt = complete_event (thread five_steps (abort_during 3) 2) (length rows)
    /\ Forall2 (fun h row => ConvergenceMonitor.sample h = inr row)
         (shown (take (length rows) five_steps)) rows
    /\ log w' = log world0 ++ d
    /\ last (convergence_updates d) = Some final_evt
    /\ final_evt !! "pop"
       = Some (VNdarray match rows with
                        | [] => np_empty_0_1
                        | _ :: _ => np_array rows
                        end).
Proof.
  destruct five_steps_run_returns as (evt & w' & Hrun).
  destruct (final_payload_covers_the_fit _ _ _ _ Hrun)
    as (rows & d & final_evt & He & _ & Hrows & Hlog & Hlast & Hpop).
  exists evt, w', rows, d, final_evt. auto 10.
Defined.

Lemma empty_population_fails_the_fit_witness :
  let job := thread [Fitter.Iterate empty_iteration] never_aborted 5 in
  Fitter.steps (FitThread.fitclass job) = [Fitter.Iterate empty_iteration]
  /\ History.population_values (Fitter.history empty_iteration) = Some []
  /\ exists w' d,
       FitThread.run job world0 = Raises IndexError w'
       /\ log w' = log world0 ++ d
       /\ published Complete d = []
       /\ finalized d = [].
Proof.
  intros job. split; [reflexivity|]. split; [reflexivity|].
  exact (proj2 (empty_population_fails_the_fit job world0 empty_iteration []
                  eq_refl eq_refl)).
Defined.

(** Two histories that differ in step and point only. *)
Lemma calls_read_required_traces_witness :
  let h := history 1 (Some population) (Some sampler) in
  let h' := {| History.step := 7;
               History.value := History.value h;
               History.point := sampler;
               History.population_values := History.population_values h;
               History.time := History.time h;
               History.uncertainty_state := History.uncertainty_state h |} in
  let c := ConvergenceMonitor.init caller_problem "convergence_update"
             (Float64.of_int 1) in
  let d := DreamMonitor.init caller_problem "uncertainty_update"
             (fitter five_steps) (Float64.of_int 1) in
  h <> h'
  /\ ConvergenceMonitor.call c h world0 = ConvergenceMonitor.call c h' world0
  /\ DreamMonitor.call d h world0 = DreamMonitor.call d h' world0.
Proof.
  intros h h' c d. split; [discriminate|].
  destruct (calls_read_required_traces h h' c d world0) as [Hc Hd].
  split; [apply Hc | apply Hd]; try reflexivity; by repeat constructor.
Defined.

End ConcreteDetails.

(** * bumps.util: properties of the context managers *)

Section PathManager.
Import Util Util.push_python_path.

Lemma exit_after_append (self : t) (l : list string) (q : string) :
  exit self (l ++ [q]) = Done false l.
Proof.
  unfold exit. destruct (l ++ [q]) as [|x l'] eqn:El.
  - by destruct l.
  - by rewrite <- El, removelast_last.
Qed.

(** [with push_python_path(p): body] runs the body with [p] appended to
    [sys.path]; when the body leaves [sys.path] as it found it, the
    statement leaves [sys.path] as it was before, whether the body returns
    or raises, and an exception of the body is not swallowed. *)
Theorem push_python_path_round_trip {A} (p : string)
    (body : IO (list string) A) (sys_path : list string) :
  state_of (body (sys_path ++ [p])) = sys_path ++ [p] ->
  with_ (enter (init p)) (exit (init p)) (fun _ => body) sys_path
  = match body (sys_path ++ [p]) with
    | Done a _ => Done (Some a) sys_path
    | Failed e _ => Failed e sys_path
    end.
Proof.
  intros Hbody. unfold with_, enter. simpl.
  destruct (body (sys_path ++ [p])) as [a l|e l]; simpl in Hbody; subst l;
    by rewrite exit_after_append.
Qed.

(** [__exit__] deletes whatever is last in [sys.path], not the entry that
    [__enter__] appended: after a body that appends an entry of its own and
    leaves it there, [p] stays in [sys.path]; after a body that empties
    [sys.path], the statement raises [IndexError] in place of whatever the
    body did. *)
Theorem push_python_path_deletes_last_entry {A} (p : string)
    (body : IO (list string) A) (sys_path : list string) :
  let after_body := state_of (body (sys_path ++ [p])) in
  let outcome :=
    with_ (enter (init p)) (exit (init p)) (fun _ => body) sys_path in
  state_of outcome = removelast after_body
  /\ (after_body = [] -> outcome = Failed PyIndexError [])
  /\ (forall q, after_body = sys_path ++ [p; q] ->
        state_of outcome = sys_path ++ [p]).
Proof.
  intros after_body outcome.
  assert (state_of outcome = removelast after_body
          /\ (after_body = [] -> outcome = Failed PyIndexError [])) as [H1 H2].
  { subst after_body outcome. unfold with_, enter. simpl.
    destruct (body (sys_path ++ [p])) as [a l|e l]; simpl;
      destruct l as [|x l]; simpl; by split. }
  split; [done|]. split; [done|]. intros q Hq. rewrite H1, Hq.
  change (sys_path ++ [p; q]) with (sys_path ++ ([p] ++ [q])).
  by rewrite app_assoc, removelast_last.
Qed.

End PathManager.

Section DirManager.
Import Util Util.pushdir.

(** [with self: body], for a [pushdir] object whose target exists: the body
    runs in the target directory, and if the directory the statement was
    entered from still exists when the body is done, the working directory
    is that directory again, whatever the body changed to and whether it
    returned or raised; an exception of the body is not swallowed. *)
Theorem pushdir_restores {A} (self : t) (body : IO Dirs A) (os : Dirs) :
  let inside := {| cwd := path self; directories := directories os |} in
  let entered := {| path := path self; _cwd := Some (cwd os) |} in
  path self ∈ directories os ->
  cwd os ∈ directories (state_of (body inside)) ->
  with_ enter exit (fun _ => beside body) (os, self)
  = match body inside with
    | Done a os' =>
        Done (Some a)
             ({| cwd := cwd os; directories := directories os' |}, entered)
    | Failed e os' =>
        Failed e ({| cwd := cwd os; directories := directories os' |}, entered)
    end.
Proof.
  intros inside entered Hpath Hback.
  unfold with_, enter, chdir. simpl. rewrite decide_True by done.
  fold inside. unfold beside. simpl.
  destruct (body inside) as [a os'|e os']; simpl in Hback |- *;
    unfold chdir; by rewrite decide_True.
Qed.

(** When the target is not a directory, [__enter__] raises [OSError]: the
    body does not run and the working directory is unchanged. *)
Theorem pushdir_missing_target {A} (self : t) (body : unit -> IO (Dirs * t) A)
    (os : Dirs) :
  path self ∉ directories os ->
  with_ enter exit body (os, self)
  = Failed PyOSError (os, {| path := path self; _cwd := Some (cwd os) |}).
Proof.
  intros Hpath. unfold with_, enter, chdir. simpl.
  by rewrite decide_False.
Qed.

(** A [pushdir] object keeps one saved directory, not a stack: when the
    statement is nested in itself on the same object, the inner
    [__enter__] overwrites what the outer one saved, and the process is
    left in the target directory, not in the directory it started from. *)
Theorem pushdir_is_not_reentrant {A} (self : t) (body : IO Dirs A)
    (os : Dirs) :
  let inside := {| cwd := path self; directories := directories os |} in
  path self ∈ directories os ->
  path self ∈ directories (state_of (body inside)) ->
  cwd (state_of
         (with_ enter exit
            (fun _ => with_ enter exit (fun _ => beside body)) (os, self))).1
  = path self.
Proof.
  intros inside Hpath Hstill.
  unfold with_ at 1. unfold enter at 1. unfold chdir at 1. simpl.
  rewrite decide_True by done. fold inside.
  unfold with_, enter, chdir. simpl. rewrite decide_True by done.
  fold inside. unfold beside. simpl.
  destruct (body inside) as [a os'|e os']; simpl in Hstill |- *;
    unfold chdir at 1; rewrite decide_True by done; simpl;
    unfold exit, chdir; simpl; by rewrite decide_True.
Qed.

End DirManager.

Section SeedManager.
Import Util Util.push_seed.
Context {G : Type} (seeded : Z -> G).

(** [p = push_seed(seed)] seeds the generator when the object is
    constructed, not when the statement is entered: code that runs between
    the two starts from the seeded state, and the body of [with p:] starts
    from whatever state that code has left. When the statement ends, the
    generator is back in the state it had before [p] was constructed,
    whether the body returned or raised, and the exception of the body is
    not swallowed. *)
Theorem push_seed_restores {A B} (seed : Z) (between : IO G B)
    (body : IO G A) (g : G) :
  io_bind (init seeded seed)
    (fun p => io_bind between
       (fun _ => with_ (enter p) (exit p) (fun _ => body))) g
  = match between (seeded seed) with
    | Failed e g1 => Failed e g1
    | Done _ g1 =>
        match body g1 with
        | Done a _ => Done (Some a) g
        | Failed e _ => Failed e g
        end
    end.
Proof.
  unfold io_bind, init, with_, enter, exit. simpl.
  destruct (between (seeded seed)) as [b g1|e g1]; [|done].
  by destruct (body g1).
Qed.

End SeedManager.

Section ConsoleManager.
Import Util Util.redirect_console.

(** The object after [__enter__] in the console [c]. *)
Lemma enter_pushes (self : t) (c : Sys.console) :
  enter (c, self)
  = let entered := {| open_files := open_files self;
                      sys_stdout := sys_stdout self ++ [Sys.stdout c];
                      sys_stderr := sys_stderr self ++ [Sys.stderr c];
                      stdout := stdout self; stderr := stderr self |} in
    let redirected := {| Sys.stdout := stdout self;
                         Sys.stderr := stderr self;
                         Sys.written := Sys.written c |} in
    match last (open_files self) with
    | Some f => Done f (redirected, entered)
    | None => Failed PyIndexError (redirected, entered)
    end.
Proof. reflexivity. Qed.

Lemma exit_pops (self : t) (c c' : Sys.console) :
  exit (c', {| open_files := open_files self;
               sys_stdout := sys_stdout self ++ [Sys.stdout c];
               sys_stderr := sys_stderr self ++ [Sys.stderr c];
               stdout := stdout self; stderr := stderr self |})
  = Done false ({| Sys.stdout := Sys.stdout c; Sys.stderr := Sys.stderr c;
                   Sys.written := Sys.written c' |}, self).
Proof.
  destruct self as [files outs errs out err]. unfold exit.
  cbn [open_files sys_stdout sys_stderr stdout stderr].
  by rewrite !last_snoc, !removelast_last.
Qed.

Lemma with_console {A} (self : t) (fid : fileobj)
    (body : fileobj -> IO Sys.console A) (c : Sys.console) :
  last (open_files self) = Some fid ->
  with_ enter exit (fun v => beside (body v)) (c, self)
  = let redirected := {| Sys.stdout := stdout self;
                         Sys.stderr := stderr self;
                         Sys.written := Sys.written c |} in
    match body fid redirected with
    | Done a c' =>
        Done (Some a) ({| Sys.stdout := Sys.stdout c;
                          Sys.stderr := Sys.stderr c;
                          Sys.written := Sys.written c' |}, self)
    | Failed e c' =>
        Failed e ({| Sys.stdout := Sys.stdout c;
                     Sys.stderr := Sys.stderr c;
                     Sys.written := Sys.written c' |}, self)
    end.
Proof.
  intros Hlast. unfold with_. rewrite enter_pushes, Hlast.
  cbv zeta. unfold beside. cbn [fst snd].
  destruct (body fid _) as [a c'|e c']; by rewrite exit_pops.
Qed.

(** [with self as fid: body], for a [redirect_console] object that has
    opened a file of its own: the body runs with [sys.stdout] and
    [sys.stderr] set to the object's streams and [fid] bound to the file it
    opened last; when the body is done, returning or raising, the two
    streams are what they were when the statement was entered, whatever the
    body set them to, the object is as it was, and an exception of the body
    is not swallowed. *)
Theorem redirect_console_restores {A} (self : t) (fid : fileobj)
    (body : fileobj -> IO Sys.console A) (c : Sys.console) :
  last (open_files self) = Some fid ->
  with_ enter exit (fun v => beside (body v)) (c, self)
  = let redirected := {| Sys.stdout := stdout self;
                         Sys.stderr := stderr self;
                         Sys.written := Sys.written c |} in
    match body fid redirected with
    | Done a c' =>
        Done (Some a) ({| Sys.stdout := Sys.stdout c;
                          Sys.stderr := Sys.stderr c;
                          Sys.written := Sys.written c' |}, self)
    | Failed e c' =>
        Failed e ({| Sys.stdout := Sys.stdout c;
                     Sys.stderr := Sys.stderr c;
                     Sys.written := Sys.written c' |}, self)
    end.
Proof. apply with_console. Qed.

(** The statement can be nested in itself on the same object: the saved
    streams are kept on a stack, so after the outer statement the streams
    are those from before it and the object is as it was. *)
Theorem redirect_console_is_reentrant {A} (self : t) (fid : fileobj)
    (body : fileobj -> IO Sys.console A) (c : Sys.console) :
  last (open_files self) = Some fid ->
  state_of
    (with_ enter exit
       (fun _ => with_ enter exit (fun v => beside (body v))) (c, self))
  = ({| Sys.stdout := Sys.stdout c; Sys.stderr := Sys.stderr c;
        Sys.written :=
          Sys.written
            (state_of (body fid {| Sys.stdout := stdout self;
                                   Sys.stderr := stderr self;
                                   Sys.written := Sys.written c |})) |},
     self).
Proof.
  intros Hlast. unfold with_ at 1. rewrite enter_pushes, Hlast.
  cbv beta iota zeta. rewrite (with_console _ fid) by done.
  cbn [open_files sys_stdout sys_stderr stdout stderr Sys.stdout Sys.stderr
       Sys.written].
  destruct (body fid _) as [a c'|e c']; cbv zeta; by rewrite exit_pops.
Qed.

(** A [redirect_console] object that was given an open file for [stdout],
    and no file name for [stderr], has no file of its own, and the
    statement fails on it: [__enter__] raises [IndexError] after it has
    redirected the streams, the body does not run, and since [__exit__] is
    not called the streams stay redirected. *)
Theorem redirect_console_fails_on_open_file {A} (writable : string -> bool)
    (f : fileobj) (stderr_arg : arg) (body : fileobj -> IO _ A)
    (c : Sys.console) :
  (forall name, stderr_arg <> AName name) ->
  exists self entered,
    init writable (AFile f) stderr_arg c = Done self c
    /\ open_files self = []
    /\ stdout self = f
    /\ with_ enter exit body (c, self)
       = Failed PyIndexError
           ({| Sys.stdout := f; Sys.stderr := stderr self;
               Sys.written := Sys.written c |}, entered)
    /\ sys_stdout entered = [Sys.stdout c]
    /\ sys_stderr entered = [Sys.stderr c].
Proof.
  intros Hname. destruct stderr_arg as [|g|name]; [| |by destruct (Hname name)];
    eexists _, _; (split; [reflexivity|]); repeat split.
Qed.


End ConsoleManager.

Section Imports.
Import Util.
Variable dirname_abspath : string -> string.

(** [relative_import] registers the package name as a [DynamicPackage] for
    the directory of the script and returns the name, replacing an earlier
    registration of its own; it never replaces a module that is not a
    [DynamicPackage]: for such a name it raises [ImportError] and leaves
    [sys.modules] as it is. No other entry of [sys.modules] changes. *)
Theorem relative_import_keeps_real_modules (filename package : string)
    (sys_modules : gmap string module_obj) :
  let outcome := relative_import dirname_abspath filename package sys_modules in
  (forall name, sys_modules !! name = Some OtherModule ->
                state_of outcome !! name = Some OtherModule)
  /\ (forall name, name <> package ->
                   state_of outcome !! name = sys_modules !! name)
  /\ (sys_modules !! package = Some OtherModule ->
      exists msg, outcome = Failed (PyImportError msg) sys_modules)
  /\ (sys_modules !! package <> Some OtherModule ->
      outcome = Done package
                  (<[package := DynamicPackage (dirname_abspath filename)]>
                     sys_modules)
      /\ state_of outcome !! package
         = Some (DynamicPackage (dirname_abspath filename))).
Proof.
  intros outcome. subst outcome. unfold relative_import.
  destruct (sys_modules !! package) as [[old|]|] eqn:Hp; cbn [state_of];
    repeat split; try done; try (by eexists);
    try (intros name Hn; destruct (decide (name = package)) as [->|Hne];
         [congruence | by rewrite lookup_insert_ne]);
    try (intros name Hn; by rewrite lookup_insert_ne);
    try (by rewrite lookup_insert_eq).
Qed.

End Imports.

Section SchemaFields.
Import Util Util.schema.
Context {T : Type} (Literal : string -> T).

Lemma setitem_absent (d : pydict (T:=T)) (k : string) (v : T) :
  k ∉ d.*1 -> setitem d k v = d ++ [(k, v)].
Proof.
  induction d as [|[k' v'] d IH]; intros Hk; simpl; [done|].
  rewrite fmap_cons, not_elem_of_cons in Hk. destruct Hk as [Hne Hk].
  destruct (String.eqb_spec k' k) as [->|_]; [done|]. by rewrite IH.
Qed.

Lemma setitem_keys_absent (d : pydict (T:=T)) (k : string) (v : T) :
  k ∉ d.*1 -> (setitem d k v).*1 = d.*1 ++ [k].
Proof. intros Hk. by rewrite setitem_absent, fmap_app. Qed.

Lemma pop_absent (d : pydict (T:=T)) (k : string) : k ∉ (pop d k).*1.
Proof.
  unfold pop. induction d as [|[k' v'] d IH]; simpl; [apply not_elem_of_nil|].
  destruct (String.eqb_spec k' k) as [->|Hne]; simpl; [done|].
  apply not_elem_of_cons. split; [congruence | done].
Qed.




(** Whatever is selected, the field [type] comes last in the annotations
    handed to [dataclass], exactly once, and is annotated [Literal[name]],
    also when the class annotates [type] itself or [include] lists it. *)
Theorem schema_type_field_is_last (name : string)
    (all_annotations : pydict) (include exclude : option (list string))
    (fields : pydict) :
  field_annotations Literal name all_annotations include exclude
  = inr fields ->
  exists front,
    fields = front ++ [("type", Literal name)]
    /\ "type" ∉ front.*1.
Proof.
  unfold field_annotations.
  destruct (match include, exclude with
            | Some _, Some _ => _ | Some _, None => _
            | None, Some _ => _ | None, None => _ end) as [e|d]; [done|].
  intros [= <-]. exists (pop d "type").
  split; [apply setitem_absent|]; apply pop_absent.
Qed.

(** Giving both [include] and [exclude] raises [ValueError], empty lists
    included; a name in [include] that the class does not annotate raises
    [KeyError]. *)
Theorem schema_rejects_bad_selection (name : string)
    (all_annotations : pydict) (include exclude : list string) (k : string) :
  (exists msg,
      field_annotations Literal name all_annotations (Some include)
                        (Some exclude) = inl (PyValueError msg))
  /\ (k ∈ include -> getitem all_annotations k = None ->
      exists k', field_annotations Literal name all_annotations
                   (Some include) None = inl (PyKeyError k')
                 /\ k' ∈ include /\ getitem all_annotations k' = None).
Proof.
  split; [by eexists|]. intros Hin Hk. unfold field_annotations.
  assert (exists k', included all_annotations include = inl (PyKeyError k')
                     /\ k' ∈ include /\ getitem all_annotations k' = None)
    as (k' & -> & ?); [|by exists k'].
  clear name. induction include as [|k0 rest IH]; [by apply elem_of_nil in Hin|].
  simpl. destruct (getitem all_annotations k0) as [v|] eqn:Hk0.
  - apply elem_of_cons in Hin as [->|Hin]; [congruence|].
    destruct (IH Hin) as (k' & -> & Hk' & Hnone).
    exists k'. split; [done|]. split; [by right | done].
  - exists k0. split; [done|]. split; [by left | done].
Qed.


End SchemaFields.

(** ** The properties of the managers on concrete inputs *)

Section ConcreteUtil.
Import Util.

Lemma push_python_path_round_trip_witness :
  let body : IO (list string) Z := io_ret 7%Z in
  state_of (body (["/usr/lib"] ++ ["/tmp"])) = ["/usr/lib"] ++ ["/tmp"]
  /\ with_ (push_python_path.enter (push_python_path.init "/tmp"))
           (push_python_path.exit (push_python_path.init "/tmp"))
           (fun _ => body) ["/usr/lib"]
     = Done (Some 7%Z) ["/usr/lib"].
Proof.
  intros body. split; [reflexivity|].
  exact (push_python_path_round_trip "/tmp" body ["/usr/lib"] eq_refl).
Defined.

(** A process in [/home] with the directories [/home] and [/data]. *)
Lemma pushdir_restores_witness :
  let os := {| pushdir.cwd := "/home";
               pushdir.directories := {[ "/home"; "/data" ]} |} in
  let self := {| pushdir.path := "/data"; pushdir._cwd := None |} in
  let body : IO pushdir.Dirs unit :=
    fun os => Failed (PyException "stop") os in
  pushdir.path self ∈ pushdir.directories os
  /\ pushdir.cwd
       (state_of (with_ pushdir.enter pushdir.exit
                    (fun _ => beside body) (os, self))).1
     = "/home".
Proof.
  intros os self body.
  assert (pushdir.path self ∈ pushdir.directories os) as Hpath
    by (apply (bool_decide_unpack _); by vm_compute).
  split; [exact Hpath|].
  rewrite (pushdir_restores self body os Hpath); [reflexivity|].
  apply (bool_decide_unpack _). by vm_compute.
Defined.

Lemma pushdir_missing_target_witness :
  let os := {| pushdir.cwd := "/home";
               pushdir.directories := {[ "/home" ]} |} in
  let self := {| pushdir.path := "/data"; pushdir._cwd := None |} in
  (pushdir.path self ∉ pushdir.directories os)
  /\ with_ pushdir.enter pushdir.exit
           (fun _ => io_ret (S:=pushdir.Dirs * pushdir.t) tt) (os, self)
     = Failed PyOSError
         (os, {| pushdir.path := "/data"; pushdir._cwd := Some "/home" |}).
Proof.
  intros os self.
  assert (pushdir.path self ∉ pushdir.directories os) as Hpath
    by (apply (bool_decide_unpack _); by vm_compute).
  split; [exact Hpath|].
  exact (pushdir_missing_target self _ os Hpath).
Defined.

Lemma pushdir_is_not_reentrant_witness :
  let os := {| pushdir.cwd := "/home";
               pushdir.directories := {[ "/home"; "/data" ]} |} in
  let self := {| pushdir.path := "/data"; pushdir._cwd := None |} in
  let body : IO pushdir.Dirs unit := io_ret tt in
  pushdir.path self ∈ pushdir.directories os
  /\ pushdir.cwd
       (state_of
          (with_ pushdir.enter pushdir.exit
             (fun _ => with_ pushdir.enter pushdir.exit
                         (fun _ => beside body)) (os, self))).1
     = "/data".
Proof.
  intros os self body.
  assert (pushdir.path self ∈ pushdir.directories os) as Hpath
    by (apply (bool_decide_unpack _); by vm_compute).
  split; [exact Hpath|].
  exact (pushdir_is_not_reentrant self body os Hpath Hpath).
Defined.

(** A console whose streams are the file objects 1 and 2, and a
    [redirect_console] object that owns the file object 3. *)
Lemma redirect_console_restores_witness :
  let c := {| Sys.stdout := 1%positive; Sys.stderr := 2%positive;
              Sys.written := {[ 1%positive := "a"; 2%positive := "b";
                                3%positive := "" ]} |} in
  let self := {| redirect_console.open_files := [3%positive];
                 redirect_console.sys_stdout := [];
                 redirect_console.sys_stderr := [];
                 redirect_console.stdout := 3%positive;
                 redirect_console.stderr := 3%positive |} in
  let body := fun _ : redirect_console.fileobj =>
                redirect_console.write_stdout "captured" in
  last (redirect_console.open_files self) = Some 3%positive
  /\ exists c',
       with_ redirect_console.enter redirect_console.exit
             (fun v => beside (body v)) (c, self)
       = Done (Some tt) (c', self)
       /\ Sys.stdout c' = 1%positive
       /\ Sys.written c' !! 3%positive = Some "captured"
       /\ Sys.written c' !! 1%positive = Some "a".
Proof.
  intros c self body. split; [reflexivity|].
  eexists. split.
  - rewrite (redirect_console_restores self 3%positive body c eq_refl).
    reflexivity.
  - by vm_compute.
Defined.

Lemma redirect_console_is_reentrant_witness :
  let c := {| Sys.stdout := 1%positive; Sys.stderr := 2%positive;
              Sys.written := {[ 1%positive := "a"; 2%positive := "b";
                                3%positive := "" ]} |} in
  let self := {| redirect_console.open_files := [3%positive];
                 redirect_console.sys_stdout := [];
                 redirect_console.sys_stderr := [];
                 redirect_console.stdout := 3%positive;
                 redirect_console.stderr := 3%positive |} in
  let body := fun _ : redirect_console.fileobj =>
                redirect_console.write_stdout "captured" in
  last (redirect_console.open_files self) = Some 3%positive
  /\ Sys.stdout
       (state_of
          (with_ redirect_console.enter redirect_console.exit
             (fun _ => with_ redirect_console.enter redirect_console.exit
                         (fun v => beside (body v))) (c, self))).1
     = 1%positive.
Proof.
  intros c self body. split; [reflexivity|].
  by rewrite (redirect_console_is_reentrant self 3%positive body c eq_refl).
Defined.

(** [with redirect_console(f): ...] for the open file object 3. *)
Lemma redirect_console_fails_on_open_file_witness :
  let c := {| Sys.stdout := 1%positive; Sys.stderr := 2%positive;
              Sys.written := {[ 1%positive := "a"; 2%positive := "b";
                                3%positive := "" ]} |} in
  (forall name, redirect_console.ANone <> redirect_console.AName name)
  /\ exists self s,
       redirect_console.init (fun _ => true) (redirect_console.AFile 3%positive)
                             redirect_console.ANone c = Done self c
       /\ with_ redirect_console.enter redirect_console.exit
                (fun _ => io_ret tt) (c, self)
          = Failed PyIndexError s
       /\ Sys.stdout s.1 = 3%positive.
Proof.
  intros c.
  assert (forall name, redirect_console.ANone <> redirect_console.AName name)
    as Hname by done.
  split; [exact Hname|].
  destruct (redirect_console_fails_on_open_file (fun _ => true) 3%positive
              redirect_console.ANone (fun _ => io_ret tt) c Hname)
    as (self & entered & Hinit & _ & _ & Hwith & _).
  exists self, ({| Sys.stdout := 3%positive;
                   Sys.stderr := redirect_console.stderr self;
                   Sys.written := Sys.written c |}, entered).
  split; [exact Hinit|]. split; [exact Hwith | reflexivity].
Defined.

(** A class that annotates its own [type] and a private name. *)
Lemma schema_type_field_is_last_witness :
  let annotations := [("type", 0%nat); ("_cache", 1%nat); ("x", 2%nat)] in
  schema.field_annotations (fun _ => 9%nat) "Model" annotations None None
  = inr [("x", 2%nat); ("type", 9%nat)]
  /\ exists front,
       [("x", 2%nat); ("type", 9%nat)] = front ++ [("type", 9%nat)]
       /\ "type" ∉ front.*1.
Proof.
  intros annotations.
  assert (schema.field_annotations (fun _ => 9%nat) "Model" annotations
            None None = inr [("x", 2%nat); ("type", 9%nat)]) as Hrun
    by reflexivity.
  split; [exact Hrun|].
  exact (schema_type_field_is_last (fun _ => 9%nat) "Model" annotations
           None None _ Hrun).
Defined.


End ConcreteUtil.
